(** * Six Degrees of Hollywood: ingestion pipeline and path resolver

    A shallow embedding of [load_imdb.py] (loaders and [clean_data]) and of
    [main.py] (person lookup and the breadth-first [solve]), with the
    properties of the specification stated and settled against it.

    Conventions.
    - A Python [str] is a [string]; each character stands for one code point
      below 256.
    - A Python [int] is a [Z].
    - A raised exception is the [Raise] result of the [DB] monad; the
      connection state is kept, as the Python objects are after a raise.
    - The PostgreSQL connection is a record of the committed tables, the
      tables the open transaction sees, and the "transaction aborted" flag. *)

From Stdlib Require Import ZArith NArith String Ascii List Bool Lia.
From stdpp Require Import base option list sorting gmap strings.

Local Open Scope string_scope.
Local Open Scope Z_scope.

(** ** Python built-ins used by the sources *)

Module Py.

Definition chars (s : string) : list ascii := list_ascii_of_string s.
Definition str (l : list ascii) : string := string_of_list_ascii l.

(** [c.isspace()] for a code point below 256: the controls 9..13 and
    28..31, the space, NEL (133) and the no-break space (160). *)
Definition isspace (c : ascii) : bool :=
  let n := N_of_ascii c in
  (((9 <=? n) && (n <=? 13)) || ((28 <=? n) && (n <=? 32))
   || (n =? 133) || (n =? 160))%N.

(** The value of a decimal digit [0-9], the only code points below 256 of
    category Nd. *)
Definition digit_value (c : ascii) : option Z :=
  let n := N_of_ascii c in
  if ((48 <=? n) && (n <=? 57))%N then Some (Z.of_N n - 48) else None.

Definition is_decimal (c : ascii) : bool :=
  match digit_value c with Some _ => true | None => false end.

(** [c.isdigit()]: the decimal digits and the superscripts two, three and
    one (178, 179, 185), which are digits but not decimals. *)
Definition isdigit_char (c : ascii) : bool :=
  let n := N_of_ascii c in
  (is_decimal c || (n =? 178) || (n =? 179) || (n =? 185))%N.

(** [s.isdigit()]: every character is a digit and there is at least one. *)
Definition isdigit (s : string) : bool :=
  match chars s with
  | [] => false
  | l => forallb isdigit_char l
  end.

Fixpoint lstrip (l : list ascii) : list ascii :=
  match l with
  | c :: l' => if isspace c then lstrip l' else l
  | [] => []
  end.

Definition strip_chars (l : list ascii) : list ascii :=
  rev (lstrip (rev (lstrip l))).

(** [s.strip()] *)
Definition strip (s : string) : string := str (strip_chars (chars s)).

(** [s[n:]] for [n >= 0] *)
Definition slice_from (n : nat) (s : string) : string :=
  str (drop n (chars s)).

(** White space as [int] and [float] skip it at the two ends of a literal:
    the controls 9..13, the space, and NEL (133) and the no-break space
    (160), which the conversion turns into spaces. The separators 28..31
    are white space for [str.strip] but not here: a literal with one of
    them is rejected. *)
Definition literal_space (c : ascii) : bool :=
  let n := N_of_ascii c in
  (((9 <=? n) && (n <=? 13)) || (n =? 32) || (n =? 133) || (n =? 160))%N.

Fixpoint lstrip_literal (l : list ascii) : list ascii :=
  match l with
  | c :: l' => if literal_space c then lstrip_literal l' else l
  | [] => []
  end.

Definition strip_literal (l : list ascii) : list ascii :=
  rev (lstrip_literal (rev (lstrip_literal l))).

(** The digits of an integer literal: decimals, with single underscores
    allowed between two of them. [after_digit] tells whether the previous
    character was a decimal. *)
Fixpoint int_digits (acc : Z) (after_digit : bool) (l : list ascii)
  : option Z :=
  match l with
  | [] => if after_digit then Some acc else None
  | c :: l' =>
      match digit_value c with
      | Some d => int_digits (10 * acc + d) true l'
      | None =>
          if Ascii.eqb c "_" && after_digit then int_digits acc false l'
          else None
      end
  end.

(** An optional sign, then the digits. *)
Definition int_signed (l : list ascii) : option Z :=
  match l with
  | c :: l' =>
      if Ascii.eqb c "+" then int_digits 0 false l'
      else if Ascii.eqb c "-" then Z.opp <$> int_digits 0 false l'
      else int_digits 0 false l
  | [] => None
  end.

(** [int(s)]: [None] stands for [ValueError]. The limit that CPython 3.11
    puts on the number of digits of a literal (4300 unless the interpreter
    is told otherwise) is a setting of the interpreter and is left out;
    the statements on what [int] accepts are made for literals within
    it. *)
Definition int (s : string) : option Z :=
  int_signed (strip_literal (chars s)).

(** [s.split(',')] *)
Fixpoint split_go (cur : list ascii) (l : list ascii) : list string :=
  match l with
  | [] => [str (rev cur)]
  | c :: l' =>
      if Ascii.eqb c "," then str (rev cur) :: split_go [] l'
      else split_go (c :: cur) l'
  end.

Definition split_comma (s : string) : list string := split_go [] (chars s).

(** [', '.join(l)] *)
Fixpoint join_comma (l : list string) : string :=
  match l with
  | [] => ""
  | [x] => x
  | x :: l' => x ++ ", " ++ join_comma l'
  end.

(** Truth value of a [str]: non-empty. *)
Definition truthy (s : string) : bool :=
  match s with EmptyString => false | _ => true end.

End Py.

(** ** [float(s)]

    What is modelled is which literals [float] accepts. The value is kept
    as the decimal that was read, sign, mantissa and exponent: the float
    is that decimal rounded to a binary64 (an infinity when it is out of
    range), and nothing here computes with it or compares two of them. *)

Inductive pyfloat :=
| FNan
| FInf (negative : bool)
| FDec (negative : bool) (mantissa : Z) (exp10 : Z).

Module PyFloat.

Definition lower (c : ascii) : ascii :=
  let n := N_of_ascii c in
  if ((65 <=? n) && (n <=? 90))%N then ascii_of_N (n + 32) else c.

(** Reads a digit part (decimals with single underscores between them)
    and returns the accumulated value, the number of decimals read,
    whether the part is well formed, and the rest of the input. *)
Fixpoint digit_part (acc : Z) (n : nat) (after_digit : bool)
  (l : list ascii) : Z * nat * bool * list ascii :=
  match l with
  | [] => (acc, n, after_digit || Nat.eqb n 0, [])
  | c :: l' =>
      match Py.digit_value c with
      | Some d => digit_part (10 * acc + d) (S n) true l'
      | None =>
          if Ascii.eqb c "_" && after_digit then digit_part acc n false l'
          else (acc, n, after_digit || Nat.eqb n 0, l)
      end
  end.

(** [e] or [E], an optional sign, a digit part, up to the end. *)
Definition exponent (l : list ascii) : option Z :=
  match l with
  | [] => Some 0
  | c :: l' =>
      if Ascii.eqb (lower c) "e" then Py.int_signed l' else None
  end.

Definition number (l : list ascii) : option (Z * Z) :=
  let '(ip, n1, ok1, r1) := digit_part 0 0 false l in
  if negb ok1 then None else
  match r1 with
  | "."%char :: r2 =>
      let '(fp, n2, ok2, r3) := digit_part ip 0 false r2 in
      if negb ok2 || Nat.eqb (n1 + n2) 0 then None
      else e ← exponent r3; Some (fp, e - Z.of_nat n2)
  | _ =>
      if Nat.eqb n1 0 then None else e ← exponent r1; Some (ip, e)
  end.

Definition unsigned (negative : bool) (l : list ascii) : option pyfloat :=
  let word := Py.str (map lower l) in
  if String.eqb word "inf" || String.eqb word "infinity"
  then Some (FInf negative)
  else if String.eqb word "nan" then Some FNan
  else '(m, e) ← number l; Some (FDec negative m e).

(** [float(s)]: [None] stands for [ValueError]. *)
Definition float (s : string) : option pyfloat :=
  match Py.strip_literal (Py.chars s) with
  | c :: l =>
      if Ascii.eqb c "+" then unsigned false l
      else if Ascii.eqb c "-" then unsigned true l
      else unsigned false (c :: l)
  | [] => None
  end.

End PyFloat.

(** ** The store *)

(** The exceptions the modelled code can raise. *)
Inductive exn :=
| ValueError                        (* int() or float() on a bad literal *)
| UniqueViolation (table : string)  (* duplicate primary key *)
| NumericValueOutOfRange            (* value outside INTEGER *)
| UndefinedColumn (column : string) (* column "..." does not exist *)
| AmbiguousColumn (column : string)
| InFailedSqlTransaction            (* statement in an aborted transaction *)
| ForeignKeyViolation (table : string) (* reference to an absent row *)
| InvalidRegularExpression          (* a pattern that PostgreSQL rejects *)
| SystemExit (message : string).    (* sys.exit(message) *)

Inductive res (A : Type) :=
| Ret (a : A)
| Raise (e : exn).
Arguments Ret {A} a.
Arguments Raise {A} e.

(** Rows of [movies], [ratings], [people] and [stars], as the four
    CREATE TABLE statements declare them; the primary keys are the keys of
    the maps. *)
Record movie := Movie {
  title : string;
  year : option Z;
  title_type : option string;
  is_adult : option Z;
  runtime : option Z;
  genres : option string }.

Record rating := Rating {
  r_movie_id : Z;
  average : option pyfloat;
  num_votes : option Z }.

Record person := Person {
  name : string;
  birth : option Z;
  death : option Z;
  famous_movies : option string }.

Record star := Star {
  person_id : Z;
  movie_id : Z;
  category : string }.

(** The foreign keys of [ratings] and [stars], each declared with ON DELETE
    CASCADE. A key is in place from the CREATE TABLE of its table until the
    table it refers to is dropped: DROP TABLE ... CASCADE drops the keys
    that refer to the table and leaves the rows. *)
Record foreign_keys := Keys {
  ratings_movie : bool;   (* ratings.movie_id REFERENCES movies (id) *)
  stars_person : bool;    (* stars.person_id REFERENCES people (id) *)
  stars_movie : bool }.   (* stars.movie_id REFERENCES movies (id) *)

Record tables := Store {
  movies : gmap Z movie;
  ratings : list rating;
  people : gmap Z person;
  stars : list star;
  keys : foreign_keys }.

(** Tables with every key in place, as a load in the order of the main
    block leaves them. *)
Definition Tables (movies : gmap Z movie) (ratings : list rating)
  (people : gmap Z person) (stars : list star) : tables :=
  Store movies ratings people stars (Keys true true true).

Definition no_tables : tables := Tables ∅ [] ∅ [].

(** A psycopg2 connection without autocommit. *)
Record connection := Connection {
  committed : tables;   (* what a new session would see *)
  current : tables;     (* what the open transaction sees *)
  aborted : bool }.     (* a statement failed; only rollback is accepted *)

Definition fresh (t : tables) : connection := Connection t t false.

(** State and exception monad over the connection. *)
Definition DB (A : Type) : Type := connection -> res A * connection.

Definition raise {A} (e : exn) : DB A := fun c => (Raise e, c).

#[global] Instance DB_ret : MRet DB := fun A a c => (Ret a, c).
#[global] Instance DB_bind : MBind DB := fun A B k m c =>
  match m c with
  | (Ret a, c') => k a c'
  | (Raise e, c') => (Raise e, c')
  end.

#[global] Instance DB_fmap : FMap DB := fun A B f m => a ← m; mret (f a).

(** A Python call that returns or raises [ValueError]. *)
Definition or_value_error {A} (o : option A) : DB A :=
  match o with Some a => mret a | None => raise ValueError end.

(** [cur.execute(statement)]: in an aborted transaction every statement is
    refused; a failing statement aborts the transaction. *)
Definition execute {A} (statement : tables -> res (A * tables)) : DB A :=
  fun c =>
    if aborted c then (Raise InFailedSqlTransaction, c)
    else match statement (current c) with
         | Ret (a, t) => (Ret a, Connection (committed c) t false)
         | Raise e => (Raise e, Connection (committed c) (current c) true)
         end.

Definition update (f : tables -> res tables) : tables -> res (unit * tables) :=
  fun t => match f t with Ret t' => Ret (tt, t') | Raise e => Raise e end.

Definition select {A} (f : tables -> A) : tables -> res (A * tables) :=
  fun t => Ret (f t, t).

(** [con.commit()]: COMMIT in an aborted transaction rolls back. *)
Definition commit : DB unit :=
  fun c =>
    if aborted c then (Ret tt, Connection (committed c) (committed c) false)
    else (Ret tt, Connection (current c) (current c) false).

(** ** The dump files

    One record per line of a tab-separated dump, with the columns the
    loaders read, as [csv.DictReader] hands them over. *)

Module TitleBasics.
Record row := Row {
  tconst : string; titleType : string; primaryTitle : string;
  startYear : string; isAdult : string; runtimeMinutes : string;
  genres : string }.
End TitleBasics.

Module TitleRatings.
Record row := Row {
  tconst : string; averageRating : string; numVotes : string }.
End TitleRatings.

Module NameBasics.
Record row := Row {
  nconst : string; primaryName : string; birthYear : string;
  deathYear : string; knownForTitles : string }.
End NameBasics.

Module TitlePrincipals.
Record row := Row {
  tconst : string; nconst : string; category : string }.
End TitlePrincipals.

(** The null sentinel of the dumps, a backslash and an N. *)
Definition sentinel : string := "\N".

(** [int(field[2:])], the derivation of every id *)
Definition parse_id (field : string) : option Z :=
  Py.int (Py.slice_from 2 field).

(** [int(field) if field.isdigit() else None] *)
Definition digits_or_null (field : string) : DB (option Z) :=
  if Py.isdigit field then Some <$> or_value_error (Py.int field)
  else mret None.

(** [None if field == '\\N' else field] *)
Definition text_or_null (field : string) : option string :=
  if String.eqb field sentinel then None else Some field.

(** [int(field) if field != '\\N' else None] *)
Definition int_or_null (field : string) : DB (option Z) :=
  if String.eqb field sentinel then mret None
  else Some <$> or_value_error (Py.int field).

(** [float(field)] unless the field is the sentinel *)
Definition float_or_null (field : string) : DB (option pyfloat) :=
  if String.eqb field sentinel then mret None
  else Some <$> or_value_error (PyFloat.float field).

(** ** INSERT statements *)

(** The range of the INTEGER columns. *)
Definition in_integer (z : Z) : bool :=
  (-2147483648 <=? z) && (z <=? 2147483647).

Definition null_or_in_integer (o : option Z) : bool :=
  match o with Some z => in_integer z | None => true end.

Definition insert_movie (id : Z) (m : movie) (t : tables) : res tables :=
  if negb (in_integer id && null_or_in_integer (year m)
           && null_or_in_integer (is_adult m)
           && null_or_in_integer (runtime m))
  then Raise NumericValueOutOfRange
  else match movies t !! id with
       | Some _ => Raise (UniqueViolation "movies")
       | None => Ret (Store (<[id := m]> (movies t)) (ratings t)
                        (people t) (stars t) (keys t))
       end.

Definition insert_rating (r : rating) (t : tables) : res tables :=
  if negb (in_integer (r_movie_id r) && null_or_in_integer (num_votes r))
  then Raise NumericValueOutOfRange
  else if ratings_movie (keys t)
          && negb (bool_decide (is_Some (movies t !! r_movie_id r)))
  then Raise (ForeignKeyViolation "ratings")
  else Ret (Store (movies t) (ratings t ++ [r]) (people t) (stars t)
              (keys t)).

Definition insert_person (id : Z) (p : person) (t : tables) : res tables :=
  if negb (in_integer id && null_or_in_integer (birth p)
           && null_or_in_integer (death p))
  then Raise NumericValueOutOfRange
  else match people t !! id with
       | Some _ => Raise (UniqueViolation "people")
       | None => Ret (Store (movies t) (ratings t)
                        (<[id := p]> (people t)) (stars t) (keys t))
       end.

Definition same_pair (a b : star) : bool :=
  (person_id a =? person_id b) && (movie_id a =? movie_id b).

(** INSERT ... ON CONFLICT (person_id, movie_id) DO NOTHING; the keys are
    checked for a row that is inserted. *)
Definition insert_star (s : star) (t : tables) : res tables :=
  if existsb (same_pair s) (stars t) then Ret t
  else if (stars_person (keys t)
           && negb (bool_decide (is_Some (people t !! person_id s))))
          || (stars_movie (keys t)
              && negb (bool_decide (is_Some (movies t !! movie_id s))))
  then Raise (ForeignKeyViolation "stars")
  else Ret (Store (movies t) (ratings t) (people t) (stars t ++ [s])
              (keys t)).

(** [SELECT id FROM movies WHERE id = %s] followed by [fetchone()] *)
Definition select_movie (id : Z) (t : tables) : option Z :=
  match movies t !! id with Some _ => Some id | None => None end.

Definition select_person (id : Z) (t : tables) : option Z :=
  match people t !! id with Some _ => Some id | None => None end.

(** ** The loaders *)

(** [if count % 100000 == 0: con.commit()] *)
Definition commit_batch (count : Z) : DB unit :=
  if count mod 100000 =? 0 then commit else mret tt.

(** [for row in reader: body], with the running [count] of the loaders *)
Fixpoint for_rows {R} (body : R -> Z -> DB Z) (rows : list R) (count : Z)
  : DB unit :=
  match rows with
  | [] => mret tt
  | row :: rest => count ← body row count; for_rows body rest count
  end.

Definition movies_row (row : TitleBasics.row) (count : Z) : DB Z :=
  id ← or_value_error (parse_id (TitleBasics.tconst row));
  let title := TitleBasics.primaryTitle row in
  year ← digits_or_null (TitleBasics.startYear row);
  let title_type := text_or_null (TitleBasics.titleType row) in
  is_adult ← digits_or_null (TitleBasics.isAdult row);
  runtime ← digits_or_null (TitleBasics.runtimeMinutes row);
  let genres := text_or_null (TitleBasics.genres row) in
  execute (update (insert_movie id
    (Movie title year title_type is_adult runtime genres)));;
  let count := count + 1 in
  commit_batch count;;
  mret count.

(** DROP TABLE IF EXISTS movies CASCADE; CREATE TABLE movies (...) *)
Definition recreate_movies (t : tables) : res tables :=
  Ret (Store ∅ (ratings t) (people t) (stars t)
         (Keys false (stars_person (keys t)) false)).

Definition make_movies (file : list TitleBasics.row) : DB unit :=
  execute (update recreate_movies);;
  for_rows movies_row file 0;;
  commit.

Definition ratings_row (row : TitleRatings.row) (count : Z) : DB Z :=
  movie_id ← or_value_error (parse_id (TitleRatings.tconst row));
  result ← execute (select (select_movie movie_id));
  match result with
  | None => mret count    (* continue *)
  | Some _ =>
      average ← float_or_null (TitleRatings.averageRating row);
      num_votes ← int_or_null (TitleRatings.numVotes row);
      execute (update (insert_rating (Rating movie_id average num_votes)));;
      let count := count + 1 in
      commit_batch count;;
      mret count
  end.

(** DROP TABLE IF EXISTS ratings; CREATE TABLE ratings (movie_id INTEGER
    REFERENCES movies (id) ON DELETE CASCADE, ...) *)
Definition recreate_ratings (t : tables) : res tables :=
  Ret (Store (movies t) [] (people t) (stars t)
         (Keys true (stars_person (keys t)) (stars_movie (keys t)))).

Definition make_ratings (file : list TitleRatings.row) : DB unit :=
  execute (update recreate_ratings);;
  for_rows ratings_row file 0;;
  commit.

Definition people_row (row : NameBasics.row) (count : Z) : DB Z :=
  id ← or_value_error (parse_id (NameBasics.nconst row));
  let name := NameBasics.primaryName row in
  birth ← int_or_null (NameBasics.birthYear row);
  death ← int_or_null (NameBasics.deathYear row);
  let famous_movies := text_or_null (NameBasics.knownForTitles row) in
  execute (update (insert_person id
    (Person name birth death famous_movies)));;
  let count := count + 1 in
  commit_batch count;;
  mret count.

(** DROP TABLE IF EXISTS people CASCADE; CREATE TABLE people (...) *)
Definition recreate_people (t : tables) : res tables :=
  Ret (Store (movies t) (ratings t) ∅ (stars t)
         (Keys (ratings_movie (keys t)) false (stars_movie (keys t)))).

Definition make_people (file : list NameBasics.row) : DB unit :=
  execute (update recreate_people);;
  for_rows people_row file 0;;
  commit.

Definition stars_row (row : TitlePrincipals.row) (count : Z) : DB Z :=
  person_id ← or_value_error (parse_id (TitlePrincipals.nconst row));
  movie_id ← or_value_error (parse_id (TitlePrincipals.tconst row));
  let category := TitlePrincipals.category row in
  result ← execute (select (select_person person_id));
  match result with
  | None => mret count    (* continue *)
  | Some _ =>
      result ← execute (select (select_movie movie_id));
      match result with
      | None => mret count    (* continue *)
      | Some _ =>
          execute (update (insert_star (Star person_id movie_id category)));;
          let count := count + 1 in
          commit_batch count;;
          mret count
      end
  end.

(** DROP TABLE IF EXISTS stars; CREATE TABLE stars (person_id INTEGER
    REFERENCES people (id) ON DELETE CASCADE, movie_id INTEGER REFERENCES
    movies (id) ON DELETE CASCADE, ...) *)
Definition recreate_stars (t : tables) : res tables :=
  Ret (Store (movies t) (ratings t) (people t) []
         (Keys (ratings_movie (keys t)) true true)).

Definition make_stars (file : list TitlePrincipals.row) : DB unit :=
  execute (update recreate_stars);;
  for_rows stars_row file 0;;
  commit;;
  commit.

(** ** SQL conditions

    A condition is true, false or unknown ([None]); DELETE takes the rows
    on which it is true. *)

#[global] Instance res_ret : MRet res := fun A a => Ret a.
#[global] Instance res_bind : MBind res := fun A B k m =>
  match m with Ret a => k a | Raise e => Raise e end.

Inductive sqlval :=
| VNull
| VInt (z : Z)
| VText (s : string)
| VNumeric (f : pyfloat).

#[global] Instance pyfloat_eq_dec : EqDecision pyfloat.
Proof. solve_decision. Defined.
#[global] Instance sqlval_eq_dec : EqDecision sqlval.
Proof. solve_decision. Defined.

Definition int_val (o : option Z) : sqlval :=
  match o with Some z => VInt z | None => VNull end.
Definition text_val (o : option string) : sqlval :=
  match o with Some s => VText s | None => VNull end.
Definition numeric_val (o : option pyfloat) : sqlval :=
  match o with Some f => VNumeric f | None => VNull end.

Definition selected (condition : option bool) : bool :=
  match condition with Some true => true | _ => false end.

Definition sql_or (a b : option bool) : option bool :=
  match a, b with
  | Some true, _ | _, Some true => Some true
  | Some false, Some false => Some false
  | _, _ => None
  end.

(** [v = k] and [v < k] for an integer operand (text and numeric operands
    do not occur in the statements) *)
Definition sql_eq_int (v : sqlval) (k : Z) : option bool :=
  match v with VInt z => Some (z =? k) | _ => None end.
Definition sql_lt_int (v : sqlval) (k : Z) : option bool :=
  match v with VInt z => Some (z <? k) | _ => None end.

Definition sql_is_null (v : sqlval) : option bool :=
  Some match v with VNull => true | _ => false end.

(** [v NOT IN (l)] for a list of text constants *)
Definition sql_not_in (v : sqlval) (l : list string) : option bool :=
  match v with
  | VText s => Some (negb (existsb (String.eqb s) l))
  | _ => None
  end.

Fixpoint contains (needle s : string) : bool :=
  String.prefix needle s
  || match s with
     | EmptyString => false
     | String _ s' => contains needle s'
     end.

(** [v LIKE '%needle%'] for a needle without wildcards *)
Definition sql_like_contains (v : sqlval) (needle : string) : option bool :=
  match v with VText s => Some (contains needle s) | _ => None end.

(** Column names of the tables, as created. *)
Definition movies_columns : list (string * (Z * movie -> sqlval)) :=
  [ ("id", fun r => VInt r.1);
    ("title", fun r => VText (title r.2));
    ("year", fun r => int_val (year r.2));
    ("title_type", fun r => text_val (title_type r.2));
    ("is_adult", fun r => int_val (is_adult r.2));
    ("runtime", fun r => int_val (runtime r.2));
    ("genres", fun r => text_val (genres r.2)) ].

Definition ratings_columns : list (string * (rating -> sqlval)) :=
  [ ("movie_id", fun r => VInt (r_movie_id r));
    ("average", fun r => numeric_val (average r));
    ("num_votes", fun r => int_val (num_votes r)) ].

Definition column {R} (name : string) (columns : list (string * (R -> sqlval)))
  : option (R -> sqlval) :=
  snd <$> List.find (fun c => String.eqb c.1 name) columns.

Definition left_join {L R} (on : L -> R -> bool) (ls : list L) (rs : list R)
  : list (L * option R) :=
  l ← ls;
  match List.filter (on l) rs with
  | [] => [(l, None)]
  | matches => (fun r => (l, Some r)) <$> matches
  end.

(** Name resolution in [movies LEFT JOIN ratings]; the columns of an
    unmatched right side are NULL. *)
Definition resolve_movies_ratings (name : string)
  : res (Z * movie * option rating -> sqlval) :=
  match column name movies_columns, column name ratings_columns with
  | Some f, None => Ret (fun j => f j.1)
  | None, Some g => Ret (fun j => match j.2 with
                                  | Some r => g r
                                  | None => VNull
                                  end)
  | Some _, Some _ => Raise (AmbiguousColumn name)
  | None, None => Raise (UndefinedColumn name)
  end.

(** ** [clean_data] *)

(** DELETE FROM movies WHERE ...: the rows of [ratings] and [stars] that
    refer to a deleted movie go with it where the key is in place (ON
    DELETE CASCADE), and stay where it was dropped. *)
Definition delete_movies (doomed : Z -> movie -> bool) (t : tables) : tables :=
  let gone id := match movies t !! id with
                 | Some m => doomed id m
                 | None => false
                 end in
  Store (filter (fun im => doomed im.1 im.2 = false) (movies t))
        (if ratings_movie (keys t)
         then List.filter (fun r => negb (gone (r_movie_id r))) (ratings t)
         else ratings t)
        (people t)
        (if stars_movie (keys t)
         then List.filter (fun s => negb (gone (movie_id s))) (stars t)
         else stars t)
        (keys t).

(** DELETE FROM people WHERE ...: the rows of [stars] that refer to a
    deleted person go with it where the key is in place. *)
Definition delete_people (doomed : Z -> person -> bool) (t : tables) : tables :=
  let gone id := match people t !! id with
                 | Some p => doomed id p
                 | None => false
                 end in
  Store (movies t) (ratings t)
        (filter (fun ip => doomed ip.1 ip.2 = false) (people t))
        (if stars_person (keys t)
         then List.filter (fun s => negb (gone (person_id s))) (stars t)
         else stars t)
        (keys t).

(** DELETE FROM movies WHERE is_adult = 1 *)
Definition delete_adult (t : tables) : res tables :=
  Ret (delete_movies
         (fun _ m => selected (sql_eq_int (int_val (is_adult m)) 1)) t).

Definition retained_title_types : list string :=
  ["movie"; "short"; "tvSeries"; "tvMiniSeries"].

(** DELETE FROM movies WHERE title_type NOT IN (...) *)
Definition delete_title_types (t : tables) : res tables :=
  Ret (delete_movies
         (fun _ m => selected (sql_not_in (text_val (title_type m))
                                 retained_title_types)) t).

(** DELETE FROM movies WHERE id IN (SELECT id FROM movies LEFT JOIN ratings
    ON id = movie_id WHERE num_ratings IS NULL OR num_ratings < 20) *)
Definition delete_few_votes (t : tables) : res tables :=
  num_ratings ← resolve_movies_ratings "num_ratings";
  id ← resolve_movies_ratings "id";
  let joined := left_join (fun im r => im.1 =? r_movie_id r)
                  (map_to_list (movies t)) (ratings t) in
  let ids := id <$> List.filter
               (fun j => selected (sql_or (sql_is_null (num_ratings j))
                                     (sql_lt_int (num_ratings j) 20)))
               joined in
  Ret (delete_movies (fun i _ => bool_decide (VInt i ∈ ids)) t).

(** DELETE FROM movies WHERE id IN (SELECT id FROM movies WHERE genres LIKE
    '%News%' OR genres LIKE '%Talk-Show%' OR genres LIKE '%Reality-TV%' OR
    genres LIKE '%Adult%') *)
Definition delete_genres (t : tables) : res tables :=
  Ret (delete_movies
         (fun _ m =>
            let g := text_val (genres m) in
            selected (sql_or (sql_or (sql_or (sql_like_contains g "News")
                                        (sql_like_contains g "Talk-Show"))
                                (sql_like_contains g "Reality-TV"))
                        (sql_like_contains g "Adult"))) t).

(** DELETE FROM people WHERE id IN (SELECT id FROM people LEFT JOIN stars ON
    id = person_id WHERE movie_id IS NULL) *)
Definition delete_people_without_stars (t : tables) : res tables :=
  let joined := left_join (fun ip s => ip.1 =? person_id s)
                  (map_to_list (people t)) (stars t) in
  let ids := (fun j => j.1.1) <$> List.filter
               (fun j => match j.2 with
                         | Some s => false   (* movie_id is not NULL *)
                         | None => true
                         end) joined in
  Ret (delete_people (fun i _ => bool_decide (i ∈ ids)) t).

Definition clean_data : DB unit :=
  execute (update delete_adult);;
  execute (update delete_title_types);;
  execute (update delete_few_votes);;
  execute (update delete_genres);;
  execute (update delete_people_without_stars).

(** The load-and-clean cycle of [main.py] on the four dump files. *)
Definition load_and_clean (titles : list TitleBasics.row)
  (scores : list TitleRatings.row) (names : list NameBasics.row)
  (principals : list TitlePrincipals.row) : DB unit :=
  make_movies titles;;
  make_ratings scores;;
  make_people names;;
  make_stars principals;;
  clean_data.

(** ** [main.py]: the person resolver

    The queries of [main.py] read the tables the connection sees. *)

(** [check_for_id(input)]: the row of the person with that id, [None] when
    the input is not an integer or no row has the id. *)
Definition check_for_id (t : tables) (input : string) : option (Z * person) :=
  id ← Py.int input;
  p ← people t !! id;
  Some (id, p).

(** SELECT title FROM movies WHERE id = ANY(ids) *)
Definition select_titles (t : tables) (ids : list Z) : list string :=
  (fun im => title im.2)
    <$> List.filter (fun im => bool_decide (im.1 ∈ ids)) (map_to_list (movies t)).

(** [get_most_famous(string_titles)]: [Ret None] is the returned [False];
    [int] raises on a token that is no id. *)
Definition get_most_famous (t : tables) (string_titles : option string)
  : res (option string) :=
  match string_titles with
  | None => Ret None
  | Some text =>
      if String.eqb text sentinel then Ret None
      else
        let items := Py.split_comma text in
        match mapM parse_id items with
        | None => Raise ValueError
        | Some result =>
            let list_titles := select_titles t result in
            Ret (Some match list_titles with
                      | [] => ""
                      | _ => Py.join_comma list_titles
                      end)
        end
  end.

(** [not famous_list] *)
Definition falsy (famous_list : option string) : bool :=
  match famous_list with
  | None => true
  | Some s => negb (Py.truthy s)
  end.

(** ORDER BY LENGTH(famous_movies) ASC: shorter texts first, NULL last. *)
Definition known_for_length (p : Z * person) : option nat :=
  String.length <$> famous_movies p.2.

Definition length_le (a b : option nat) : Prop :=
  match a, b with
  | Some x, Some y => (x <= y)%nat
  | _, None => True
  | None, Some _ => False
  end.

#[global] Instance length_le_dec : RelDecision length_le.
Proof.
  intros [x|] [y|]; simpl; try (left; exact I); try (right; tauto).
  apply _.
Defined.

Definition by_known_for_length (a b : Z * person) : Prop :=
  length_le (known_for_length a) (known_for_length b).

#[global] Instance by_known_for_length_dec : RelDecision by_known_for_length.
Proof. intros a b. unfold by_known_for_length. apply _. Defined.

(** A block of the candidate list printed for an ambiguous name. *)
Record candidate := Candidate {
  shown_person : Z * person;
  shown_titles : string }.

Section PersonResolver.

(** [name ~* pattern], PostgreSQL's case-insensitive regular expression
    match. The text the user types goes into the pattern as it is:
    [regex_imatch pattern] is [None] for a pattern that PostgreSQL rejects
    (the statement then raises, whatever the rows are), and else tells
    which names the pattern matches. *)
Variable regex_imatch : string -> option (string -> bool).

(** SELECT name, birth, id, famous_movies FROM people WHERE name ~* %s
    ORDER BY LENGTH(famous_movies) ASC *)
Definition search_people (t : tables) (pattern : string)
  : res (list (Z * person)) :=
  match regex_imatch pattern with
  | None => Raise InvalidRegularExpression
  | Some matches =>
      Ret (merge_sort by_known_for_length
             (List.filter (fun ip => matches (name ip.2))
                (map_to_list (people t))))
  end.

(** The loop over the matches: a person whose titles are falsy is
    skipped. *)
Fixpoint list_candidates (t : tables) (result : list (Z * person))
  : res (list candidate) :=
  match result with
  | [] => Ret []
  | person :: rest =>
      famous_list ← get_most_famous t (famous_movies person.2);
      shown ← list_candidates t rest;
      Ret (if falsy famous_list then shown
           else Candidate person (default "" famous_list) :: shown)
  end.

(** [check_name(input_name)]: the returned row and the printed list of
    candidates. *)
Definition check_name (t : tables) (input_name : string)
  : res (option (Z * person) * list candidate) :=
  let input_name := Py.strip input_name in
  let person_1_search := "(?:^|\s)" ++ input_name ++ "(?:$|\s)" in
  result ← search_people t person_1_search;
  match result with
  | [] => Ret (None, [])
  | [person] => Ret (Some person, [])
  | _ => shown ← list_candidates t result; Ret (None, shown)
  end.

End PersonResolver.

(** ** [main.py]: the path resolver *)

(** SELECT DISTINCT s2.person_id FROM stars s1 JOIN stars s2
    ON s1.movie_id = s2.movie_id
    WHERE s1.person_id = %s AND s2.person_id != %s *)
Definition find_contacts (t : tables) (i_id : Z) : list Z :=
  remove_dups
    (s1 ← stars t;
     s2 ← stars t;
     if (movie_id s1 =? movie_id s2) && (person_id s1 =? i_id)
        && negb (person_id s2 =? i_id)
     then [person_id s2] else []).

Definition exit_message : string :=
  "Program terminated: No connection found...".

Section Solve.

(** The answers of the adjacency query. *)
Variable contacts_of : Z -> list Z.
Variable target : Z.

(** The [while queue] loop. [remaining] is [max_nodes - nodes_visited]:
    the counter exceeds the ceiling after its increment exactly when
    nothing remains before it. A returned [None] is [Ret None], a path is
    [Ret (Some path)], [sys.exit] is [Raise (SystemExit _)]. *)
Fixpoint solve_loop (remaining : nat) (queue : list (Z * list Z))
  (visited_ids : gset Z) : res (option (list Z)) :=
  match queue with
  | [] => Ret None
  | (current_node, current_path) :: queue =>
      match remaining with
      | O => Raise (SystemExit exit_message)
      | S remaining =>
          if decide (current_node ∈ visited_ids)
          then solve_loop remaining queue visited_ids
          else
            let visited_ids := {[current_node]} ∪ visited_ids in
            let contacts := contacts_of current_node in
            if decide (target ∈ contacts)
            then Ret (Some (target :: current_node :: current_path))
            else
              solve_loop remaining
                (queue ++
                 ((fun contact => (contact, current_node :: current_path))
                    <$> filter (fun contact => contact ∉ visited_ids)
                          contacts))%list
                visited_ids
      end
  end.

Definition solve_from (start_node : Z) (max_nodes : Z)
  : res (option (list Z)) :=
  solve_loop (Z.to_nat max_nodes) [(start_node, [])] ∅.

End Solve.

(** [solve(start_node, target, max_nodes)] *)
Definition solve (t : tables) (start_node target : Z) (max_nodes : Z)
  : res (option (list Z)) :=
  solve_from (find_contacts t) target start_node max_nodes.

(** The default ceiling of [solve]. *)
Definition default_max_nodes : Z := 1000000.

(** ** Notions of the specification *)

(** The value of a decimal digit string in positional notation, most
    significant digit first. *)
Definition digit_of (c : ascii) : Z := default 0 (Py.digit_value c).

Fixpoint decimal_value (ds : list ascii) : Z :=
  match ds with
  | [] => 0
  | d :: ds' => digit_of d * 10 ^ Z.of_nat (length ds') + decimal_value ds'
  end.


(** The digits of an integer literal: a decimal digit, then decimal
    digits each with at most one underscore before it. *)
Inductive literal_digits : list ascii -> Prop :=
| digits_last d : Py.is_decimal d = true -> literal_digits [d]
| digits_next d l :
    Py.is_decimal d = true -> literal_digits l -> literal_digits (d :: l)
| digits_underscore d l :
    Py.is_decimal d = true -> literal_digits l ->
    literal_digits (d :: "_"%char :: l).

(** The decimal digits of a text, every other character left out. *)
Definition digits_of (l : list ascii) : list ascii :=
  List.filter Py.is_decimal l.

(** An optional sign and the digits, with the number they stand for. *)
Inductive signed_literal : list ascii -> Z -> Prop :=
| signed_none l :
    literal_digits l -> signed_literal l (decimal_value (digits_of l))
| signed_plus l :
    literal_digits l ->
    signed_literal ("+"%char :: l) (decimal_value (digits_of l))
| signed_minus l :
    literal_digits l ->
    signed_literal ("-"%char :: l) (- decimal_value (digits_of l)).

(** An integer literal in base ten: white space, an optional sign and the
    digits, white space. *)
Definition integer_literal (l : list ascii) (z : Z) : Prop :=
  exists before body after,
    l = (before ++ body ++ after)%list
    /\ Forall (fun c => Py.literal_space c = true) before
    /\ Forall (fun c => Py.literal_space c = true) after
    /\ signed_literal body z.


(** The run stops with an exception. *)
Definition aborts {A} (m : DB A) (c : connection) : Prop :=
  exists e, (m c).1 = Raise e.

(** Two distinct persons co-appear when each has a [stars] row of one
    same movie. *)
Definition co_appear (t : tables) (x y : Z) : Prop :=
  x <> y /\ exists s1 s2, s1 ∈ stars t /\ s2 ∈ stars t
    /\ movie_id s1 = movie_id s2 /\ person_id s1 = x /\ person_id s2 = y.

(** Some known-for token of the person is the id of a stored movie. *)
Definition resolves (t : tables) (p : person) : Prop :=
  exists text token id,
    famous_movies p = Some text /\ token ∈ Py.split_comma text
    /\ parse_id token = Some id /\ is_Some (movies t !! id).

(** Every known-for token of the person is an id. *)
Definition well_formed_known_for (p : Z * person) : Prop :=
  forall text, famous_movies p.2 = Some text -> text <> sentinel ->
               is_Some (mapM parse_id (Py.split_comma text)).

(** Both persons have a known-for text and the first one's is not the
    longer. *)
Definition known_for_shorter (a b : Z * person) : Prop :=
  match famous_movies a.2, famous_movies b.2 with
  | Some x, Some y => (String.length x <= String.length y)%nat
  | _, _ => False
  end.

(** The candidate is printed: [get_most_famous] returns a non-empty text. *)
Definition displayed (t : tables) (p : Z * person) : bool :=
  match get_most_famous t (famous_movies p.2) with
  | Ret famous_list => negb (falsy famous_list)
  | Raise _ => false
  end.

(** A path as [solve] carries it: the last node first and [start] at the
    end, each node adjacent to the one that follows it in the list. *)
Inductive walk_back (adjacent : Z -> Z -> Prop) (start : Z) : list Z -> Prop :=
| walk_back_start : walk_back adjacent start [start]
| walk_back_hop v u p :
    walk_back adjacent start (u :: p) -> adjacent u v ->
    walk_back adjacent start (v :: u :: p).

(** [reach adjacent start n v]: some walk of [n] hops leads from [start]
    to [v]. *)
Inductive reach (adjacent : Z -> Z -> Prop) (start : Z) : nat -> Z -> Prop :=
| reach_start : reach adjacent start 0 start
| reach_hop n u v :
    reach adjacent start n u -> adjacent u v -> reach adjacent start (S n) v.

(** The entries of the queue lie on two consecutive levels, the lower one
    first. *)
Definition levels (queue : list (Z * list Z)) : Prop :=
  exists k q1 q2,
    queue = (q1 ++ q2)%list
    /\ Forall (fun e => length e.2 = k) q1
    /\ Forall (fun e => length e.2 = S k) q2.

(** The invariant of the [while] loop of [solve]. *)
Record invariant (contacts_of : Z -> list Z) (start target : Z)
  (queue : list (Z * list Z)) (visited : gset Z) : Prop := Invariant {
  inv_walk : forall u p, (u, p) ∈ queue ->
    walk_back (fun x y => y ∈ contacts_of x) start (u :: p);
  inv_levels : levels queue;
  inv_target : forall v, v ∈ visited -> target ∉ contacts_of v;
  inv_start : start ∈ visited \/ (start, []) ∈ queue;
  inv_succ : forall u n c,
    u ∈ visited -> reach (fun x y => y ∈ contacts_of x) start n u ->
    c ∈ contacts_of u ->
    c ∈ visited \/ exists p, (c, p) ∈ queue /\ (length p <= S n)%nat }.

(** What is left to do in the worst case: one dequeue for every node not
    yet visited and one for every entry it may add to the queue. *)
Fixpoint cost (contacts_of : Z -> list Z) (universe : list Z)
  (visited : gset Z) : nat :=
  match universe with
  | [] => 0
  | v :: universe =>
      (if decide (v ∈ visited) then 0 else S (length (contacts_of v)))
      + cost contacts_of universe visited
  end%nat.

(** The persons with an edge. *)
Definition persons (t : tables) : list Z := person_id <$> stars t.

(** A ceiling that [solve] cannot hit from [start_node]. *)
Definition budget (t : tables) (start_node : Z) : Z :=
  Z.of_nat (S (cost (find_contacts t) (start_node :: persons t) ∅)).

(** A step that starts in [P] and returns ends in [Q]. *)
Definition triple (P : connection -> Prop) {A} (m : DB A)
  (Q : A -> connection -> Prop) : Prop :=
  forall c a c', P c -> m c = (Ret a, c') -> Q a c'.

(** Every [stars] row names a person and a movie of the tables. *)
Definition references_resolve (t : tables) : Prop :=
  forall s, s ∈ stars t ->
    is_Some (people t !! person_id s) /\ is_Some (movies t !! movie_id s).

(** The open transaction is healthy, has no dangling [stars] row, and the
    keys of [stars] are in place. *)
Definition sound (c : connection) : Prop :=
  aborted c = false /\ references_resolve (current c)
  /\ stars_person (keys (current c)) = true
  /\ stars_movie (keys (current c)) = true.

(** [I] holds after every step of [m] that returns. *)
Definition preserves (I : connection -> Prop) {A} (m : DB A) : Prop :=
  forall c a c', I c -> m c = (Ret a, c') -> I c'.





(** ** Fixtures *)



(** A store with one movie of unknown title type and no other flaw. *)
Definition untyped_movie : movie :=
  Movie "Untitled" (Some 2001) None (Some 0) (Some 95) (Some "Drama").

Definition untyped_store : tables :=
  Tables {[ 5 := untyped_movie ]} [Rating 5 None (Some 250)] ∅ [].


(** Dump files with one well-rated movie, its only actress, and a second
    person who appears nowhere. *)
Definition one_title : list TitleBasics.row :=
  [TitleBasics.Row "tt0000010" "movie" "Ten" "1999" "0" "90" "Drama"].
Definition one_score : list TitleRatings.row :=
  [TitleRatings.Row "tt0000010" "7.5" "5"].
Definition two_names : list NameBasics.row :=
  [NameBasics.Row "nm0000001" "Ann" "1970" "\N" "tt0000010";
   NameBasics.Row "nm0000002" "Bob" "\N" "\N" "\N"].
Definition one_principal : list TitlePrincipals.row :=
  [TitlePrincipals.Row "tt0000010" "nm0000001" "actress"].

(** The movie Ten and an adult title. *)
Definition two_titles : list TitleBasics.row :=
  [TitleBasics.Row "tt0000010" "movie" "Ten" "1999" "0" "90" "Drama";
   TitleBasics.Row "tt0000011" "movie" "Eleven" "2001" "1" "80" "Drama"].

(** Three namesakes with no, two and five known-for titles, and the two
    movies of the store. *)
Definition namesakes : tables :=
  Tables
    (list_to_map [(10, Movie "Ten" None (Some "movie") (Some 0) None None);
                  (50, Movie "Fifty" None (Some "movie") (Some 0) None None)])
    []
    (list_to_map
       [(1, Person "Ann Lee" None None None);
        (2, Person "Ann Lee" (Some 1950) None (Some "tt10,tt20"));
        (3, Person "Ann Lee" None None (Some "tt10,tt20,tt30,tt40,tt50"))])
    [].

(** A stand-in for PostgreSQL's matcher on the patterns that [check_name]
    makes of plain words. For a word of letters, digits and spaces the
    pattern [(?:^|\s)word(?:$|\s)] matches the names in which the word
    stands between white space or the ends of the name, the case of the
    letters ignored. A pattern of any other shape is left out of the
    stand-in, as if rejected; the fixtures type plain words only. *)
Definition plain (c : ascii) : bool :=
  let n := N_of_ascii c in
  (((48 <=? n) && (n <=? 57)) || ((65 <=? n) && (n <=? 90))
   || ((97 <=? n) && (n <=? 122)) || (n =? 32))%N.

(** [\s] *)
Definition blank (c : ascii) : bool :=
  let n := N_of_ascii c in (((9 <=? n) && (n <=? 13)) || (n =? 32))%N.

(** What follows [word] at the head of [name], case ignored. *)
Fixpoint after_word (word name : list ascii) : option (list ascii) :=
  match word, name with
  | [], _ => Some name
  | w :: word, c :: name =>
      if Ascii.eqb (PyFloat.lower w) (PyFloat.lower c)
      then after_word word name else None
  | _ :: _, [] => None
  end.

Definition word_here (word name : list ascii) : bool :=
  match after_word word name with
  | Some [] => true
  | Some (c :: _) => blank c
  | None => false
  end.

(** [boundary]: the name begins here, or white space stands before. *)
Fixpoint word_in (word : list ascii) (boundary : bool) (name : list ascii)
  : bool :=
  (boundary && word_here word name)
  || match name with
     | [] => false
     | c :: name => word_in word (blank c) name
     end.

Definition word_match (pattern : string) : option (string -> bool) :=
  let l := Py.chars pattern in
  let word := take (length l - 16) (drop 8 l) in
  if bool_decide (l = Py.chars "(?:^|\s)" ++ word ++ Py.chars "(?:$|\s)")%list
     && forallb plain word
  then Some (fun name => word_in word true (Py.chars name))
  else None.

(** *** Graph fixtures *)

(** The graph fixtures hold the edges alone: [stars] as it is left when
    [movies], [ratings] and [people] have been loaded anew from empty
    files, which takes the keys of [stars] away. *)
Definition edges_only (stars : list star) : tables :=
  Store ∅ [] ∅ stars (Keys true false false).

(** The chain of the specification: A and B share M1, B and C share M2.
    A, B, C are the persons 1, 2, 3; M1, M2 the movies 10, 20. *)
Definition chain : tables :=
  edges_only
    [Star 1 10 "actor"; Star 2 10 "actress";
     Star 2 20 "actress"; Star 3 20 "director"].

(** Two components: 1 - 2 through movie 10, and 3 - 4 through movie 20. *)
Definition islands : tables :=
  edges_only
    [Star 1 10 "actor"; Star 2 10 "actress";
     Star 3 20 "actor"; Star 4 20 "director"].

(** ** More of the sources *)

(** *** [str(n)] and [s.zfill(width)] *)

Module PyText.

(** The character of a decimal digit. *)
Definition digit_char (d : Z) : ascii := ascii_of_N (Z.to_N (48 + d)).

(** The decimal digits of [n >= 0] in front of [acc], most significant
    first; [fuel] bounds their number. *)
Fixpoint digits (fuel : nat) (n : Z) (acc : list ascii) : list ascii :=
  match fuel with
  | O => acc
  | S fuel =>
      let acc := digit_char (n mod 10) :: acc in
      if n / 10 =? 0 then acc else digits fuel (n / 10) acc
  end.

(** [str(z)] for an [int]: no leading zero, a minus sign when negative. A
    number has no more decimal digits than binary ones. *)
Definition str_int_chars (z : Z) : list ascii :=
  let n := Z.abs z in
  let ds := digits (S (Z.to_nat (Z.log2 n))) n [] in
  if z <? 0 then "-"%char :: ds else ds.

Definition str_int (z : Z) : string := Py.str (str_int_chars z).

(** [s.zfill(width)]: zeros are put in front, after a leading sign. *)
Definition zfill_chars (width : nat) (l : list ascii) : list ascii :=
  let pad := repeat "0"%char (width - length l) in
  match l with
  | c :: rest =>
      if Ascii.eqb c "+" || Ascii.eqb c "-" then c :: (pad ++ rest)%list
      else (pad ++ l)%list
  | [] => pad
  end.

Definition zfill (width : nat) (s : string) : string :=
  Py.str (zfill_chars width (Py.chars s)).

End PyText.

(** *** [tmdb_api.py]: the identifier sent to the API

    [imdb_id = 'tt' + str(movie_id).zfill(7)] in [get_poster], and the same
    with ['nm'] in [get_artist]. *)
Definition imdb_id (prefix : string) (id : Z) : string :=
  prefix ++ PyText.zfill 7 (PyText.str_int id).

(** *** [create_indexes] *)

(** CREATE INDEX IF NOT EXISTS ...: the rows stay as they are. *)
Definition create_index (t : tables) : res tables := Ret t.

Definition create_indexes : DB unit :=
  execute (update create_index);;
  execute (update create_index);;
  execute (update create_index);;
  execute (update create_index);;
  execute (update create_index);;
  commit.

(** *** [get_complete_info] *)

(** What the function can raise: [result[0]] on a [None] result, and
    [sent_maker[role]] on a role that is no key. *)
Inductive info_error :=
| TypeError
| KeyError (key : string).

Inductive outcome (A : Type) :=
| Done (a : A)
| Failed (e : info_error).
Arguments Done {A} a.
Arguments Failed {A} e.

Definition sent_maker : list (string * string) :=
  [ ("self", "were themselves");
    ("writer", "was a writer");
    ("editor", "was an editor");
    ("composer", "was a composer");
    ("production_designer", "was a production designer");
    ("cinematographer", "was a cinematographer");
    ("director", "was a director");
    ("archive_footage", "was present in archive footage");
    ("actress", "was an actress");
    ("producer", "was a producer");
    ("archive_sound", "was in archive sound");
    ("actor", "was an actor") ].

(** [sent_maker[key]] *)
Definition sent_maker_get (key : string) : option string :=
  snd <$> List.find (fun kv => String.eqb kv.1 key) sent_maker.

Module InfoRow.
(** A row of the query: the ten selected columns and [ratings.num_votes],
    the sort key. *)
Record row := Row {
  p1_id : Z; p1_name : string; s1_category : string;
  movies_id : Z; movies_title : string; movies_year : option Z;
  ratings_average : option pyfloat; ratings_num_votes : option Z;
  p2_id : Z; p2_name : string; s2_category : string }.
End InfoRow.

(** The five joins and the WHERE clause of the query. *)
Definition info_rows (t : tables) (a b : Z) : list InfoRow.row :=
  s1 ← stars t;
  s2 ← stars t;
  if (movie_id s1 =? movie_id s2) && (person_id s1 =? a)
     && (person_id s2 =? b)
  then
    match people t !! person_id s1, people t !! person_id s2,
          movies t !! movie_id s1 with
    | Some p1, Some p2, Some m =>
        (fun r => InfoRow.Row (person_id s1) (name p1) (category s1)
                    (movie_id s1) (title m) (year m)
                    (average r) (num_votes r)
                    (person_id s2) (name p2) (category s2))
          <$> List.filter (fun r => r_movie_id r =? movie_id s1) (ratings t)
    | _, _, _ => []
    end
  else [].

(** ORDER BY ratings.num_votes DESC: NULL first, then the larger counts. *)
Definition votes_desc (x y : option Z) : Prop :=
  match x, y with
  | None, _ => True
  | Some _, None => False
  | Some v, Some w => w <= v
  end.

#[global] Instance votes_desc_dec : RelDecision votes_desc.
Proof.
  intros [v|] [w|]; simpl; try (left; exact I); try (right; tauto).
  apply _.
Defined.

Definition by_votes_desc (r1 r2 : InfoRow.row) : Prop :=
  votes_desc (InfoRow.ratings_num_votes r1) (InfoRow.ratings_num_votes r2).

#[global] Instance by_votes_desc_dec : RelDecision by_votes_desc.
Proof. intros a b. unfold by_votes_desc. apply _. Defined.

(** [cur.execute(query, (a, b))] followed by [cur.fetchone()] *)
Definition info_fetchone (t : tables) (a b : Z) : option InfoRow.row :=
  head (merge_sort by_votes_desc (info_rows t a b)).

Module Duo.
(** The dictionary built for a pair. *)
Record duo := Make {
  person_1_id : Z; person_1_name : string; person_1_role : string;
  movie_id : Z; movie_title : string; movie_year : option Z;
  movie_rating : option pyfloat;
  person_2_id : Z; person_2_name : string; person_2_role : string;
  sentence : string }.
End Duo.

(** The text of [{duo['movie_year']}] in the sentence. *)
Definition year_text (y : option Z) : string :=
  match y with Some z => PyText.str_int z | None => "None" end.

(** The body of the loop for the pair [(a, b)]. *)
Definition complete_pair (t : tables) (a b : Z) : outcome Duo.duo :=
  match info_fetchone t a b with
  | None => Failed TypeError
  | Some result =>
      let role1 := InfoRow.s1_category result in
      let role2 := InfoRow.s2_category result in
      match sent_maker_get role1 with
      | None => Failed (KeyError role1)
      | Some phrase1 =>
          match sent_maker_get role2 with
          | None => Failed (KeyError role2)
          | Some phrase2 =>
              Done (Duo.Make (InfoRow.p1_id result) (InfoRow.p1_name result)
                      role1 (InfoRow.movies_id result)
                      (InfoRow.movies_title result)
                      (InfoRow.movies_year result)
                      (InfoRow.ratings_average result)
                      (InfoRow.p2_id result) (InfoRow.p2_name result) role2
                      (InfoRow.p1_name result ++ " " ++ phrase1 ++ " in "
                       ++ InfoRow.movies_title result ++ " "
                       ++ year_text (InfoRow.movies_year result) ++ " where "
                       ++ InfoRow.p2_name result ++ " " ++ phrase2 ++ "."))
          end
      end
  end.

(** [get_complete_info(path)]: one dictionary for every two neighbours of
    the path, in order; the first failure ends the run. *)
Fixpoint get_complete_info (t : tables) (path : list Z)
  : outcome (list Duo.duo) :=
  match path with
  | a :: (b :: _) as rest =>
      match complete_pair t a b with
      | Failed e => Failed e
      | Done duo =>
          match get_complete_info t rest with
          | Failed e => Failed e
          | Done info => Done (duo :: info)
          end
      end
  | _ => Done []
  end.

(** *** What a dump row stands for

    The rows the loaders store, as pure functions of the dump row; [None]
    is a row on which the loader raises. *)

(** [int(field) if field.isdigit() else None] *)
Definition digits_value (field : string) : option (option Z) :=
  if Py.isdigit field then Some <$> Py.int field else Some None.

(** [int(field) if field != '\\N' else None] *)
Definition int_value (field : string) : option (option Z) :=
  if String.eqb field sentinel then Some None else Some <$> Py.int field.

(** [float(field)] unless the field is the sentinel *)
Definition float_value (field : string) : option (option pyfloat) :=
  if String.eqb field sentinel then Some None
  else Some <$> PyFloat.float field.

Definition movie_of_row (row : TitleBasics.row) : option (Z * movie) :=
  id ← parse_id (TitleBasics.tconst row);
  year ← digits_value (TitleBasics.startYear row);
  is_adult ← digits_value (TitleBasics.isAdult row);
  runtime ← digits_value (TitleBasics.runtimeMinutes row);
  Some (id, Movie (TitleBasics.primaryTitle row) year
              (text_or_null (TitleBasics.titleType row)) is_adult runtime
              (text_or_null (TitleBasics.genres row))).

Definition person_of_row (row : NameBasics.row) : option (Z * person) :=
  id ← parse_id (NameBasics.nconst row);
  birth ← int_value (NameBasics.birthYear row);
  death ← int_value (NameBasics.deathYear row);
  Some (id, Person (NameBasics.primaryName row) birth death
              (text_or_null (NameBasics.knownForTitles row))).

Definition star_of_row (row : TitlePrincipals.row) : option star :=
  person_id ← parse_id (TitlePrincipals.nconst row);
  movie_id ← parse_id (TitlePrincipals.tconst row);
  Some (Star person_id movie_id (TitlePrincipals.category row)).

(** The rating of a row, [Some None] for a row that is skipped because
    [movies] has no such id. *)
Definition rating_of_row (M : gmap Z movie) (row : TitleRatings.row)
  : option (option rating) :=
  movie_id ← parse_id (TitleRatings.tconst row);
  match M !! movie_id with
  | None => Some None
  | Some _ =>
      average ← float_value (TitleRatings.averageRating row);
      num_votes ← int_value (TitleRatings.numVotes row);
      Some (Some (Rating movie_id average num_votes))
  end.

(** The pair a [stars] row is unique by. *)
Definition pair_of (s : star) : Z * Z := (person_id s, movie_id s).

(** Both ends of the edge are in the tables. *)
Definition eligible (t : tables) (s : star) : bool :=
  bool_decide (is_Some (people t !! person_id s)
               /\ is_Some (movies t !! movie_id s)).

(** *** Notions for [get_complete_info] *)

(** The dictionary tells of a stored, rated movie in which [a] and [b]
    both have a [stars] row, with the names, roles and phrases of the
    tables, and no rated movie the two share has more votes (a rating
    without a vote count goes before all). *)
Definition describes (t : tables) (a b : Z) (duo : Duo.duo) : Prop :=
  exists p1 p2 m r phrase1 phrase2,
    Star a (Duo.movie_id duo) (Duo.person_1_role duo) ∈ stars t
    /\ Star b (Duo.movie_id duo) (Duo.person_2_role duo) ∈ stars t
    /\ people t !! a = Some p1 /\ people t !! b = Some p2
    /\ movies t !! Duo.movie_id duo = Some m
    /\ r ∈ ratings t /\ r_movie_id r = Duo.movie_id duo
    /\ sent_maker_get (Duo.person_1_role duo) = Some phrase1
    /\ sent_maker_get (Duo.person_2_role duo) = Some phrase2
    /\ duo = Duo.Make a (name p1) (Duo.person_1_role duo)
               (Duo.movie_id duo) (title m) (year m) (average r)
               b (name p2) (Duo.person_2_role duo)
               (name p1 ++ " " ++ phrase1 ++ " in " ++ title m ++ " "
                ++ year_text (year m) ++ " where " ++ name p2 ++ " "
                ++ phrase2 ++ ".")
    /\ forall s1 s2 r',
         s1 ∈ stars t -> s2 ∈ stars t ->
         person_id s1 = a -> person_id s2 = b ->
         movie_id s1 = movie_id s2 ->
         is_Some (movies t !! movie_id s1) ->
         r' ∈ ratings t -> r_movie_id r' = movie_id s1 ->
         votes_desc (num_votes r) (num_votes r').

(** Every [stars] row names a stored person and a stored, rated movie,
    with a role that [sent_maker] has. *)
Definition describable (t : tables) : Prop :=
  Forall (fun s => is_Some (people t !! person_id s)
                   /\ is_Some (movies t !! movie_id s)
                   /\ Exists (fun r => r_movie_id r = movie_id s) (ratings t)
                   /\ is_Some (sent_maker_get (category s)))
    (stars t).

(** A cast of three: Ann and Bob share the movies 10 and 20, of which 20
    has more votes; Bob and Cy share the movie 30. *)
Definition cast : tables :=
  Tables
    (list_to_map
       [(10, Movie "Ten" (Some 1999) (Some "movie") (Some 0) None None);
        (20, Movie "Twenty" None (Some "movie") (Some 0) None None);
        (30, Movie "Thirty" (Some 2005) (Some "short") (Some 0) None None)])
    [Rating 10 None (Some 50); Rating 20 None (Some 900);
     Rating 30 None None]
    (list_to_map
       [(1, Person "Ann" None None None);
        (2, Person "Bob" None None None);
        (3, Person "Cy" None None None)])
    [Star 1 10 "actress"; Star 2 10 "actor";
     Star 1 20 "director"; Star 2 20 "actor";
     Star 2 30 "writer"; Star 3 30 "self"].

(** [m] never changes the committed tables, and a value it returns
    satisfies [post]. *)
Definition quiet {A} (post : A -> Prop) (m : DB A) : Prop :=
  forall c r c', m c = (r, c') ->
    committed c' = committed c /\ forall a, r = Ret a -> post a.

(** *** [get_input] and the main block

    The lines the user types are a list; a call that needs a line when
    none is left waits at the prompt. The tables of [check_database] are
    there. *)

Inductive run (A : Type) :=
| Returned (a : A) (unread : list string)  (* the value, the lines not read *)
| Exited                                   (* [sys.exit()] *)
| Raised (e : exn)                         (* an exception ends the run *)
| RaisedInfo (e : info_error)
| Blocked.                                 (* [input()] waits for a line *)
Arguments Returned {A} a unread.
Arguments Exited {A}.
Arguments Raised {A} e.
Arguments RaisedInfo {A} e.
Arguments Blocked {A}.

(** The line that leaves the program, a backslash and a q. *)
Definition quit_line : string := "\q".

Section Session.

Variable regex_imatch : string -> option (string -> bool).

(** The end of [get_input], after the loop: the titles of the person are
    looked up for the printed summary, and the id is returned. *)
Definition chosen (t : tables) (person_info : Z * person)
  (unread : list string) : run Z :=
  match famous_movies person_info.2 with
  | Some string_titles =>
      match get_most_famous t (Some string_titles) with
      | Ret _ => Returned person_info.1 unread
      | Raise e => Raised e
      end
  | None => Returned person_info.1 unread
  end.

(** [get_input(num)] *)
Fixpoint get_input (t : tables) (inputs : list string) : run Z :=
  match inputs with
  | [] => Blocked
  | u_input :: inputs =>
      if String.eqb u_input quit_line then Exited
      else
        match check_for_id t u_input with
        | Some person_info => chosen t person_info inputs
        | None =>
            match check_name regex_imatch t u_input with
            | Ret (Some person_info, _) => chosen t person_info inputs
            | Ret (None, _) => get_input t inputs
            | Raise e => Raised e
            end
        end
  end.

(** The main block up to [get_complete_info]: two prompts, the search
    with the default ceiling, the description of its result. [len(path)]
    raises TypeError when [solve] returned [None]. *)
Definition main (t : tables) (inputs : list string) : run (list Duo.duo) :=
  match get_input t inputs with
  | Returned id_1 inputs =>
      match get_input t inputs with
      | Returned id_2 inputs =>
          match solve t id_1 id_2 default_max_nodes with
          | Ret (Some path) =>
              match get_complete_info t path with
              | Done info => Returned info inputs
              | Failed e => RaisedInfo e
              end
          | Ret None => RaisedInfo TypeError
          | Raise e => Raised e
          end
      | Exited => Exited
      | Raised e => Raised e
      | RaisedInfo e => RaisedInfo e
      | Blocked => Blocked
      end
  | Exited => Exited
  | Raised e => Raised e
  | RaisedInfo e => RaisedInfo e
  | Blocked => Blocked
  end.

End Session.

(** The line resolves to the person: by its id, or else by its name. *)
Definition resolves_to (regex_imatch : string -> option (string -> bool))
  (t : tables) (line : string) (person_info : Z * person) : Prop :=
  check_for_id t line = Some person_info
  \/ (check_for_id t line = None
      /\ exists shown,
           check_name regex_imatch t line = Ret (Some person_info, shown)).

(** The line resolves to nobody and the prompt comes again. *)
Definition unresolved (regex_imatch : string -> option (string -> bool))
  (t : tables) (line : string) : Prop :=
  line <> quit_line /\ check_for_id t line = None
  /\ exists shown, check_name regex_imatch t line = Ret (None, shown).

(** The cast and a fourth person, Di, alone in the movie 40. *)
Definition apart : tables :=
  Tables
    (<[40 := Movie "Forty" None (Some "movie") (Some 0) None None]>
       (movies cast))
    (ratings cast)
    (<[4 := Person "Di" None None None]> (people cast))
    (stars cast ++ [Star 4 40 "actress"]).

(** *** [merge_images]

    An image is taken by its size, width and height, the only part of it
    the function computes with; [info] is the list of the sizes of the
    collages, as [Image.open(duo['collage']).size] gives them. *)

Inductive strip :=
| Saved (size : Z * Z)   (* [img.save(result_path)], then [sys.exit()] *)
| IndexError             (* [info[0]] or [info[count]] out of range *)
| Finished.              (* the loop ends and the function returns *)

(** The [for duo in info] loop; [rest] is what is left to iterate. *)
Fixpoint merge_loop (info rest : list (Z * Z)) (count : Z) (img : Z * Z)
  : strip :=
  match rest with
  | [] => Finished
  | _ :: rest =>
      let count := count + 1 in
      if count =? Z.of_nat (length info) then Saved img
      else
        match info !! Z.to_nat count with
        | None => IndexError
        | Some img2 =>
            let w := img.1 + img2.1 in
            let h := Z.max img.2 img2.2 in
            merge_loop info rest count (w, h)
        end
  end.

Definition merge_images (info : list (Z * Z)) : strip :=
  match info !! 0%nat with
  | None => IndexError
  | Some img => merge_loop info info 0 img
  end.

(** The sum of the widths. *)
Fixpoint total_width (info : list (Z * Z)) : Z :=
  match info with
  | [] => 0
  | size :: info => size.1 + total_width info
  end.

(** *** The rules of the cleaning stage, in words *)

(** [needle] occurs in [text]. *)
Definition occurs_in (needle text : string) : Prop :=
  exists before after, text = (before ++ needle ++ after)%string.

Definition dropped_genres : list string :=
  ["News"; "Talk-Show"; "Reality-TV"; "Adult"].

(** The three statements of [clean_data] that test columns of [movies],
    each with the movies it is to delete: the adult ones, those of a known
    title type other than the retained ones, those with a known genre
    text in which a dropped genre occurs. *)
Definition movie_rules : list ((tables -> res tables) * (movie -> Prop)) :=
  [ (delete_adult, fun m => is_adult m = Some 1);
    (delete_title_types,
     fun m => exists type, title_type m = Some type
                           /\ type ∉ retained_title_types);
    (delete_genres,
     fun m => exists text genre, genres m = Some text
                                 /\ genre ∈ dropped_genres
                                 /\ occurs_in genre text) ].

(** *** The candidate list, in words *)

(** The titles of the stored movies among the known-for ids of the person;
    [None] for a person without a known-for text or with a token that is
    no id. *)
Definition known_titles (t : tables) (p : person) : option (list string) :=
  text ← famous_movies p;
  ids ← mapM parse_id (Py.split_comma text);
  Some (select_titles t ids).

(** The block printed for a match: none when the text of its titles is
    empty. *)
Definition candidate_of (t : tables) (p : Z * person) : option candidate :=
  titles ← known_titles t p.2;
  if String.eqb (Py.join_comma titles) "" then None
  else Some (Candidate p (Py.join_comma titles)).

(** * Properties *)

(** ** The Python built-ins *)

Example int_leading_zeros : Py.int "0000123" = Some 123.
Proof. reflexivity. Qed.

Example int_signed_padded : Py.int " -1_000 " = Some (-1000).
Proof. reflexivity. Qed.

Example int_rejects :
  Py.int "12a" = None /\ Py.int "" = None /\ Py.int "1__0" = None
  /\ Py.int "5 5" = None /\ Py.int "-" = None /\ Py.int "_1" = None
  /\ Py.int "1_" = None /\ Py.int "+-1" = None /\ Py.int "- 1" = None.
Proof. repeat split; reflexivity. Qed.

(** The separators 28..31 are white space for [str.strip] and not for
    [int]; NEL and the no-break space are white space for both. *)
Example int_separators :
  Py.strip (String (ascii_of_N 28) "7") = "7"
  /\ Py.int (String (ascii_of_N 28) "7") = None
  /\ Py.int (String (ascii_of_N 31) "7") = None
  /\ Py.int (String (ascii_of_N 133) "7") = Some 7
  /\ Py.int (String (ascii_of_N 160) "7") = Some 7
  /\ PyFloat.float (String (ascii_of_N 28) "7") = None.
Proof. repeat split; reflexivity. Qed.

Example isdigit_superscript :
  Py.isdigit (String (ascii_of_N 178) "") = true
  /\ Py.int (String (ascii_of_N 178) "") = None.
Proof. split; reflexivity. Qed.

Example split_ex :
  Py.split_comma "tt1,tt22" = ["tt1"; "tt22"] /\ Py.split_comma "" = [""].
Proof. split; reflexivity. Qed.

Example float_ex :
  PyFloat.float "7.5" = Some (FDec false 75 (-1))
  /\ PyFloat.float " 1e3" = Some (FDec false 1 3)
  /\ PyFloat.float "-Inf" = Some (FInf true)
  /\ PyFloat.float "." = None /\ PyFloat.float "seven" = None
  /\ PyFloat.float "\N" = None.
Proof. repeat split; reflexivity. Qed.

Lemma chars_str l : Py.chars (Py.str l) = l.
Proof. apply list_ascii_of_string_of_list_ascii. Qed.

Lemma str_chars s : Py.str (Py.chars s) = s.
Proof. apply string_of_list_ascii_of_string. Qed.

Lemma decimal_digit_value c :
  Py.is_decimal c = true -> exists d, Py.digit_value c = Some d /\ 0 <= d <= 9.
Proof.
  unfold Py.is_decimal, Py.digit_value.
  destruct (_ && _) eqn:E; [|discriminate]. intros _.
  apply andb_true_iff in E as [E1 E2].
  apply N.leb_le in E1, E2. eexists; split; [reflexivity|lia].
Qed.

Lemma decimal_not_space c : Py.is_decimal c = true -> Py.literal_space c = false.
Proof.
  unfold Py.is_decimal, Py.digit_value, Py.literal_space.
  destruct (_ && _) eqn:E; [|discriminate]. intros _.
  apply andb_true_iff in E as [E1 E2]. apply N.leb_le in E1, E2.
  repeat (apply orb_false_iff; split);
    rewrite ?andb_false_iff, ?N.leb_gt, ?N.eqb_neq; lia.
Qed.

Lemma lstrip_decimals l :
  Forall (fun c => Py.is_decimal c = true) l -> Py.lstrip_literal l = l.
Proof.
  destruct 1 as [|c l Hc _]; [done|]. simpl.
  by rewrite (decimal_not_space c Hc).
Qed.

Lemma strip_decimals l :
  Forall (fun c => Py.is_decimal c = true) l -> Py.strip_literal l = l.
Proof.
  intros H. unfold Py.strip_literal. rewrite (lstrip_decimals l H).
  rewrite lstrip_decimals; [apply rev_involutive|].
  by apply List.Forall_rev.
Qed.

Lemma lstrip_head c l :
  Py.literal_space c = false -> Py.lstrip_literal (c :: l) = c :: l.
Proof. intros H. simpl. by rewrite H. Qed.

Lemma lstrip_spaces before rest :
  Forall (fun c => Py.literal_space c = true) before ->
  Py.lstrip_literal (before ++ rest)%list = Py.lstrip_literal rest.
Proof. induction 1 as [|c l Hc _ IH]; [done|]. simpl. by rewrite Hc. Qed.

Lemma lstrip_split l :
  exists before,
    l = (before ++ Py.lstrip_literal l)%list
    /\ Forall (fun c => Py.literal_space c = true) before.
Proof.
  induction l as [|c l (before & E & H)]; [by exists []|]. simpl.
  destruct (Py.literal_space c) eqn:Ec.
  - exists (c :: before). split; [by rewrite E at 1|by constructor].
  - by exists [].
Qed.

(** What [int] and [float] strip is white space, at the two ends. *)
Lemma strip_split l :
  exists before after,
    l = (before ++ Py.strip_literal l ++ after)%list
    /\ Forall (fun c => Py.literal_space c = true) before
    /\ Forall (fun c => Py.literal_space c = true) after.
Proof.
  destruct (lstrip_split l) as (before & E & Hb).
  destruct (lstrip_split (rev (Py.lstrip_literal l))) as (after & E' & Ha).
  exists before, (rev after). split; [|split; [done|by apply List.Forall_rev]].
  unfold Py.strip_literal. rewrite <- rev_app_distr, <- E', rev_involutive.
  exact E.
Qed.

(** A text that neither begins nor ends with white space is what is left
    of it between white space. *)
Lemma strip_body before body after c r c' r' :
  Forall (fun c => Py.literal_space c = true) before ->
  Forall (fun c => Py.literal_space c = true) after ->
  body = c :: r -> Py.literal_space c = false ->
  rev body = c' :: r' -> Py.literal_space c' = false ->
  Py.strip_literal (before ++ body ++ after)%list = body.
Proof.
  intros Hb Ha E Hc E' Hc'. unfold Py.strip_literal.
  rewrite lstrip_spaces by done. rewrite E at 1. cbn [app].
  rewrite lstrip_head by done. change (c :: r ++ after)%list with ((c :: r) ++ after)%list.
  rewrite <- E, rev_app_distr, lstrip_spaces by (by apply List.Forall_rev).
  rewrite E', lstrip_head by done. by rewrite <- E', rev_involutive.
Qed.

Lemma int_digits_decimal ds :
  Forall (fun c => Py.is_decimal c = true) ds ->
  forall acc b, ds <> [] \/ b = true ->
  Py.int_digits acc b ds
  = Some (acc * 10 ^ Z.of_nat (length ds) + decimal_value ds).
Proof.
  induction 1 as [|d ds Hd _ IH]; intros acc b Hne.
  - destruct Hne as [?| ->]; [done|]. simpl. f_equal. lia.
  - destruct (decimal_digit_value d Hd) as (v & Hv & _).
    cbn [Py.int_digits decimal_value]. rewrite Hv.
    rewrite IH by (by right). unfold digit_of. rewrite Hv. simpl default.
    f_equal. rewrite length_cons, Nat2Z.inj_succ, Z.pow_succ_r by lia. ring.
Qed.

Lemma int_signed_decimals ds :
  ds <> [] -> Forall (fun c => Py.is_decimal c = true) ds ->
  Py.int_signed ds = Some (decimal_value ds).
Proof.
  intros Hne H. destruct ds as [|d ds]; [done|].
  unfold Py.int_signed.
  assert (Hd : Py.is_decimal d = true) by (by inversion H).
  destruct (Ascii.eqb_spec d "+") as [->|_]; [discriminate|].
  destruct (Ascii.eqb_spec d "-") as [->|_]; [discriminate|].
  rewrite int_digits_decimal by auto. reflexivity.
Qed.

Lemma decimal_value_zeros k ds :
  decimal_value (repeat "0"%char k ++ ds) = decimal_value ds.
Proof. induction k as [|k IH]; [done|]. simpl. rewrite IH. done. Qed.

Lemma parse_id_remainder field :
  parse_id field = Py.int_signed (Py.strip_literal (drop 2 (Py.chars field))).
Proof. unfold parse_id, Py.int, Py.slice_from. by rewrite chars_str. Qed.

(** The parser reads the digits of a literal as the number they stand
    for. *)
Lemma int_digits_literal l :
  literal_digits l ->
  forall acc b,
    Py.int_digits acc b l
    = Some (acc * 10 ^ Z.of_nat (length (digits_of l))
            + decimal_value (digits_of l)).
Proof.
  induction 1 as [d Hd|d l Hd _ IH|d l Hd _ IH]; intros acc b;
    destruct (decimal_digit_value d Hd) as (v & Hv & _);
    cbn [Py.int_digits digits_of List.filter]; rewrite Hv, Hd.
  - cbn. unfold digit_of. rewrite Hv. cbn. f_equal. lia.
  - rewrite IH. fold (digits_of l).
    cbn [decimal_value length]. unfold digit_of. rewrite Hv. simpl default.
    f_equal. rewrite Nat2Z.inj_succ, Z.pow_succ_r by lia. ring.
  - change (Py.digit_value "_") with (@None Z). cbn [Ascii.eqb Bool.eqb andb].
    change (Py.is_decimal "_") with false. cbn iota.
    rewrite IH. fold (digits_of l).
    cbn [decimal_value length]. unfold digit_of. rewrite Hv. simpl default.
    f_equal. rewrite Nat2Z.inj_succ, Z.pow_succ_r by lia. ring.
Qed.

(** What the parser accepts are the digits of a literal; after a digit it
    also accepts the end and an underscore before more digits. *)
Lemma int_digits_accepts l :
  forall acc b z,
    Py.int_digits acc b l = Some z ->
    literal_digits l
    \/ (b = true /\ (l = [] \/ exists l', l = "_"%char :: l'
                                          /\ literal_digits l')).
Proof.
  induction l as [|c l IH]; intros acc b z; cbn [Py.int_digits].
  - destruct b; [|done]. intros _. right. split; [done|by left].
  - destruct (Py.digit_value c) as [v|] eqn:Ev.
    + assert (Hc : Py.is_decimal c = true)
        by (unfold Py.is_decimal; by rewrite Ev).
      intros H. left.
      destruct (IH _ _ _ H) as [Hl|[_ [->|(l' & -> & Hl')]]].
      * by apply digits_next.
      * by apply digits_last.
      * by apply digits_underscore.
    + destruct (Ascii.eqb_spec c "_") as [->|_]; [|done].
      destruct b; [|done]. cbn [andb]. intros H. right. split; [done|].
      right. exists l. split; [done|].
      by destruct (IH _ _ _ H) as [Hl|[? _]].
Qed.

Lemma literal_digits_head l :
  literal_digits l -> exists d r, l = d :: r /\ Py.is_decimal d = true.
Proof. destruct 1; eauto. Qed.

Lemma literal_digits_last l :
  literal_digits l -> exists d r, rev l = d :: r /\ Py.is_decimal d = true.
Proof.
  induction 1 as [d Hd|d l Hd _ (d' & r & E & Hd')|d l Hd _ (d' & r & E & Hd')].
  - by exists d, [].
  - exists d', (r ++ [d])%list. cbn [rev]. by rewrite E.
  - exists d', ((r ++ ["_"%char]) ++ [d])%list. cbn [rev]. by rewrite E.
Qed.

(** [int_signed] accepts the signed literals and reads each as the number
    it stands for. *)
Lemma int_signed_literal l z :
  Py.int_signed l = Some z <-> signed_literal l z.
Proof.
  split.
  - destruct l as [|c l]; [done|]. unfold Py.int_signed.
    destruct (Ascii.eqb_spec c "+") as [->|Hp];
      [|destruct (Ascii.eqb_spec c "-") as [->|Hm]].
    + intros H. destruct (int_digits_accepts _ _ _ _ H) as [Hl|[? _]]; [|done].
      rewrite (int_digits_literal l Hl) in H. injection H as <-.
      rewrite Z.mul_0_l, Z.add_0_l. by constructor.
    + destruct (Py.int_digits 0 false l) as [v|] eqn:H; [|done].
      intros E. injection E as <-.
      destruct (int_digits_accepts _ _ _ _ H) as [Hl|[? _]]; [|done].
      rewrite (int_digits_literal l Hl) in H. injection H as <-.
      rewrite Z.mul_0_l, Z.add_0_l. by constructor.
    + intros H. destruct (int_digits_accepts _ _ _ _ H) as [Hl|[? _]]; [|done].
      rewrite (int_digits_literal _ Hl) in H. injection H as <-.
      rewrite Z.mul_0_l, Z.add_0_l. by constructor.
  - destruct 1 as [l Hl|l Hl|l Hl]; unfold Py.int_signed.
    + destruct (literal_digits_head l Hl) as (d & r & -> & Hd).
      destruct (Ascii.eqb_spec d "+") as [->|_]; [done|].
      destruct (Ascii.eqb_spec d "-") as [->|_]; [done|].
      rewrite (int_digits_literal _ Hl). f_equal; lia.
    + cbn. rewrite (int_digits_literal _ Hl). f_equal; lia.
    + cbn. rewrite (int_digits_literal _ Hl). cbn. f_equal; lia.
Qed.

Lemma signed_literal_ends l z :
  signed_literal l z ->
  (exists c r, l = c :: r /\ Py.literal_space c = false)
  /\ (exists c r, rev l = c :: r /\ Py.literal_space c = false).
Proof.
  destruct 1 as [l Hl|l Hl|l Hl];
    destruct (literal_digits_head l Hl) as (d & r & E & Hd);
    destruct (literal_digits_last l Hl) as (d' & r' & E' & Hd');
    (split; [|cbn [rev]; rewrite ?E'; do 2 eexists;
               split; [reflexivity|by apply decimal_not_space]]).
  - exists d, r. split; [done|by apply decimal_not_space].
  - by eexists _, _.
  - by eexists _, _.
Qed.

(** [int] accepts the integer literals and reads each as the number it
    stands for. *)
Lemma int_literal l z :
  Py.int_signed (Py.strip_literal l) = Some z <-> integer_literal l z.
Proof.
  split.
  - intros H. destruct (strip_split l) as (before & after & E & Hb & Ha).
    exists before, (Py.strip_literal l), after.
    split; [done|]. split; [done|]. split; [done|].
    by apply int_signed_literal.
  - intros (before & body & after & -> & Hb & Ha & Hbody).
    destruct (signed_literal_ends _ _ Hbody)
      as [(c & r & E & Hc) (c' & r' & E' & Hc')].
    rewrite (strip_body before body after c r c' r') by done.
    by apply int_signed_literal.
Qed.

Lemma parse_id_literal field z :
  parse_id field = Some z <-> integer_literal (drop 2 (Py.chars field)) z.
Proof. rewrite parse_id_remainder. apply int_literal. Qed.


(** ** Reasoning in the [DB] monad *)






Lemma preserves_pure I {A} (m : DB A) :
  (forall c, (m c).2 = c) -> preserves I m.
Proof.
  intros Hm c a c' HI E. specialize (Hm c). rewrite E in Hm. by subst.
Qed.


Lemma preserves_value_error I {A} (o : option A) :
  preserves I (or_value_error o).
Proof. apply preserves_pure. by destruct o. Qed.





Lemma execute_update_ok f c t :
  aborted c = false -> f (current c) = Ret t ->
  execute (update f) c = (Ret tt, Connection (committed c) t false).
Proof. intros Ea Ef. unfold execute, update. by rewrite Ea, Ef. Qed.

Lemma execute_update_raise f c e :
  aborted c = false -> f (current c) = Raise e ->
  execute (update f) c
  = (Raise e, Connection (committed c) (current c) true).
Proof. intros Ea Ef. unfold execute, update. by rewrite Ea, Ef. Qed.

(** ** Identifiers *)








(** The remainders that the loaders reject although every character of
    them may stand in a literal. *)
Example no_literals :
  Forall (fun field => forall z, ~ integer_literal (drop 2 (Py.chars field)) z)
    ["tt"; "tt1__0"; "tt5 5"; "tt-"; "tt_1"; "tt1_"; "tt+-1"; "ttx12"].
Proof.
  repeat constructor; intros z Hz; apply parse_id_literal in Hz;
    vm_compute in Hz; discriminate.
Qed.


(** ** Numeric fields *)

Lemma execute_select_ok {A} (f : tables -> A) c :
  aborted c = false -> execute (select f) c = (Ret (f (current c)), c).
Proof. intros E. unfold execute, select. rewrite E. by destruct c; simplify_eq/=. Qed.

















(** ** The cleaning stage *)

Lemma delete_few_votes_raises t :
  delete_few_votes t = Raise (UndefinedColumn "num_ratings").
Proof. reflexivity. Qed.

(** What the first two statements leave of the tables. *)
Lemma clean_data_healthy c :
  aborted c = false ->
  exists t1 t2,
    delete_adult (current c) = Ret t1 /\ delete_title_types t1 = Ret t2
    /\ clean_data c = (Raise (UndefinedColumn "num_ratings"),
                       Connection (committed c) t2 true).
Proof.
  intros Ea. eexists _, _. split; [reflexivity|]. split; [reflexivity|].
  unfold clean_data, mbind, DB_bind.
  rewrite (execute_update_ok delete_adult c _ Ea eq_refl).
  erewrite (execute_update_ok delete_title_types); [|done|reflexivity].
  erewrite (execute_update_raise delete_few_votes);
    [|done|apply delete_few_votes_raises].
  reflexivity.
Qed.


(** C3. The vote-count statement names a column [num_ratings] that neither
    [movies] nor [ratings] has ([ratings] has [num_votes]): on every store
    the statement raises, the run of [clean_data] stops there, and nothing
    is deleted from the committed tables. *)
Theorem vote_rule_raises t :
  delete_few_votes t = Raise (UndefinedColumn "num_ratings")
  /\ (clean_data (fresh t)).1 = Raise (UndefinedColumn "num_ratings")
  /\ committed (clean_data (fresh t)).2 = t.
Proof.
  split; [reflexivity|].
  destruct (clean_data_healthy (fresh t) eq_refl) as (t1 & t2 & _ & _ & ->).
  split; reflexivity.
Qed.

(** The movie with 5 votes outlives a run of [clean_data]. *)
Example few_votes_survive :
  (load_and_clean one_title one_score two_names one_principal
     (fresh no_tables)).1 = Raise (UndefinedColumn "num_ratings")
  /\ num_votes <$> ratings (current (load_and_clean one_title one_score
                     two_names one_principal (fresh no_tables)).2)
     = [Some 5]
  /\ title <$> movies (current (load_and_clean one_title one_score
                 two_names one_principal (fresh no_tables)).2) !! 10
     = Some "Ten".
Proof. repeat split; vm_compute; reflexivity. Qed.


Lemma filter_keeps_movie (doomed : Z -> movie -> bool) t id m :
  movies t !! id = Some m -> doomed id m = false ->
  movies (delete_movies doomed t) !! id = Some m.
Proof.
  intros Hm Hd. unfold delete_movies. cbn [movies].
  apply map_lookup_filter_Some. by split.
Qed.

(** C10. The title-type statement never takes a movie whose title type is
    NULL: [NULL NOT IN (...)] is unknown, not true. *)
Theorem null_title_type_survives t id m :
  movies t !! id = Some m -> title_type m = None ->
  selected (sql_not_in (text_val (title_type m)) retained_title_types) = false
  /\ exists t', delete_title_types t = Ret t' /\ movies t' !! id = Some m.
Proof.
  intros Hm Hnull. rewrite Hnull. split; [reflexivity|].
  eexists. split; [reflexivity|].
  apply filter_keeps_movie; [done|]. by rewrite Hnull.
Qed.

Lemma null_title_type_survives_witness :
  exists t', delete_title_types untyped_store = Ret t'
             /\ movies t' !! 5 = Some untyped_movie.
Proof.
  apply (null_title_type_survives untyped_store 5 untyped_movie);
    reflexivity.
Defined.

(** A title type outside the retained set is taken. *)
Example other_title_type_deleted :
  delete_title_types
    (Tables {[ 5 := Movie "Ep" None (Some "tvEpisode") (Some 0) None None ]}
       [Rating 5 None (Some 100)] ∅ [])
  = Ret no_tables.
Proof. vm_compute. reflexivity. Qed.

(** C5 fails on the code: after the cycle Bob, who has no [stars] row, is
    still in [people], because [clean_data] stops at its third statement
    and never reaches the deletion of people without edges. *)
Theorem person_without_edge_remains :
  (load_and_clean one_title one_score two_names one_principal
     (fresh no_tables)).1 = Raise (UndefinedColumn "num_ratings")
  /\ name <$> people (current (load_and_clean one_title one_score
                two_names one_principal (fresh no_tables)).2) !! 2
     = Some "Bob"
  /\ List.filter (fun s => person_id s =? 2)
       (stars (current (load_and_clean one_title one_score two_names
                 one_principal (fresh no_tables)).2)) = [].
Proof. repeat split; vm_compute; reflexivity. Qed.

(** ** The person resolver *)

#[local] Instance length_le_total : Total length_le.
Proof. intros [x|] [y|]; simpl; auto. lia. Qed.

#[local] Instance length_le_trans : Transitive length_le.
Proof. intros [x|] [y|] [z|]; simpl; auto; try tauto. lia. Qed.

#[local] Instance by_known_for_length_total : Total by_known_for_length.
Proof. intros a b. apply length_le_total. Qed.

#[local] Instance by_known_for_length_trans : Transitive by_known_for_length.
Proof. intros a b c. apply length_le_trans. Qed.

Lemma StronglySorted_filter {A} (R : relation A) (f : A -> bool) l :
  StronglySorted R l -> StronglySorted R (List.filter f l).
Proof.
  induction 1 as [|x l Hl IH Hx]; simpl; [constructor|].
  destruct (f x); [|done]. constructor; [done|].
  apply List.Forall_forall. intros y Hy. apply filter_In in Hy as [Hy _].
  by apply (proj1 (List.Forall_forall _ _) Hx).
Qed.

Lemma StronglySorted_strengthen {A} (R S : relation A) (P : A -> Prop) l :
  (forall x y, P x -> P y -> R x y -> S x y) ->
  Forall P l -> StronglySorted R l -> StronglySorted S l.
Proof.
  intros HRS HP. induction 1 as [|x l Hl IH Hx]; [constructor|].
  apply Forall_cons in HP as [Px HP]. constructor; [auto|].
  apply Forall_forall. intros y Hy.
  apply HRS; [done| |].
  - by apply (proj1 (Forall_forall _ _) HP).
  - by apply (proj1 (List.Forall_forall _ _) Hx), list_elem_of_In.
Qed.

Lemma get_most_famous_returns t p :
  well_formed_known_for p ->
  exists famous_list, get_most_famous t (famous_movies p.2) = Ret famous_list.
Proof.
  intros Hwf. unfold get_most_famous.
  destruct (famous_movies p.2) as [text|] eqn:E; [|by eexists].
  destruct (String.eqb_spec text sentinel) as [->|Hs]; [by eexists|].
  destruct (Hwf text E Hs) as [ids ->]. by eexists.
Qed.

Lemma list_candidates_filter t result :
  Forall well_formed_known_for result ->
  exists shown, list_candidates t result = Ret shown
                /\ shown_person <$> shown = List.filter (displayed t) result.
Proof.
  induction 1 as [|p result Hp _ (shown & E & Hshown)]; [by exists []|].
  destruct (get_most_famous_returns t p Hp) as [fl Hfl].
  cbn [list_candidates List.filter]. unfold displayed. rewrite Hfl, E.
  cbn [mbind res_bind]. destruct (falsy fl); eexists; split; try reflexivity.
  - done.
  - cbn. by rewrite Hshown.
Qed.

Lemma displayed_known_for t p :
  displayed t p = true -> exists text, famous_movies p.2 = Some text.
Proof.
  unfold displayed, get_most_famous.
  destruct (famous_movies p.2); [eauto|discriminate].
Qed.

Lemma select_titles_none t ids :
  (forall id, id ∈ ids -> movies t !! id = None) -> select_titles t ids = [].
Proof.
  intros H. unfold select_titles.
  destruct (List.filter _ _) as [|[i m] l] eqn:E; [done|].
  assert (Hin : In (i, m) (List.filter (fun im => bool_decide (im.1 ∈ ids))
                             (map_to_list (movies t)))).
  { rewrite E. by left. }
  apply filter_In in Hin as [Hin Hid].
  apply list_elem_of_In, elem_of_map_to_list in Hin.
  apply bool_decide_eq_true in Hid. rewrite (H i Hid) in Hin. done.
Qed.

Lemma unresolved_not_displayed t p : ~ resolves t p.2 -> displayed t p = false.
Proof.
  intros Hno. unfold displayed, get_most_famous.
  destruct (famous_movies p.2) as [text|] eqn:E; [|done].
  destruct (String.eqb text sentinel); [done|].
  destruct (mapM parse_id (Py.split_comma text)) as [ids|] eqn:Eids; [|done].
  rewrite select_titles_none; [done|].
  intros id Hid. apply mapM_Some_1 in Eids.
  apply list_elem_of_lookup in Hid as [i Hi].
  destruct (Forall2_lookup_r _ _ _ _ _ Eids Hi) as (token & Htok & Hparse).
  destruct (movies t !! id) eqn:Em; [|done].
  destruct Hno. exists text, token, id. repeat split; try done.
  by apply list_elem_of_lookup_2 in Htok.
Qed.

Lemma search_people_ret regex_imatch t pattern result :
  search_people regex_imatch t pattern = Ret result ->
  exists matches,
    regex_imatch pattern = Some matches
    /\ result = merge_sort by_known_for_length
                  (List.filter (fun ip => matches (name ip.2))
                     (map_to_list (people t))).
Proof.
  unfold search_people. destruct (regex_imatch pattern) as [matches|];
    [|done]. intros [= <-]. by exists matches.
Qed.

Lemma search_people_elem regex_imatch t pattern matches result q :
  regex_imatch pattern = Some matches ->
  search_people regex_imatch t pattern = Ret result ->
  q ∈ result
  <-> people t !! q.1 = Some q.2 /\ matches (name q.2) = true.
Proof.
  intros Hm H. apply search_people_ret in H as (matches' & Hm' & ->).
  assert (matches' = matches) as -> by congruence.
  rewrite merge_sort_Permutation, !list_elem_of_In, filter_In,
    <- list_elem_of_In.
  destruct q as [id p]. by rewrite elem_of_map_to_list.
Qed.

Lemma search_people_rows regex_imatch t pattern result p :
  search_people regex_imatch t pattern = Ret result ->
  p ∈ result -> people t !! p.1 = Some p.2.
Proof.
  intros H Hin. destruct (search_people_ret _ _ _ _ H) as (matches & Hm & Hr).
  by destruct (proj1 (search_people_elem _ _ _ _ _ _ Hm H) Hin) as [? _].
Qed.

Lemma search_people_sorted regex_imatch t pattern result :
  search_people regex_imatch t pattern = Ret result ->
  StronglySorted by_known_for_length result.
Proof.
  intros (matches & _ & ->)%search_people_ret.
  apply StronglySorted_merge_sort; apply _.
Qed.

Lemma bool_filter_sublist {A} (f : A -> bool) l : List.filter f l `sublist_of` l.
Proof.
  induction l as [|x l IH]; simpl; [constructor|].
  destruct (f x); by constructor.
Qed.

Lemma search_people_NoDup regex_imatch t pattern result :
  search_people regex_imatch t pattern = Ret result -> NoDup result.
Proof.
  intros (matches & _ & ->)%search_people_ret.
  rewrite merge_sort_Permutation.
  eapply sublist_NoDup; [apply NoDup_map_to_list|].
  apply bool_filter_sublist.
Qed.

(** What [get_most_famous] returns, by the titles of the stored known-for
    movies. *)
Lemma get_most_famous_titles t p :
  well_formed_known_for p ->
  exists famous_list,
    get_most_famous t (famous_movies p.2) = Ret famous_list
    /\ (if falsy famous_list then None
        else Some (Candidate p (default ""%string famous_list)))
       = candidate_of t p.
Proof.
  intros Hwf. unfold get_most_famous, candidate_of, known_titles.
  destruct (famous_movies p.2) as [text|] eqn:E; [|by eexists].
  destruct (String.eqb_spec text sentinel) as [->|Hs]; [by eexists|].
  destruct (Hwf text E Hs) as [ids Hids]. cbn. rewrite Hids. cbn.
  eexists. split; [reflexivity|]. cbn.
  destruct (select_titles t ids) as [|x l] eqn:El; [done|].
  by destruct (Py.join_comma (x :: l)).
Qed.

Lemma list_candidates_exact t result :
  Forall well_formed_known_for result ->
  list_candidates t result = Ret (omap (candidate_of t) result).
Proof.
  induction 1 as [|p result Hp _ IH]; [done|].
  destruct (get_most_famous_titles t p Hp) as (fl & Hfl & Hc).
  cbn [list_candidates]. rewrite Hfl, IH. cbn [mbind res_bind omap list_omap].
  rewrite <- Hc. by destruct (falsy fl).
Qed.

Lemma join_comma_empty l :
  Py.join_comma l = ""%string -> l = [] \/ l = [""%string].
Proof.
  destruct l as [|x [|y l]]; cbn; [by left|intros ->; by right|].
  intros H. destruct x; discriminate.
Qed.

Lemma select_titles_elem t ids id m :
  id ∈ ids -> movies t !! id = Some m -> title m ∈ select_titles t ids.
Proof.
  intros Hid Hm. unfold select_titles. apply list_elem_of_fmap.
  exists (id, m). split; [done|].
  apply list_elem_of_In, filter_In. split.
  - by apply list_elem_of_In, elem_of_map_to_list.
  - by apply bool_decide_eq_true.
Qed.

Lemma candidate_of_person t p c :
  candidate_of t p = Some c -> shown_person c = p.
Proof.
  unfold candidate_of. destruct (known_titles t p.2) as [titles|]; [|done].
  cbn. destruct (String.eqb _ _); [done|]. by intros [= <-].
Qed.

(** A match is printed when one of its known-for ids is a stored movie
    with a title that is not empty. *)
Lemma resolved_candidate t p text token id m :
  well_formed_known_for p ->
  famous_movies p.2 = Some text -> token ∈ Py.split_comma text ->
  parse_id token = Some id -> movies t !! id = Some m ->
  title m <> ""%string ->
  is_Some (candidate_of t p).
Proof.
  intros Hwf Htext Htoken Hid Hm Htitle.
  unfold candidate_of, known_titles. rewrite Htext. cbn.
  assert (Hs : text <> sentinel).
  { intros ->. cbn in Htoken. apply list_elem_of_singleton in Htoken.
    subst token. done. }
  destruct (Hwf text Htext Hs) as [ids Hids]. rewrite Hids. cbn.
  assert (Hin : id ∈ ids).
  { apply mapM_Some_1 in Hids.
    apply list_elem_of_lookup in Htoken as [i Hi].
    destruct (Forall2_lookup_l _ _ _ _ _ Hids Hi) as (id' & Hid' & Hp').
    apply list_elem_of_lookup. exists i. congruence. }
  pose proof (select_titles_elem t ids id m Hin Hm) as Htitles.
  destruct (String.eqb_spec (Py.join_comma (select_titles t ids)) "")
    as [E|_]; [|by eexists].
  apply join_comma_empty in E as [E|E]; rewrite E in Htitles.
  - by apply elem_of_nil in Htitles.
  - by apply list_elem_of_singleton in Htitles.
Qed.

Lemma unresolved_no_candidate t p :
  ~ resolves t p.2 -> candidate_of t p = None.
Proof.
  intros Hno. unfold candidate_of, known_titles.
  destruct (famous_movies p.2) as [text|] eqn:E; [|done]. cbn.
  destruct (mapM parse_id (Py.split_comma text)) as [ids|] eqn:Eids; [|done].
  cbn. rewrite select_titles_none; [done|].
  intros id Hid. apply mapM_Some_1 in Eids.
  apply list_elem_of_lookup in Hid as [i Hi].
  destruct (Forall2_lookup_r _ _ _ _ _ Eids Hi) as (token & Htok & Hparse).
  destruct (movies t !! id) eqn:Em; [|done].
  destruct Hno. exists text, token, id. repeat split; try done.
  by apply list_elem_of_lookup_2 in Htok.
Qed.

Lemma check_name_found regex_imatch t input_name p shown :
  check_name regex_imatch t input_name = Ret (Some p, shown) ->
  search_people regex_imatch t
    ("(?:^|\s)" ++ Py.strip input_name ++ "(?:$|\s)")%string = Ret [p]
  /\ shown = [].
Proof.
  unfold check_name.
  destruct (search_people _ _ _) as [[|a [|b rest]]|e];
    cbn [mbind res_bind]; try done.
  - intros H. by simplify_eq.
  - destruct (list_candidates _ _); cbn [mbind res_bind]; intros H;
      by simplify_eq.
Qed.

Lemma NoDup_all_equal {A} (p : A) l :
  NoDup l -> p ∈ l -> (forall q, q ∈ l -> q = p) -> l = [p].
Proof.
  intros Hnd Hin Hall. destruct l as [|a [|b l]].
  - by apply elem_of_nil in Hin.
  - by rewrite (Hall a) by left.
  - assert (a = p) as -> by (apply Hall; left).
    assert (b = p) as -> by (apply Hall; right; left).
    apply NoDup_cons in Hnd as [Hnd _]. destruct Hnd. left.
Qed.

(** A name that matches two stored persons selects nobody. *)
Lemma shared_name_selects_nobody regex_imatch t input_name matches p q :
  regex_imatch ("(?:^|\s)" ++ Py.strip input_name ++ "(?:$|\s)")%string
  = Some matches ->
  people t !! p.1 = Some p.2 -> people t !! q.1 = Some q.2 -> p <> q ->
  matches (name p.2) = true -> matches (name q.2) = true ->
  forall r shown, check_name regex_imatch t input_name <> Ret (Some r, shown).
Proof.
  intros Hm Hp Hq Hne Hmp Hmq r shown H.
  apply check_name_found in H as [H _].
  assert (Hpr : p ∈ [r])
    by (apply (search_people_elem _ _ _ _ _ _ Hm H); by split).
  assert (Hqr : q ∈ [r])
    by (apply (search_people_elem _ _ _ _ _ _ Hm H); by split).
  apply list_elem_of_singleton in Hpr, Hqr. congruence.
Qed.

(** C6 (amended). When the name query has several rows, [check_name]
    returns nobody. The rows come ordered by the length of the known-for
    text, NULL last. The printed candidates are, in that order, exactly
    the rows whose known-for titles give a text that is not empty, each
    with that text: a row none of whose known-for titles is a stored movie
    is in the result but not printed, and a row with a stored known-for
    movie of a title that is not empty is printed. Every row is returned
    by [check_for_id] for its id. By name a person is returned only for an
    input that matches no other stored person. *)
Theorem ambiguous_candidates regex_imatch t input_name result :
  search_people regex_imatch t
    ("(?:^|\s)" ++ Py.strip input_name ++ "(?:$|\s)")%string = Ret result ->
  (1 < length result)%nat ->
  Forall well_formed_known_for result ->
  StronglySorted by_known_for_length result
  /\ (exists shown,
        check_name regex_imatch t input_name = Ret (None, shown)
        /\ shown = omap (candidate_of t) result
        /\ StronglySorted known_for_shorter (shown_person <$> shown)
        /\ (shown_person <$> shown) `sublist_of` result
        /\ (forall p, p ∈ result -> ~ resolves t p.2 ->
              (p ∉ shown_person <$> shown)
              /\ forall s, Py.int s = Some p.1 -> check_for_id t s = Some p)
        /\ (forall p text token id m,
              p ∈ result -> famous_movies p.2 = Some text ->
              token ∈ Py.split_comma text -> parse_id token = Some id ->
              movies t !! id = Some m -> title m <> ""%string ->
              p ∈ shown_person <$> shown))
  /\ (forall p s, p ∈ result -> Py.int s = Some p.1 ->
                  check_for_id t s = Some p)
  /\ (forall p other matches,
        regex_imatch ("(?:^|\s)" ++ Py.strip other ++ "(?:$|\s)")%string
        = Some matches ->
        (exists shown,
            check_name regex_imatch t other = Ret (Some p, shown))
        <-> people t !! p.1 = Some p.2 /\ matches (name p.2) = true
            /\ forall q, people t !! q.1 = Some q.2 ->
                         matches (name q.2) = true -> q = p).
Proof.
  intros Hres Hlen Hwf.
  assert (Hid : forall p s, p ∈ result -> Py.int s = Some p.1 ->
                            check_for_id t s = Some p).
  { intros p s Hp Hs. unfold check_for_id. rewrite Hs. cbn.
    rewrite (search_people_rows _ _ _ _ _ Hres Hp). cbn. by destruct p. }
  split; [by apply (search_people_sorted _ _ _ _ Hres)|].
  split; [|split; [exact Hid|]].
  - destruct (list_candidates_filter t result Hwf) as (shown & E & Hshown).
    pose proof (list_candidates_exact t result Hwf) as Hexact.
    rewrite E in Hexact. injection Hexact as Hexact.
    exists shown. split; [|split; [done|split; [|split; [|split]]]].
    + unfold check_name. rewrite Hres. cbn [mbind res_bind].
      destruct result as [|a [|b rest]]; simpl in Hlen; [lia|lia|].
      rewrite E. reflexivity.
    + rewrite Hshown.
      apply (StronglySorted_strengthen by_known_for_length known_for_shorter
               (fun p => exists text, famous_movies p.2 = Some text)).
      * intros x y [tx Hx] [ty Hy]. unfold by_known_for_length,
          known_for_length, known_for_shorter. by rewrite Hx, Hy.
      * apply Forall_forall. intros p Hp.
        apply list_elem_of_In, filter_In in Hp as [_ Hp].
        by apply displayed_known_for in Hp.
      * apply StronglySorted_filter.
        by apply (search_people_sorted _ _ _ _ Hres).
    + rewrite Hshown. apply bool_filter_sublist.
    + intros p Hp Hno. split; [|intros s Hs; by apply Hid].
      rewrite Hshown. intros Hin.
      apply list_elem_of_In, filter_In in Hin as [_ Hd].
      by rewrite (unresolved_not_displayed t p Hno) in Hd.
    + intros p text token id m Hp Htext Htoken Hparse Hm Htitle.
      rewrite Forall_forall in Hwf.
      destruct (resolved_candidate t p text token id m (Hwf p Hp) Htext
                  Htoken Hparse Hm Htitle) as [c Hc].
      apply list_elem_of_fmap. exists c.
      split; [by rewrite (candidate_of_person _ _ _ Hc)|].
      rewrite Hexact. apply list_elem_of_omap. by exists p.
  - intros p other matches Hm. split.
    + intros [shown H]. apply check_name_found in H as [H _].
      assert (Hp : p ∈ [p]) by left.
      destruct (proj1 (search_people_elem _ _ _ _ _ _ Hm H) Hp) as [Hp' Hmp].
      split; [done|]. split; [done|]. intros q Hq Hmq.
      assert (Hin : q ∈ [p])
        by (apply (search_people_elem _ _ _ _ _ _ Hm H); by split).
      by apply list_elem_of_singleton in Hin.
    + intros (Hp & Hmp & Hall). exists [].
      destruct (search_people regex_imatch t
                  ("(?:^|\s)" ++ Py.strip other ++ "(?:$|\s)")%string)
        as [found|e] eqn:Hs;
        [|unfold search_people in Hs; by rewrite Hm in Hs].
      assert (found = [p]) as ->.
      { apply NoDup_all_equal.
        - by apply (search_people_NoDup _ _ _ _ Hs).
        - apply (search_people_elem _ _ _ _ _ _ Hm Hs). by split.
        - intros q Hq.
          destruct (proj1 (search_people_elem _ _ _ _ _ _ Hm Hs) Hq)
            as [? ?].
          by apply Hall. }
      unfold check_name. by rewrite Hs.
Qed.

Lemma ambiguous_candidates_witness :
  exists shown,
    check_name word_match namesakes " lee " = Ret (None, shown)
    /\ shown_person <$> shown
       = [(2, Person "Ann Lee" (Some 1950) None (Some "tt10,tt20"));
          (3, Person "Ann Lee" None None
                (Some "tt10,tt20,tt30,tt40,tt50"))].
Proof.
  destruct (ambiguous_candidates word_match namesakes " lee "
              [(2, Person "Ann Lee" (Some 1950) None (Some "tt10,tt20"));
               (3, Person "Ann Lee" None None
                     (Some "tt10,tt20,tt30,tt40,tt50"));
               (1, Person "Ann Lee" None None None)])
    as (_ & (shown & E & Hshown & _) & _).
  - vm_compute. reflexivity.
  - cbn. lia.
  - repeat constructor; intros text E Hs; vm_compute in E; simplify_eq;
      vm_compute; eauto.
  - exists shown. split; [done|]. rewrite Hshown. vm_compute. reflexivity.
Defined.

(** C6 as stated fails for namesakes: the person without known-for titles
    is in the match set of "lee" and is not printed, and the full name
    "Ann Lee", which the three share, returns nobody; the id does. *)
Lemma full_name_not_selectable :
  (exists result,
      search_people word_match namesakes "(?:^|\s)lee(?:$|\s)" = Ret result
      /\ (1, Person "Ann Lee" None None None) ∈ result)
  /\ (exists shown,
        check_name word_match namesakes "Ann Lee" = Ret (None, shown)
        /\ (1, Person "Ann Lee" None None None) ∉ shown_person <$> shown)
  /\ check_for_id namesakes "Ann Lee" = None
  /\ check_for_id namesakes "1" = Some (1, Person "Ann Lee" None None None).
Proof.
  split; [|split; [|split]].
  - eexists. split; [vm_compute; reflexivity|]. right. right. left.
  - eexists. split; [vm_compute; reflexivity|].
    cbn. intros Hin.
    repeat (apply elem_of_cons in Hin as [Hin|Hin]; [discriminate|]).
    by apply elem_of_nil in Hin.
  - vm_compute. reflexivity.
  - vm_compute. reflexivity.
Qed.

(** The fixture of the specification: known-for lists of no, two and five
    titles. The result holds all three, the NULL one last; the printed
    list holds the two-title person before the five-title one. *)
Example namesakes_listing :
  (result ← search_people word_match namesakes "(?:^|\s)lee(?:$|\s)";
   Ret (List.map fst result))
  = Ret [2; 3; 1]
  /\ check_name word_match namesakes " lee "
     = Ret (None,
            [Candidate (2, Person "Ann Lee" (Some 1950) None (Some "tt10,tt20"))
               "Ten";
             Candidate (3, Person "Ann Lee" None None
                             (Some "tt10,tt20,tt30,tt40,tt50"))
               "Fifty, Ten"])
  /\ check_for_id namesakes "1" = Some (1, Person "Ann Lee" None None None).
Proof. repeat split; vm_compute; reflexivity. Qed.

(** ** The path resolver *)

Local Open Scope list_scope.

Section PathFacts.

Variable contacts_of : Z -> list Z.
Variables start target : Z.

#[local] Abbreviation adjacent := (fun x y : Z => y ∈ contacts_of x).
#[local] Abbreviation walk := (walk_back adjacent start).
#[local] Abbreviation reaches := (reach adjacent start).
#[local] Abbreviation inv := (invariant contacts_of start target).
#[local] Abbreviation loop := (solve_loop contacts_of target).

Lemma walk_back_reach l :
  walk l -> forall u p, l = u :: p -> reaches (length p) u.
Proof.
  induction 1 as [|v u p Hw IH Hadj]; intros x q E; simplify_eq/=.
  - constructor.
  - econstructor; [|exact Hadj]. by apply IH.
Qed.

Lemma walk_back_last l : walk l -> last l = Some start.
Proof. induction 1 as [|v u p Hw IH Hadj]; [done|]. by rewrite last_cons_cons. Qed.

Lemma levels_head cur path q :
  levels ((cur, path) :: q) ->
  (forall u p, (u, p) ∈ (cur, path) :: q -> (length path <= length p)%nat)
  /\ levels q
  /\ (forall new, Forall (fun e => length e.2 = S (length path)) new ->
                  levels (q ++ new)).
Proof.
  intros (k & q1 & q2 & E & H1 & H2).
  destruct q1 as [|e q1].
  - simpl in E. subst q2. apply Forall_cons in H2 as [Hh H2]. simpl in Hh.
    split; [|split].
    + intros u p Hin. apply elem_of_cons in Hin as [Hin|Hin]; [by simplify_eq|].
      rewrite Forall_forall in H2. specialize (H2 _ Hin). simpl in H2. lia.
    + exists (S k), q, []. rewrite app_nil_r. split; [done|]. split; [done|constructor].
    + intros new Hnew. exists (S k), q, new. rewrite Hh in Hnew. by repeat split.
  - simpl in E. simplify_eq. apply Forall_cons in H1 as [Hh H1]. simpl in Hh.
    subst k. split; [|split].
    + intros u p Hin. apply elem_of_cons in Hin as [Hin|Hin]; [by simplify_eq|].
      apply elem_of_app in Hin as [Hin|Hin].
      * rewrite Forall_forall in H1. specialize (H1 _ Hin). simpl in H1. lia.
      * rewrite Forall_forall in H2. specialize (H2 _ Hin). simpl in H2. lia.
    + by exists (length path), q1, q2.
    + intros new Hnew. exists (length path), q1, (q2 ++ new).
      rewrite app_assoc. repeat split; [done|]. by apply Forall_app.
Qed.

(** Every node within the level of the head of the queue has been visited
    or waits in the queue at its distance. *)
Lemma covered queue visited n v :
  inv queue visited -> reaches n v ->
  (forall u p, (u, p) ∈ queue -> (n <= length p)%nat) ->
  v ∈ visited \/ exists p, (v, p) ∈ queue /\ (length p <= n)%nat.
Proof.
  intros Hinv Hreach. induction Hreach as [|n u v Hu IH Hadj]; intros Hlow.
  - destruct (inv_start _ _ _ _ _ Hinv) as [?|?]; [by left|].
    right. exists []. by split.
  - destruct IH as [Hvis|(p & Hin & Hlen)].
    + intros x p Hin. specialize (Hlow x p Hin). lia.
    + by apply (inv_succ _ _ _ _ _ Hinv u n v).
    + specialize (Hlow u p Hin). lia.
Qed.

Lemma inv_init : inv [(start, [])] ∅.
Proof.
  split.
  - intros u p Hin. apply list_elem_of_singleton in Hin. simplify_eq. constructor.
  - exists 0%nat, [(start, [])], []. repeat split; by repeat constructor.
  - set_solver.
  - right. left.
  - set_solver.
Qed.

Lemma inv_skip cur path queue visited :
  inv ((cur, path) :: queue) visited -> cur ∈ visited -> inv queue visited.
Proof.
  intros [Hwalk Hlev Htgt Hstart Hsucc] Hcur. split.
  - intros u p Hin. apply Hwalk. by right.
  - by apply levels_head in Hlev as (_ & ? & _).
  - done.
  - destruct Hstart as [?|Hin]; [by left|].
    apply elem_of_cons in Hin as [?|?]; [left; by simplify_eq|by right].
  - intros u n c Hu Hn Hc.
    destruct (Hsucc u n c Hu Hn Hc) as [?|(p & Hin & Hlen)]; [by left|].
    apply elem_of_cons in Hin as [?|?]; [left; by simplify_eq|].
    right. by exists p.
Qed.

Lemma inv_visit cur path queue visited :
  inv ((cur, path) :: queue) visited -> cur ∉ visited ->
  target ∉ contacts_of cur ->
  inv (queue ++ ((fun contact => (contact, cur :: path))
                   <$> filter (fun contact => contact ∉ {[cur]} ∪ visited)
                         (contacts_of cur)))
      ({[cur]} ∪ visited).
Proof.
  intros Hinv Hcur Htarget.
  pose proof Hinv as [Hwalk Hlev Htgt Hstart Hsucc].
  destruct (levels_head _ _ _ Hlev) as (Hmin & _ & Hnew).
  split.
  - intros u p Hin. apply elem_of_app in Hin as [Hin|Hin].
    + apply Hwalk. by right.
    + apply list_elem_of_fmap in Hin as (c & E & Hc). simplify_eq.
      apply list_elem_of_filter in Hc as [_ Hc].
      constructor; [|done]. apply Hwalk. left.
  - apply Hnew. apply Forall_fmap, Forall_forall. by intros c _.
  - intros v Hv. apply elem_of_union in Hv as [Hv|Hv]; [|by apply Htgt].
    apply elem_of_singleton in Hv. by subst.
  - destruct Hstart as [?|Hin]; [left; set_solver|].
    apply elem_of_cons in Hin as [?|?].
    + left. simplify_eq. set_solver.
    + right. apply elem_of_app. by left.
  - intros u n c Hu Hn Hc.
    destruct (decide (c ∈ {[cur]} ∪ visited)) as [?|Hnew_c]; [by left|].
    right. apply elem_of_union in Hu as [Hu|Hu].
    + apply elem_of_singleton in Hu. subst u.
      exists (cur :: path). split.
      * apply elem_of_app. right. apply list_elem_of_fmap.
        exists c. split; [done|]. by apply list_elem_of_filter.
      * simpl. apply le_n_S.
        destruct (Nat.le_gt_cases (length path) n) as [?|Hlt]; [done|].
        destruct (covered _ _ n cur Hinv Hn) as [?|(p & Hin & Hlen)]; [|done|].
        -- intros x p Hin. specialize (Hmin x p Hin). lia.
        -- specialize (Hmin cur p Hin). lia.
    + destruct (Hsucc u n c Hu Hn Hc) as [?|(p & Hin & Hlen)];
        [destruct Hnew_c; apply elem_of_union; by right|].
      apply elem_of_cons in Hin as [?|?].
      { simplify_eq. destruct Hnew_c. apply elem_of_union. left.
        by apply elem_of_singleton. }
      exists p. split; [|done]. apply elem_of_app. by left.
Qed.

(** When the target is found among the contacts of the head of the queue,
    no walk of at least one hop reaches it in fewer hops. *)
Lemma found_minimal cur path queue visited n :
  inv ((cur, path) :: queue) visited -> cur ∉ visited ->
  reaches (S n) target -> (length path <= n)%nat.
Proof.
  intros Hinv Hcur Hreach. inversion Hreach as [|n' u v Hu Hadj]; subst.
  destruct (Nat.le_gt_cases (length path) n) as [?|Hlt]; [done|].
  destruct (levels_head _ _ _ (inv_levels _ _ _ _ _ Hinv)) as (Hmin & _ & _).
  destruct (covered _ _ n u Hinv Hu) as [Hvis|(p & Hin & Hlen)].
  - intros x p Hin. specialize (Hmin x p Hin). lia.
  - by destruct (inv_target _ _ _ _ _ Hinv u Hvis).
  - specialize (Hmin u p Hin). lia.
Qed.

(** *** What the loop returns *)

Lemma loop_outcomes remaining queue visited :
  (exists path, loop remaining queue visited = Ret (Some path))
  \/ loop remaining queue visited = Ret None
  \/ loop remaining queue visited = Raise (SystemExit exit_message).
Proof.
  revert queue visited.
  induction remaining as [|remaining IH]; intros [|[cur path] queue] visited;
    simpl; auto.
  destruct (decide (cur ∈ visited)); [apply IH|].
  destruct (decide (target ∈ contacts_of cur)); [left; eauto|apply IH].
Qed.

Lemma loop_found remaining queue visited result :
  inv queue visited -> loop remaining queue visited = Ret (Some result) ->
  exists path,
    result = target :: path /\ path <> [] /\ walk (target :: path)
    /\ forall n, reaches (S n) target -> (length path <= S n)%nat.
Proof.
  revert queue visited.
  induction remaining as [|remaining IH]; intros [|[cur path] queue] visited;
    simpl; try discriminate.
  intros Hinv. destruct (decide (cur ∈ visited)) as [Hcur|Hcur].
  { apply IH. by apply inv_skip with cur path. }
  destruct (decide (target ∈ contacts_of cur)) as [Htarget|Htarget].
  - intros E. simplify_eq. exists (cur :: path). repeat split; [done| |].
    + constructor; [|done]. apply (inv_walk _ _ _ _ _ Hinv). left.
    + intros n Hn. simpl. apply le_n_S. by apply found_minimal with cur queue visited.
  - apply IH. by apply inv_visit.
Qed.

Lemma loop_no_path remaining queue visited :
  inv queue visited -> loop remaining queue visited = Ret None ->
  forall n, ~ reaches (S n) target.
Proof.
  revert queue visited.
  induction remaining as [|remaining IH]; intros [|[cur path] queue] visited;
    simpl; try discriminate.
  1, 2: intros Hinv _ n Hreach;
    inversion Hreach as [|n' u v Hu Hadj]; subst;
    destruct (covered [] visited n u Hinv Hu) as [Hvis|(p & Hin & _)];
    [intros ? ? Hin; by apply elem_of_nil in Hin
    |by destruct (inv_target _ _ _ _ _ Hinv u Hvis)
    |by apply elem_of_nil in Hin].
  intros Hinv. destruct (decide (cur ∈ visited)) as [Hcur|Hcur].
  { apply IH. by apply inv_skip with cur path. }
  destruct (decide (target ∈ contacts_of cur)) as [Htarget|Htarget];
    [discriminate|].
  apply IH. by apply inv_visit.
Qed.

Lemma length_without {A} `{EqDecision A} (x : A) l :
  NoDup l -> (length l <= S (length (filter (fun y => y <> x) l)))%nat.
Proof.
  induction 1 as [|y l Hy Hl IH]; simpl; [lia|].
  destruct (decide (y = x)) as [->|Hne].
  - rewrite filter_cons_False by (intros ?; done).
    assert (E : filter (fun y => y <> x) l = l); [|by rewrite E].
    clear IH Hl. induction l as [|z l IH]; [done|].
    apply not_elem_of_cons in Hy as [Hz Hy].
    rewrite filter_cons_True by done. by rewrite IH.
  - rewrite filter_cons_True by done. simpl. lia.
Qed.

(** A search that ends with "no path" has dequeued every node that can be
    reached and was not visited before. *)
Lemma loop_exhausts remaining queue visited component :
  inv queue visited -> loop remaining queue visited = Ret None ->
  NoDup component ->
  (forall v, v ∈ component -> (exists n, reaches n v) /\ v ∉ visited) ->
  (length component <= remaining)%nat.
Proof.
  revert queue visited component.
  induction remaining as [|remaining IH];
    intros [|[cur path] queue] visited component; simpl; try discriminate.
  1, 2: intros Hinv _ _ Hall; destruct component as [|v component]; [simpl; lia|];
    destruct (Hall v) as [[n Hn] Hv]; [left|];
    destruct (covered [] visited n v Hinv Hn) as [?|(p & Hin & _)];
    [intros ? ? Hin; by apply elem_of_nil in Hin|done
    |by apply elem_of_nil in Hin].
  intros Hinv. destruct (decide (cur ∈ visited)) as [Hcur|Hcur].
  { intros E Hnd Hall.
    specialize (IH queue visited component (inv_skip _ _ _ _ Hinv Hcur)
                  E Hnd Hall). lia. }
  destruct (decide (target ∈ contacts_of cur)) as [Htarget|Htarget];
    [discriminate|].
  intros E Hnd Hall.
  pose proof (length_without cur component Hnd) as Hlen.
  specialize (IH _ _ (filter (fun y => y <> cur) component)
                (inv_visit _ _ _ _ Hinv Hcur Htarget) E).
  assert ((length (filter (fun y => y <> cur) component) <= remaining)%nat);
    [|lia].
  apply IH; [by apply NoDup_filter|].
  intros v Hv. apply list_elem_of_filter in Hv as [Hne Hv].
  destruct (Hall v Hv) as [Hreach Hnew]. split; [done|].
  intros Hin. apply elem_of_union in Hin as [Hin|Hin]; [|done].
  by apply elem_of_singleton in Hin.
Qed.

(** *** The ceiling *)

Lemma cost_mono l (visited visited' : gset Z) :
  visited ⊆ visited' ->
  (cost contacts_of l visited' <= cost contacts_of l visited)%nat.
Proof.
  intros Hsub. induction l as [|x l IH]; simpl; [lia|].
  destruct (decide (x ∈ visited')) as [|Hx];
    destruct (decide (x ∈ visited)); try lia.
  destruct Hx. by apply Hsub.
Qed.

Lemma cost_visit l cur (visited : gset Z) :
  cur ∈ l -> cur ∉ visited ->
  (S (length (contacts_of cur)) + cost contacts_of l ({[cur]} ∪ visited)
   <= cost contacts_of l visited)%nat.
Proof.
  intros Hin Hcur. induction l as [|x l IH]; [by apply elem_of_nil in Hin|].
  assert (Hsub : visited ⊆ {[cur]} ∪ visited) by (apply union_subseteq_r).
  pose proof (cost_mono l _ _ Hsub) as Hmono.
  simpl.
  destruct (decide (x = cur)) as [->|Hne].
  - destruct (decide (cur ∈ {[cur]} ∪ visited)) as [_|Hn];
      [|destruct Hn; apply elem_of_union; left; by apply elem_of_singleton].
    destruct (decide (cur ∈ visited)); [done|]. lia.
  - apply elem_of_cons in Hin as [?|Hin]; [congruence|].
    specialize (IH Hin).
    destruct (decide (x ∈ {[cur]} ∪ visited)) as [Hx|Hx];
      destruct (decide (x ∈ visited)) as [Hx'|Hx']; try lia.
    destruct Hx. apply elem_of_union. by right.
Qed.

Lemma loop_within_budget universe remaining queue visited :
  (forall u c, c ∈ contacts_of u -> c ∈ universe) ->
  Forall (fun e => e.1 ∈ universe) queue ->
  (length queue + cost contacts_of universe visited <= remaining)%nat ->
  forall e, loop remaining queue visited <> Raise e.
Proof.
  intros Hclosed. revert queue visited.
  induction remaining as [|remaining IH]; intros [|[cur path] queue] visited;
    simpl; try discriminate; try lia.
  intros Hq Hfuel. apply Forall_cons in Hq as [Hcur_in Hq]. simpl in Hcur_in.
  destruct (decide (cur ∈ visited)) as [Hcur|Hcur].
  { apply IH; [done|lia]. }
  destruct (decide (target ∈ contacts_of cur)); [discriminate|].
  pose proof (cost_visit universe cur visited Hcur_in Hcur) as Hcost.
  apply IH.
  - apply Forall_app. split; [done|].
    apply Forall_fmap, Forall_forall. intros c Hc. simpl.
    apply list_elem_of_filter in Hc as [_ Hc]. by apply Hclosed with cur.
  - rewrite length_app, length_fmap.
    pose proof (length_filter (fun contact => contact ∉ {[cur]} ∪ visited)
                  (contacts_of cur)). lia.
Qed.

(** *** The three outcomes *)

(** With the target within reach and an adequate ceiling, the search
    returns a shortest walk, target first. *)
Lemma solve_from_found universe max_nodes n :
  (forall u c, c ∈ contacts_of u -> c ∈ universe) ->
  start ∈ universe ->
  (S (cost contacts_of universe ∅) <= Z.to_nat max_nodes)%nat ->
  reaches (S n) target ->
  exists path,
    solve_from contacts_of target start max_nodes = Ret (Some (target :: path))
    /\ path <> [] /\ walk (target :: path)
    /\ forall m, reaches (S m) target -> (length path <= S m)%nat.
Proof.
  intros Hclosed Hstart Hfuel Hreach. unfold solve_from.
  destruct (loop_outcomes (Z.to_nat max_nodes) [(start, [])] ∅)
    as [[result E]|[E|E]].
  - destruct (loop_found _ _ _ _ inv_init E) as (path & -> & Hrest).
    by exists path.
  - by destruct (loop_no_path _ _ _ inv_init E n).
  - exfalso. eapply loop_within_budget; [exact Hclosed| | |exact E].
    + by repeat constructor.
    + simpl. lia.
Qed.

(** With the target out of reach, an adequate ceiling gives "no path". *)
Lemma solve_from_no_path universe max_nodes :
  (forall u c, c ∈ contacts_of u -> c ∈ universe) ->
  start ∈ universe ->
  (S (cost contacts_of universe ∅) <= Z.to_nat max_nodes)%nat ->
  (forall n, ~ reaches (S n) target) ->
  solve_from contacts_of target start max_nodes = Ret None.
Proof.
  intros Hclosed Hstart Hfuel Hno. unfold solve_from.
  destruct (loop_outcomes (Z.to_nat max_nodes) [(start, [])] ∅)
    as [[result E]|[E|E]]; [| done |].
  - destruct (loop_found _ _ _ _ inv_init E) as (path & -> & Hne & Hwalk & _).
    destruct path as [|u p]; [done|].
    destruct (Hno (length p)).
    by apply (walk_back_reach _ Hwalk target (u :: p)).
  - exfalso. eapply loop_within_budget; [exact Hclosed| | |exact E].
    + by repeat constructor.
    + simpl. lia.
Qed.

(** With the target out of reach and a ceiling below the number of nodes
    within reach of the start, the search exits. *)
Lemma solve_from_exits max_nodes component :
  (forall n, ~ reaches (S n) target) ->
  NoDup component -> (forall v, v ∈ component -> exists n, reaches n v) ->
  (Z.to_nat max_nodes < length component)%nat ->
  solve_from contacts_of target start max_nodes
  = Raise (SystemExit exit_message).
Proof.
  intros Hno Hnd Hall Hlow. unfold solve_from.
  destruct (loop_outcomes (Z.to_nat max_nodes) [(start, [])] ∅)
    as [[result E]|[E|E]]; [| |done].
  - destruct (loop_found _ _ _ _ inv_init E) as (path & -> & Hne & Hwalk & _).
    destruct path as [|u p]; [done|].
    destruct (Hno (length p)).
    by apply (walk_back_reach _ Hwalk target (u :: p)).
  - pose proof (loop_exhausts _ _ _ component inv_init E Hnd) as Hlen.
    assert ((length component <= Z.to_nat max_nodes)%nat); [|lia].
    apply Hlen. intros v Hv. split; [by apply Hall|]. apply not_elem_of_empty.
Qed.

Lemma reach_walk_back n v :
  reaches n v -> exists p, walk (v :: p) /\ length p = n.
Proof.
  induction 1 as [|n u v Hu (p & Hw & Hlen) Hadj].
  - exists []. split; [constructor|done].
  - exists (u :: p). split; [by constructor|]. simpl. by rewrite Hlen.
Qed.

(** A returned result does not depend on the ceiling. *)
Lemma loop_more_fuel remaining extra queue visited r :
  loop remaining queue visited = Ret r ->
  loop (remaining + extra) queue visited = Ret r.
Proof.
  revert queue visited.
  induction remaining as [|remaining IH]; intros [|[cur path] queue] visited;
    simpl; try discriminate.
  - by destruct extra.
  - done.
  - destruct (decide (cur ∈ visited)); [apply IH|].
    destruct (decide (target ∈ contacts_of cur)); [done|apply IH].
Qed.

(** *** How many entries the loop takes from the queue *)

(** An entry with a path of [k] nodes is not taken from the queue before
    [k] others: a returned list has at most one node more than entries
    were taken, beyond the nodes of the longest path that waited. *)
Lemma loop_path_length remaining :
  forall queue visited k result,
    (forall u p, (u, p) ∈ queue -> (length p <= k)%nat) ->
    loop remaining queue visited = Ret (Some result) ->
    (length result <= k + remaining + 1)%nat.
Proof.
  induction remaining as [|remaining IH];
    intros [|[cur path] queue] visited k result Hlev; simpl; try discriminate.
  destruct (decide (cur ∈ visited)) as [Hcur|Hcur].
  { intros E. apply (IH _ _ k) in E; [lia|].
    intros u p Hin. apply (Hlev u). by right. }
  destruct (decide (target ∈ contacts_of cur)) as [Htarget|Htarget].
  - intros E. simplify_eq. simpl.
    assert (length path <= k)%nat by (apply (Hlev cur); left). lia.
  - intros E. apply (IH _ _ (S k)) in E; [lia|].
    intros u p Hin. apply elem_of_app in Hin as [Hin|Hin].
    + assert (length p <= k)%nat by (apply (Hlev u); by right). lia.
    + apply list_elem_of_fmap in Hin as (c & E' & _). simplify_eq. simpl.
      assert (length path <= k)%nat by (apply (Hlev cur); left). lia.
Qed.

Lemma filter_level_above h cur (path : list Z) (l : list Z) :
  (h < S (length path))%nat ->
  filter (fun e : Z * list Z => (length e.2 <= h)%nat)
    ((fun contact => (contact, cur :: path)) <$> l) = [].
Proof.
  intros Hh. induction l as [|c l IH]; [done|]. cbn [fmap list_fmap].
  rewrite filter_cons_False; [done|]. simpl. lia.
Qed.

(** With the target among the contacts of a node [h] hops away, the loop
    returns a path when the ceiling leaves room for the entries that wait
    with a path of at most [h] nodes and for those that the nodes fewer
    than [h] hops away may still add. *)
Lemma loop_near h u near remaining :
  reaches h u -> target ∈ contacts_of u ->
  (forall n v, (n < h)%nat -> reaches n v -> v ∈ near) ->
  forall queue visited,
    inv queue visited ->
    (length (filter (fun e : Z * list Z => (length e.2 <= h)%nat) queue)
     + cost contacts_of near visited <= remaining)%nat ->
    exists result, loop remaining queue visited = Ret (Some result).
Proof.
  intros Hu Hadj Hnear.
  assert (Hhead : forall cur path queue visited,
             inv ((cur, path) :: queue) visited -> (length path <= h)%nat).
  { intros cur path queue visited Hinv.
    destruct (Nat.le_gt_cases (length path) h) as [?|Hlt]; [done|].
    destruct (levels_head _ _ _ (inv_levels _ _ _ _ _ Hinv)) as (Hmin & _ & _).
    destruct (covered _ _ h u Hinv Hu) as [Hvis|(p & Hin & Hlen)].
    - intros x p Hin. specialize (Hmin x p Hin). lia.
    - by destruct (inv_target _ _ _ _ _ Hinv u Hvis).
    - specialize (Hmin u p Hin). lia. }
  assert (Hempty : forall visited, ~ inv [] visited).
  { intros visited Hinv.
    destruct (covered [] visited h u Hinv Hu) as [Hvis|(p & Hin & _)].
    - intros ? ? Hin. by apply elem_of_nil in Hin.
    - by destruct (inv_target _ _ _ _ _ Hinv u Hvis).
    - by apply elem_of_nil in Hin. }
  induction remaining as [|remaining IH];
    intros [|[cur path] queue] visited Hinv Hfuel.
  - by destruct (Hempty visited).
  - pose proof (Hhead _ _ _ _ Hinv) as Hlev.
    rewrite filter_cons_True in Hfuel by done. simpl in Hfuel. lia.
  - by destruct (Hempty visited).
  - pose proof (Hhead _ _ _ _ Hinv) as Hlev.
    rewrite filter_cons_True in Hfuel by done. simpl in Hfuel.
    simpl. destruct (decide (cur ∈ visited)) as [Hcur|Hcur].
    { apply IH; [by apply inv_skip with cur path|lia]. }
    destruct (decide (target ∈ contacts_of cur)) as [Htarget|Htarget];
      [eauto|].
    apply IH; [by apply inv_visit|].
    rewrite filter_app, length_app.
    destruct (decide (length path < h)%nat) as [Hlt|Hge].
    + assert (Hin : cur ∈ near).
      { apply (Hnear (length path)); [done|].
        apply (walk_back_reach (cur :: path)); [|done].
        apply (inv_walk _ _ _ _ _ Hinv). left. }
      pose proof (cost_visit near cur visited Hin Hcur) as Hcost.
      pose proof (length_filter (fun e : Z * list Z => (length e.2 <= h)%nat)
                    ((fun contact => (contact, cur :: path))
                       <$> filter (fun contact => contact ∉ {[cur]} ∪ visited)
                             (contacts_of cur))) as H1.
      rewrite length_fmap in H1.
      pose proof (length_filter (fun contact => contact ∉ {[cur]} ∪ visited)
                    (contacts_of cur)) as H2.
      lia.
    + rewrite filter_level_above by lia.
      assert (Hsub : visited ⊆ {[cur]} ∪ visited) by (apply union_subseteq_r).
      pose proof (cost_mono near _ _ Hsub). simpl. lia.
Qed.

(** A search that returns under some ceiling has a least ceiling under
    which it returns: the number of entries it takes from the queue. *)
Lemma loop_threshold bound queue visited r :
  loop bound queue visited = Ret r ->
  exists n,
    (n <= bound)%nat
    /\ (forall m, (n <= m)%nat -> loop m queue visited = Ret r)
    /\ (forall m, (m < n)%nat ->
                  loop m queue visited = Raise (SystemExit exit_message)).
Proof.
  revert r. induction bound as [|bound IH]; intros r E.
  - exists 0%nat. split; [done|]. split; [|lia].
    intros m _. by apply (loop_more_fuel 0 m).
  - assert (Hlater : forall m, (S bound <= m)%nat ->
                                 loop m queue visited = Ret r).
    { intros m Hm. replace m with (S bound + (m - S bound))%nat by lia.
      by apply loop_more_fuel. }
    destruct (loop_outcomes bound queue visited) as [[p E']|[E'|E']].
    + destruct (IH _ E') as (n & Hn & Hge & Hlt).
      assert (r = Some p) as ->
        by (specialize (Hge (S bound)); rewrite E in Hge;
            injection Hge; [done|lia]).
      exists n. split; [lia|done].
    + destruct (IH _ E') as (n & Hn & Hge & Hlt).
      assert (r = None) as ->
        by (specialize (Hge (S bound)); rewrite E in Hge;
            injection Hge; [done|lia]).
      exists n. split; [lia|done].
    + exists (S bound). split; [done|]. split; [done|].
      intros m Hm.
      destruct (loop_outcomes m queue visited) as [[p Em]|[Em|Em]]; [| |done].
      * apply (loop_more_fuel m (bound - m)) in Em.
        replace (m + (bound - m))%nat with bound in Em by lia. congruence.
      * apply (loop_more_fuel m (bound - m)) in Em.
        replace (m + (bound - m))%nat with bound in Em by lia. congruence.
Qed.

End PathFacts.

(** A search from a person back to the same person. *)
Lemma solve_from_same contacts_of start max_nodes c rest :
  start ∉ contacts_of start ->
  (forall x, x ∈ contacts_of start -> start ∈ contacts_of x) ->
  contacts_of start = c :: rest -> 2 <= max_nodes ->
  solve_from contacts_of start start max_nodes = Ret (Some [start; c; start]).
Proof.
  intros Hirr Hsym Hc Hfuel. unfold solve_from.
  destruct (Z.to_nat max_nodes) as [|[|fuel]] eqn:E; [lia|lia|].
  assert (Hcin : c ∈ contacts_of start) by (rewrite Hc; left).
  assert (Hne : c <> start) by (intros ->; done).
  simpl. destruct (decide (start ∈ (∅ : gset Z))) as [Hin|_];
    [by apply not_elem_of_empty in Hin|].
  destruct (decide (start ∈ contacts_of start)); [done|].
  rewrite Hc. rewrite filter_cons_True.
  2: { intros Hin. apply elem_of_union in Hin as [Hin|Hin];
       [by apply elem_of_singleton in Hin|by apply not_elem_of_empty in Hin]. }
  simpl. destruct (decide (c ∈ {[start]} ∪ (∅ : gset Z))) as [Hin|_].
  { apply elem_of_union in Hin as [Hin|Hin];
      [by apply elem_of_singleton in Hin|by apply not_elem_of_empty in Hin]. }
  destruct (decide (start ∈ contacts_of c)) as [_|Hn]; [done|].
  destruct Hn. by apply Hsym.
Qed.

Lemma solve_from_alone contacts_of start max_nodes :
  contacts_of start = [] -> 1 <= max_nodes ->
  solve_from contacts_of start start max_nodes = Ret None.
Proof.
  intros Hc Hfuel. unfold solve_from.
  destruct (Z.to_nat max_nodes) as [|fuel] eqn:E; [lia|].
  simpl. destruct (decide (start ∈ (∅ : gset Z))) as [Hin|_];
    [by apply not_elem_of_empty in Hin|].
  rewrite Hc. destruct (decide (start ∈ [])) as [Hin|_];
    [by apply elem_of_nil in Hin|].
  simpl. by destruct fuel.
Qed.

(** *** The adjacency query *)

Lemma find_contacts_spec t x y : y ∈ find_contacts t x <-> co_appear t x y.
Proof.
  unfold find_contacts, co_appear. rewrite elem_of_remove_dups. split.
  - intros Hin. apply list_elem_of_bind in Hin as (s1 & Hin & H1).
    apply list_elem_of_bind in Hin as (s2 & Hin & H2).
    destruct (_ && _) eqn:E; [|by apply elem_of_nil in Hin].
    apply list_elem_of_singleton in Hin.
    apply andb_true_iff in E as [E E3]. apply andb_true_iff in E as [E1 E2].
    apply Z.eqb_eq in E1, E2. apply negb_true_iff, Z.eqb_neq in E3.
    split; [congruence|]. exists s1, s2. repeat split; congruence.
  - intros (Hne & s1 & s2 & H1 & H2 & Em & E1 & E2).
    apply list_elem_of_bind. exists s1. split; [|done].
    apply list_elem_of_bind. exists s2. split; [|done].
    rewrite Em, E1, E2, !Z.eqb_refl. simpl.
    apply Z.eqb_neq in Hne. rewrite Z.eqb_sym in Hne. rewrite Hne. left.
Qed.

Lemma co_appear_sym t x y : co_appear t x y -> co_appear t y x.
Proof.
  intros (Hne & s1 & s2 & H1 & H2 & Em & E1 & E2).
  split; [done|]. exists s2, s1. by repeat split.
Qed.

Lemma find_contacts_persons t u c : c ∈ find_contacts t u -> c ∈ persons t.
Proof.
  intros Hin. apply find_contacts_spec in Hin
    as (_ & s1 & s2 & _ & H2 & _ & _ & <-).
  unfold persons. by apply list_elem_of_fmap_2.
Qed.

Lemma walk_back_impl (R S : Z -> Z -> Prop) start l :
  (forall x y, R x y -> S x y) -> walk_back R start l -> walk_back S start l.
Proof. intros HRS. induction 1; constructor; auto. Qed.

Lemma reach_impl (R S : Z -> Z -> Prop) start n v :
  (forall x y, R x y -> S x y) -> reach R start n v -> reach S start n v.
Proof. intros HRS. induction 1; econstructor; eauto. Qed.

Lemma co_walk_contacts t start l :
  walk_back (co_appear t) start l
  <-> walk_back (fun x y => y ∈ find_contacts t x) start l.
Proof.
  split; apply walk_back_impl; intros x y; apply find_contacts_spec.
Qed.

Lemma budget_enough t start max_nodes :
  budget t start <= max_nodes ->
  (S (cost (find_contacts t) (start :: persons t) ∅) <= Z.to_nat max_nodes)%nat.
Proof. unfold budget. lia. Qed.

Lemma universe_closed t start u c :
  c ∈ find_contacts t u -> c ∈ start :: persons t.
Proof. intros H. right. by apply find_contacts_persons with u. Qed.

Lemma to_nat_more max_nodes more :
  0 <= more ->
  exists extra, Z.to_nat (max_nodes + more) = (Z.to_nat max_nodes + extra)%nat.
Proof.
  intros H. exists (Z.to_nat (max_nodes + more) - Z.to_nat max_nodes)%nat. lia.
Qed.

Lemma no_path_out_of_reach t start_node target max_nodes q :
  solve t start_node target max_nodes = Ret None ->
  q <> [] -> ~ walk_back (co_appear t) start_node (target :: q).
Proof.
  intros E Hne Hwalk. apply co_walk_contacts in Hwalk.
  destruct q as [|u p]; [done|].
  apply (loop_no_path (find_contacts t) start_node target _ _ _
           (inv_init _ _ _) E (length p)).
  by apply (walk_back_reach _ _ _ Hwalk target (u :: p)).
Qed.

Lemma out_of_reach t start_node target :
  (forall q, q <> [] -> ~ walk_back (co_appear t) start_node (target :: q)) ->
  forall n, ~ reach (fun x y => y ∈ find_contacts t x) start_node (S n) target.
Proof.
  intros Hno n Hreach.
  apply reach_walk_back in Hreach as (p & Hwalk & Hlen).
  apply (Hno p); [by destruct p|]. by apply co_walk_contacts.
Qed.

Lemma solve_more t start_node target max_nodes more r :
  0 <= more ->
  solve t start_node target max_nodes = Ret r ->
  solve t start_node target (max_nodes + more) = Ret r.
Proof.
  intros Hmore E. unfold solve, solve_from in *.
  destruct (to_nat_more max_nodes more Hmore) as [extra ->].
  by apply loop_more_fuel.
Qed.

(** What [solve] returns besides [None]: a shortest walk, the target
    first, with no more hops than the ceiling. *)
Lemma solve_returns_walk t start_node target max_nodes result :
  solve t start_node target max_nodes = Ret (Some result) ->
  exists path,
    result = target :: path
    /\ path <> []
    /\ last result = Some start_node
    /\ walk_back (co_appear t) start_node result
    /\ (forall q, walk_back (co_appear t) start_node (target :: q) ->
                  q <> [] -> (length path <= length q)%nat)
    /\ Z.of_nat (length path) <= max_nodes.
Proof.
  intros E.
  destruct (loop_found (find_contacts t) start_node target _ _ _ _
              (inv_init _ _ _) E) as (path & -> & Hne & Hwalk & Hmin).
  exists path. split; [done|]. split; [done|]. split; [|split; [|split]].
  - by apply (walk_back_last (find_contacts t) start_node).
  - by apply co_walk_contacts.
  - intros q Hq Hqne. apply co_walk_contacts in Hq.
    destruct q as [|v q]; [done|].
    apply (Hmin (length q)).
    by apply (walk_back_reach _ _ _ Hq target (v :: q)).
  - apply (loop_path_length (find_contacts t) target _ _ _ 0%nat) in E.
    + cbn [length] in E. destruct path; [done|]. cbn [length] in *. lia.
    + intros u p Hin. apply list_elem_of_singleton in Hin. by simplify_eq.
Qed.

(** With a walk to the target and room under the ceiling for the start
    and for what the persons nearer than the last but one node of the walk
    may put in the queue, [solve] returns a list. *)
Lemma solve_near t start_node target max_nodes other near :
  walk_back (co_appear t) start_node (target :: other) -> other <> [] ->
  (forall v p, walk_back (co_appear t) start_node (v :: p) ->
               (S (length p) < length other)%nat -> v ∈ near) ->
  Z.of_nat (S (cost (find_contacts t) near ∅)) <= max_nodes ->
  exists result, solve t start_node target max_nodes = Ret (Some result).
Proof.
  intros Hother Hne Hnear Hfuel. apply co_walk_contacts in Hother.
  destruct other as [|u p]; [done|].
  inversion Hother as [|? ? ? Hu Hadj]; subst.
  apply (loop_near (find_contacts t) start_node target (length p) u near).
  - by apply (walk_back_reach _ _ _ Hu u p).
  - done.
  - intros n v Hn Hv. apply reach_walk_back in Hv as (p' & Hw & Hlen).
    apply (Hnear v p'); [by apply co_walk_contacts|]. cbn [length]. lia.
  - apply inv_init.
  - rewrite filter_cons_True by (simpl; lia). simpl. lia.
Qed.

(** The number of entries that the search takes from the queue: with a
    ceiling of at least that number [solve] returns, the same result
    whatever the ceiling, and with a lower ceiling it exits. *)
Lemma solve_threshold t start_node target :
  exists dequeues r,
    1 <= dequeues <= budget t start_node
    /\ (forall max_nodes, dequeues <= max_nodes ->
                          solve t start_node target max_nodes = Ret r)
    /\ (forall max_nodes, max_nodes < dequeues ->
                          solve t start_node target max_nodes
                          = Raise (SystemExit exit_message)).
Proof.
  set (bound := S (cost (find_contacts t) (start_node :: persons t) ∅)).
  destruct (loop_outcomes (find_contacts t) target bound [(start_node, [])] ∅)
    as [[p E]|[E|E]].
  3: { exfalso.
       eapply (loop_within_budget (find_contacts t) target
                 (start_node :: persons t)); [| | |exact E].
       - intros x c. apply universe_closed.
       - by repeat constructor.
       - unfold bound. cbn [length]. lia. }
  all: destruct (loop_threshold _ _ _ _ _ _ E) as (n & Hn & Hge & Hlt);
    assert (n <> 0)%nat by (intros ->; by specialize (Hge 0%nat (le_n _)));
    exists (Z.of_nat n); eexists; (split; [unfold budget; fold bound; lia|]);
    (split; intros max_nodes Hm; unfold solve, solve_from;
     [apply Hge|apply Hlt]; lia).
Qed.

(** C1 as stated fails on the fixture of the specification: the returned
    sequence runs from the target back to the start. *)
Lemma solve_returns_target_first :
  solve chain 1 3 default_max_nodes = Ret (Some [3; 2; 1])
  /\ solve chain 1 3 default_max_nodes <> Ret (Some [1; 2; 3])
  /\ solve chain 1 2 default_max_nodes = Ret (Some [2; 1])
  /\ solve chain 1 2 default_max_nodes <> Ret (Some [1; 2]).
Proof. repeat split; vm_compute; congruence. Qed.

(** C1 (amended). Whatever the ceiling, a sequence that [solve] returns
    begins with the target and ends with the start, every two neighbours in
    it co-appear in a movie, no walk of at least one hop from the start to
    the target has fewer hops, its hops are no more than the ceiling, and
    [solve] returns the same sequence under every larger ceiling. When
    some walk of at least one hop leads from the start to the target,
    [solve] never returns [None]: it returns a sequence or exits. It exits
    when the ceiling is below the hops of the shortest walk. It returns a
    sequence when the ceiling leaves room for the start and for one entry
    and one more per contact of every person that is fewer hops from the
    start than the last but one node of the walk; a ceiling of at least
    [budget] does so on every walk. *)
Theorem solve_shortest t start_node target max_nodes :
  (forall result,
      solve t start_node target max_nodes = Ret (Some result) ->
      exists path,
        result = target :: path
        /\ path <> []
        /\ last result = Some start_node
        /\ walk_back (co_appear t) start_node result
        /\ (forall q, walk_back (co_appear t) start_node (target :: q) ->
                      q <> [] -> (length path <= length q)%nat)
        /\ Z.of_nat (length path) <= max_nodes
        /\ forall more, 0 <= more ->
             solve t start_node target (max_nodes + more)
             = Ret (Some result))
  /\ (forall other,
        walk_back (co_appear t) start_node (target :: other) -> other <> [] ->
        solve t start_node target max_nodes <> Ret None
        /\ ((forall q, walk_back (co_appear t) start_node (target :: q) ->
                       q <> [] -> max_nodes < Z.of_nat (length q)) ->
            solve t start_node target max_nodes
            = Raise (SystemExit exit_message))
        /\ (forall near,
              (forall v p, walk_back (co_appear t) start_node (v :: p) ->
                           (S (length p) < length other)%nat -> v ∈ near) ->
              Z.of_nat (S (cost (find_contacts t) near ∅)) <= max_nodes ->
              exists result,
                solve t start_node target max_nodes = Ret (Some result))
        /\ (budget t start_node <= max_nodes ->
            exists result,
              solve t start_node target max_nodes = Ret (Some result))).
Proof.
  split.
  - intros result E.
    destruct (solve_returns_walk _ _ _ _ _ E)
      as (path & -> & Hne & Hlast & Hwalk & Hmin & Hhops).
    exists path. repeat (split; [done|]).
    intros more Hmore. by apply solve_more.
  - intros other Hother Hne.
    assert (Hsome : solve t start_node target max_nodes <> Ret None).
    { intros E. by apply (no_path_out_of_reach _ _ _ _ other E Hne). }
    split; [done|]. split; [|split].
    + intros Hfar.
      destruct (loop_outcomes (find_contacts t) target (Z.to_nat max_nodes)
                  [(start_node, [])] ∅) as [[result E]|[E|E]]; [| |done].
      * destruct (solve_returns_walk _ _ _ _ _ E)
          as (path & -> & Hpne & _ & Hwalk & _ & Hhops).
        specialize (Hfar path Hwalk Hpne). lia.
      * by destruct Hsome.
    + intros near Hnear Hfuel. by apply solve_near with other near.
    + intros Hfuel. apply solve_near with other (start_node :: persons t);
        [done|done| |done].
      intros v p Hwalk _. apply co_walk_contacts in Hwalk.
      inversion Hwalk as [|? u ? _ Hadj]; subst; [left|].
      by apply universe_closed with u.
Qed.

Lemma solve_shortest_witness :
  exists result,
    solve chain 1 3 3 = Ret (Some result)
    /\ last result = Some 1
    /\ walk_back (co_appear chain) 1 result
    /\ solve chain 1 3 default_max_nodes = Ret (Some result).
Proof.
  destruct (solve_shortest chain 1 3 3) as [Hsound Hfound].
  destruct (Hfound [2; 1]) as (_ & _ & Hnear & _).
  - apply co_walk_contacts. repeat constructor.
  - discriminate.
  - destruct (Hnear [1]) as [result E].
    + intros v p Hwalk Hlen. destruct p as [|u p]; [|simpl in Hlen; lia].
      inversion Hwalk. left.
    + vm_compute. discriminate.
    + destruct (Hsound result E)
        as (path & _ & _ & Hlast & Hwalk & _ & _ & Hmore).
      exists result. split; [done|]. split; [done|]. split; [done|].
      apply (Hmore (default_max_nodes - 3)). vm_compute. discriminate.
Defined.

(** The chain of the specification under low ceilings: the search from A
    to C takes two entries from the queue. *)
Example chain_ceilings :
  solve chain 1 3 0 = Raise (SystemExit exit_message)
  /\ solve chain 1 3 1 = Raise (SystemExit exit_message)
  /\ solve chain 1 3 2 = Ret (Some [3; 2; 1])
  /\ solve chain 1 3 5 = Ret (Some [3; 2; 1])
  /\ solve chain 1 2 1 = Ret (Some [2; 1]).
Proof. repeat split; vm_compute; reflexivity. Qed.

(** C7. [solve] ends in one of three ways: it returns a walk that ends at
    the target, it returns [None], or it exits through [sys.exit]. Which
    way is settled by the number of entries that the search takes from the
    queue, at least one and at most [budget]: under every ceiling of at
    least that number [solve] returns, one same result, and under every
    lower ceiling it exits. The result is [None] exactly when no walk of
    at least one hop leads to the target, and else a shortest walk to it.
    With the target within reach the number is at least the hops of the
    shortest walk and at most one more than the entries that the persons
    nearer than its last but one node may put in the queue, one and one
    per contact for each; with the target out of reach it is at least
    the number of persons within reach of the start. A returned result, a
    path or [None], stays the same under any larger ceiling, and [None] is
    returned only when no walk of at least one hop leads to the target.
    When the target is out of reach, a ceiling of at least [budget] gives
    [None], and a ceiling below the number of nodes within reach of the
    start gives the exit. *)
Theorem solve_outcomes t start_node target :
  (forall max_nodes,
      (exists path,
          solve t start_node target max_nodes = Ret (Some (target :: path))
          /\ path <> []
          /\ walk_back (co_appear t) start_node (target :: path))
      \/ solve t start_node target max_nodes = Ret None
      \/ solve t start_node target max_nodes = Raise (SystemExit exit_message))
  /\ (forall max_nodes more r, 0 <= more ->
        solve t start_node target max_nodes = Ret r ->
        solve t start_node target (max_nodes + more) = Ret r)
  /\ (forall max_nodes q,
        solve t start_node target max_nodes = Ret None ->
        q <> [] -> ~ walk_back (co_appear t) start_node (target :: q))
  /\ (exists dequeues r,
        1 <= dequeues <= budget t start_node
        /\ (forall max_nodes, dequeues <= max_nodes ->
              solve t start_node target max_nodes = Ret r)
        /\ (forall max_nodes, max_nodes < dequeues ->
              solve t start_node target max_nodes
              = Raise (SystemExit exit_message))
        /\ (r = None
            <-> forall q, q <> [] ->
                  ~ walk_back (co_appear t) start_node (target :: q))
        /\ (forall result, r = Some result ->
              exists path,
                result = target :: path /\ path <> []
                /\ walk_back (co_appear t) start_node result
                /\ (forall q,
                      walk_back (co_appear t) start_node (target :: q) ->
                      q <> [] -> (length path <= length q)%nat)
                /\ Z.of_nat (length path) <= dequeues)
        /\ (forall other near,
              walk_back (co_appear t) start_node (target :: other) ->
              other <> [] ->
              (forall v p, walk_back (co_appear t) start_node (v :: p) ->
                           (S (length p) < length other)%nat -> v ∈ near) ->
              dequeues <= Z.of_nat (S (cost (find_contacts t) near ∅)))
        /\ (forall component,
              (forall q, q <> [] ->
                 ~ walk_back (co_appear t) start_node (target :: q)) ->
              NoDup component ->
              (forall v, v ∈ component ->
                 exists p, walk_back (co_appear t) start_node (v :: p)) ->
              Z.of_nat (length component) <= dequeues))
  /\ ((forall q, q <> [] ->
                 ~ walk_back (co_appear t) start_node (target :: q)) ->
      (forall max_nodes, budget t start_node <= max_nodes ->
                         solve t start_node target max_nodes = Ret None)
      /\ (forall max_nodes component,
            NoDup component ->
            (forall v, v ∈ component ->
                       exists p, walk_back (co_appear t) start_node (v :: p)) ->
            max_nodes < Z.of_nat (length component) ->
            solve t start_node target max_nodes
            = Raise (SystemExit exit_message))).
Proof.
  assert (Hexit : forall max_nodes component,
             (forall q, q <> [] ->
                ~ walk_back (co_appear t) start_node (target :: q)) ->
             NoDup component ->
             (forall v, v ∈ component ->
                exists p, walk_back (co_appear t) start_node (v :: p)) ->
             max_nodes < Z.of_nat (length component) ->
             solve t start_node target max_nodes
             = Raise (SystemExit exit_message)).
  { intros max_nodes component Hno Hnd Hall Hlow.
    destruct (decide (component = [])) as [->|Hsome].
    { unfold solve, solve_from. simpl in Hlow.
      by replace (Z.to_nat max_nodes) with 0%nat by lia. }
    assert (0 < length component)%nat by (destruct component; simpl; [done|lia]).
    apply (solve_from_exits (find_contacts t) start_node target max_nodes
             component); [by apply out_of_reach|done| |lia].
    intros v Hv. destruct (Hall v Hv) as [p Hp].
    exists (length p). apply co_walk_contacts in Hp.
    by apply (walk_back_reach _ _ _ Hp v p). }
  split; [|split; [|split; [|split]]].
  - intros max_nodes. unfold solve, solve_from.
    destruct (loop_outcomes (find_contacts t) target (Z.to_nat max_nodes)
                [(start_node, [])] ∅) as [[result E]|[E|E]]; auto.
    left.
    destruct (loop_found _ _ _ _ _ _ _ (inv_init _ _ _) E)
      as (path & -> & Hne & Hwalk & _).
    exists path. split; [done|]. split; [done|]. by apply co_walk_contacts.
  - intros max_nodes more r. apply solve_more.
  - intros max_nodes q. apply no_path_out_of_reach.
  - destruct (solve_threshold t start_node target)
      as (dequeues & r & Hd & Hge & Hlt).
    pose proof (Hge dequeues (Z.le_refl _)) as E.
    exists dequeues, r. split; [done|]. split; [done|]. split; [done|].
    split; [|split; [|split]].
    + split.
      * intros ->. intros q. by apply (no_path_out_of_reach _ _ _ dequeues).
      * intros Hno. destruct r as [result|]; [|done].
        destruct (solve_returns_walk _ _ _ _ _ E)
          as (path & -> & Hne & _ & Hwalk & _).
        by destruct (Hno path).
    + intros result ->.
      destruct (solve_returns_walk _ _ _ _ _ E)
        as (path & -> & Hne & _ & Hwalk & Hmin & Hhops).
      by exists path.
    + intros other near Hother Hne Hnear.
      destruct (Z.le_gt_cases dequeues
                  (Z.of_nat (S (cost (find_contacts t) near ∅))))
        as [?|Hlow]; [done|].
      destruct (solve_near t start_node target _ other near Hother Hne Hnear
                  (Z.le_refl _)) as [result E'].
      rewrite (Hlt _ Hlow) in E'. discriminate.
    + intros component Hno Hnd Hall.
      destruct (Z.le_gt_cases (Z.of_nat (length component)) dequeues)
        as [?|Hlow]; [done|].
      rewrite (Hexit dequeues component Hno Hnd Hall Hlow) in E.
      discriminate.
  - intros Hno. split.
    + intros max_nodes Hfuel.
      apply (solve_from_no_path (find_contacts t) start_node target
               (start_node :: persons t)).
      * intros x c. apply universe_closed.
      * left.
      * by apply budget_enough.
      * by apply out_of_reach.
    + intros max_nodes component. by apply Hexit.
Qed.

Lemma solve_outcomes_witness :
  solve islands 1 3 20 = Ret None
  /\ solve islands 1 3 1 = Raise (SystemExit exit_message).
Proof.
  destruct (solve_outcomes islands 1 3) as (_ & _ & Hnone & _ & Hfar).
  assert (Hout : forall q, q <> [] -> ~ walk_back (co_appear islands) 1 (3 :: q)).
  { intros q. apply (Hnone 20). vm_compute. reflexivity. }
  destruct (Hfar Hout) as [Hadequate Hlow]. split.
  - apply Hadequate. vm_compute. discriminate.
  - apply (Hlow 1 [1; 2]).
    + apply NoDup_cons. split; [|apply NoDup_singleton].
      intros H. apply list_elem_of_singleton in H. discriminate.
    + intros v Hv. apply elem_of_cons in Hv as [->|Hv].
      * exists []. constructor.
      * apply list_elem_of_singleton in Hv as ->. exists [1].
        apply co_walk_contacts. repeat constructor.
    + simpl. lia.
Defined.

(** The two-component fixture of the specification. *)
Example islands_outcomes :
  solve islands 1 3 default_max_nodes = Ret None
  /\ solve islands 1 3 2 = Ret None
  /\ solve islands 1 3 1 = Raise (SystemExit exit_message)
  /\ solve islands 1 2 1 = Ret (Some [2; 1]).
Proof. repeat split; vm_compute; reflexivity. Qed.

(** C9. A search from a person to the same person: with a ceiling of at
    least two and some co-appearing person, [solve] returns the round trip
    through one of them; with a ceiling of at least one and no
    co-appearing person, it returns [None]. It never returns the single
    node. *)
Theorem solve_round_trip t start_node max_nodes :
  ((exists n, co_appear t start_node n) -> 2 <= max_nodes ->
   exists n, co_appear t start_node n
             /\ solve t start_node start_node max_nodes
                = Ret (Some [start_node; n; start_node]))
  /\ ((forall n, ~ co_appear t start_node n) -> 1 <= max_nodes ->
      solve t start_node start_node max_nodes = Ret None)
  /\ solve t start_node start_node max_nodes <> Ret (Some [start_node]).
Proof.
  split; [|split].
  - intros [n Hn] Hfuel. apply find_contacts_spec in Hn.
    destruct (find_contacts t start_node) as [|c rest] eqn:Hc;
      [by apply elem_of_nil in Hn|].
    exists c. split.
    + apply find_contacts_spec. rewrite Hc. left.
    + apply solve_from_same with rest; [| |done|done].
      * intros H. by apply find_contacts_spec in H as [? _].
      * intros x Hx. by apply find_contacts_spec, co_appear_sym,
          find_contacts_spec.
  - intros Hno Hfuel. apply solve_from_alone; [|done].
    destruct (find_contacts t start_node) as [|c rest] eqn:Hc; [done|].
    destruct (Hno c). apply find_contacts_spec. rewrite Hc. left.
  - intros E.
    destruct (loop_found (find_contacts t) start_node start_node _ _ _ _
                (inv_init _ _ _) E) as (path & Hp & Hne & _).
    by simplify_eq.
Qed.

Lemma solve_round_trip_witness :
  exists n, co_appear chain 2 n
            /\ solve chain 2 2 default_max_nodes = Ret (Some [2; n; 2]).
Proof.
  destruct (solve_round_trip chain 2 default_max_nodes) as (Htrip & _ & _).
  apply Htrip.
  - exists 1. apply find_contacts_spec. vm_compute. left.
  - vm_compute. discriminate.
Defined.

Example round_trip_chain :
  solve chain 2 2 default_max_nodes = Ret (Some [2; 1; 2])
  /\ solve (Tables ∅ [] ∅ []) 2 2 default_max_nodes = Ret None.
Proof. split; vm_compute; reflexivity. Qed.

(** *** Row order

    The adjacency query has no ORDER BY. The guarantees of [solve] hold for
    every order in which the rows may come back. *)

Lemma cost_same_rows t answers l visited :
  (forall i, answers i ≡ₚ find_contacts t i) ->
  cost answers l visited = cost (find_contacts t) l visited.
Proof.
  intros Hrows. induction l as [|x l IH]; simpl; [done|].
  by rewrite IH, (Permutation_length (Hrows x)).
Qed.

Lemma solve_shortest_any_order t answers start_node target max_nodes other :
  (forall i, answers i ≡ₚ find_contacts t i) ->
  walk_back (co_appear t) start_node (target :: other) -> other <> [] ->
  budget t start_node <= max_nodes ->
  exists path,
    solve_from answers target start_node max_nodes
    = Ret (Some (target :: path))
    /\ path <> []
    /\ walk_back (co_appear t) start_node (target :: path)
    /\ forall q, walk_back (co_appear t) start_node (target :: q) -> q <> [] ->
                 (length path <= length q)%nat.
Proof.
  intros Hrows Hother Hne Hfuel.
  assert (Hadj : forall x y, y ∈ answers x <-> co_appear t x y).
  { intros x y. rewrite (Hrows x). apply find_contacts_spec. }
  assert (Hto : forall l, walk_back (co_appear t) start_node l ->
                          walk_back (fun x y => y ∈ answers x) start_node l).
  { intros l. apply walk_back_impl. intros x y. apply Hadj. }
  assert (Hfrom : forall l, walk_back (fun x y => y ∈ answers x) start_node l ->
                            walk_back (co_appear t) start_node l).
  { intros l. apply walk_back_impl. intros x y. apply Hadj. }
  apply Hto in Hother. destruct other as [|u p]; [done|].
  pose proof (walk_back_reach _ _ _ Hother target (u :: p) eq_refl) as Hreach.
  destruct (solve_from_found answers start_node target
              (start_node :: persons t) max_nodes (length p))
    as (path & E & Hpath & Hwalk & Hmin).
  - intros x c Hc. apply (universe_closed t start_node x).
    by rewrite <- (Hrows x).
  - left.
  - rewrite (cost_same_rows t answers _ _ Hrows). by apply budget_enough.
  - exact Hreach.
  - exists path. split; [exact E|]. split; [done|]. split; [by apply Hfrom|].
    intros q Hq Hqne. apply Hto in Hq. destruct q as [|v q]; [done|].
    apply (Hmin (length q)).
    by apply (walk_back_reach _ _ _ Hq target (v :: q)).
Qed.

(** ** Referential integrity of the edges *)

Lemma triple_bind {A B} P (m : DB A) Q (k : A -> DB B) R :
  triple P m Q -> (forall a, triple (Q a) (k a) R) -> triple P (m ≫= k) R.
Proof.
  unfold triple, mbind, DB_bind. intros Hm Hk c b c' HP.
  destruct (m c) as [[a|e] c1] eqn:E; [|done]. intros Hb.
  eapply Hk; [|exact Hb]. eapply Hm; eauto.
Qed.

Lemma triple_ret {A} (P : connection -> Prop) (a : A) :
  triple P (mret a) (fun _ => P).
Proof. intros c b c' HP E. cbv [mret DB_ret] in E. by simplify_eq. Qed.

Lemma triple_value_error {A} (P : connection -> Prop) (o : option A) :
  triple P (or_value_error o) (fun _ => P).
Proof. apply (preserves_value_error P). Qed.

Lemma triple_weaken {A} (P P' : connection -> Prop) (m : DB A) Q :
  (forall c, P' c -> P c) -> triple P m Q -> triple P' m Q.
Proof. intros HP Hm c a c' H. apply Hm. by apply HP. Qed.

Lemma for_rows_triple {R} (body : R -> Z -> DB Z) (I : connection -> Prop)
  rows count :
  (forall row count, triple I (body row count) (fun _ => I)) ->
  triple I (for_rows body rows count) (fun _ => I).
Proof.
  intros Hbody. revert count. induction rows as [|row rows IH]; intros count.
  - apply triple_ret.
  - cbn [for_rows]. eapply triple_bind; [apply Hbody|]. intros n. apply IH.
Qed.

Lemma triple_select_person id :
  triple sound (execute (select (select_person id)))
    (fun r c => sound c
                /\ (is_Some r -> is_Some (people (current c) !! id))).
Proof.
  intros c r c' [Ea Hs] E. rewrite execute_select_ok in E by done.
  simplify_eq. split; [by split|]. unfold select_person.
  by destruct (people (current c') !! id).
Qed.

Lemma triple_select_movie id (P : connection -> Prop) :
  triple (fun c => sound c /\ P c) (execute (select (select_movie id)))
    (fun r c => sound c /\ P c
                /\ (is_Some r -> is_Some (movies (current c) !! id))).
Proof.
  intros c r c' [[Ea Hs] HP] E. rewrite execute_select_ok in E by done.
  simplify_eq. split; [done|]. split; [done|]. unfold select_movie.
  by destruct (movies (current c') !! id).
Qed.

Lemma triple_insert_star s :
  triple (fun c => sound c
                   /\ is_Some (people (current c) !! person_id s)
                   /\ is_Some (movies (current c) !! movie_id s))
    (execute (update (insert_star s))) (fun _ => sound).
Proof.
  intros c a c' ((Ea & Hs & Hk1 & Hk2) & Hp & Hm) E.
  unfold execute, update, insert_star in E. rewrite Ea in E.
  destruct (existsb _ _); [by simplify_eq/=|].
  rewrite !bool_decide_eq_true_2, !andb_false_r in E by done.
  simplify_eq/=. split; [done|]. split; [|done].
  intros s' Hin. cbn in *. apply elem_of_app in Hin as [Hin|Hin]; [by apply Hs|].
  apply list_elem_of_singleton in Hin. by subst.
Qed.

Lemma triple_commit_batch count : triple sound (commit_batch count) (fun _ => sound).
Proof.
  intros c a c' [Ea Hs] E. unfold commit_batch in E.
  destruct (_ =? _);
    [unfold commit in E; rewrite Ea in E|unfold mret, DB_ret in E];
    by simplify_eq/=.
Qed.

Lemma sound_healthy c : sound c -> aborted c = false.
Proof. by intros [? _]. Qed.

Lemma triple_stars_row row count :
  triple sound (stars_row row count) (fun _ => sound).
Proof.
  unfold stars_row.
  eapply triple_bind; [apply triple_value_error|]. intros pid.
  eapply triple_bind; [apply triple_value_error|]. intros mid.
  eapply triple_bind; [apply triple_select_person|]. intros [found|].
  - eapply triple_bind; [apply triple_select_movie|]. intros [found'|].
    + eapply triple_bind.
      * eapply triple_weaken; [|apply triple_insert_star].
        intros c (Hs & Hp & Hm). split; [done|]. split; [by apply Hp|by apply Hm].
      * intros u. eapply triple_bind; [apply triple_commit_batch|].
        intros u'. apply triple_ret.
    + eapply triple_weaken; [|apply triple_ret]. by intros c [? _].
  - eapply triple_weaken; [|apply triple_ret]. by intros c [? _].
Qed.

(** When [make_stars] returns, no edge dangles, in the transaction and in
    the committed tables alike. *)
Lemma make_stars_sound file c c' :
  make_stars file c = (Ret tt, c') ->
  sound c' /\ committed c' = current c'.
Proof.
  unfold make_stars, mbind, DB_bind. intros E.
  destruct (execute (update recreate_stars) c) as [[[]|e] c1] eqn:E1; [|done].
  assert (H1 : sound c1).
  { unfold execute, update, recreate_stars in E1.
    destruct (aborted c); simplify_eq/=. split; [done|]. split; [|done].
    intros s Hin. by apply elem_of_nil in Hin. }
  destruct (for_rows stars_row file 0 c1) as [[[]|e] c2] eqn:E2; [|done].
  assert (H2 : sound c2).
  { eapply (for_rows_triple stars_row sound); [|exact H1|exact E2].
    apply triple_stars_row. }
  pose proof H2 as [Ea Hs]. unfold commit in E. rewrite Ea in E.
  simpl in E. simplify_eq. by split.
Qed.

Lemma delete_movies_resolve doomed t :
  stars_movie (keys t) = true ->
  references_resolve t -> references_resolve (delete_movies doomed t).
Proof.
  intros Hkey Hres s Hin. unfold delete_movies in *. cbn in *.
  rewrite Hkey in Hin.
  apply list_elem_of_In, filter_In in Hin as [Hin Hkept].
  apply list_elem_of_In in Hin. destruct (Hres s Hin) as [Hp [m Hm]].
  split; [done|]. exists m. apply map_lookup_filter_Some. split; [done|].
  rewrite Hm in Hkept. simpl. by apply negb_true_iff in Hkept.
Qed.

(** The half of C5 that holds: after a cycle whose four loaders return, no
    [stars] row dangles, whatever [clean_data] leaves behind. *)
Lemma no_dangling_edge titles scores names principals c c1 c2 c3 c4 :
  make_movies titles c = (Ret tt, c1) ->
  make_ratings scores c1 = (Ret tt, c2) ->
  make_people names c2 = (Ret tt, c3) ->
  make_stars principals c3 = (Ret tt, c4) ->
  (load_and_clean titles scores names principals c).2 = (clean_data c4).2
  /\ references_resolve (current (clean_data c4).2)
  /\ references_resolve (committed (clean_data c4).2).
Proof.
  intros E1 E2 E3 E4. split.
  { unfold load_and_clean, mbind, DB_bind. by rewrite E1, E2, E3, E4. }
  destruct (make_stars_sound _ _ _ E4) as [(Ea & Hs & _ & Hk) Hc].
  destruct (clean_data_healthy c4 Ea) as (t1 & t2 & H1 & H2 & ->).
  cbn [snd current committed]. split; [|by rewrite Hc].
  unfold delete_adult in H1. unfold delete_title_types in H2. simplify_eq.
  apply delete_movies_resolve; [done|]. by apply delete_movies_resolve.
Qed.

(** * More properties of the sources *)

(** ** Identifiers sent to the API *)

Lemma digit_value_digit_char d :
  0 <= d <= 9 -> Py.digit_value (PyText.digit_char d) = Some d.
Proof.
  intros H.
  assert (d = 0 \/ d = 1 \/ d = 2 \/ d = 3 \/ d = 4 \/ d = 5 \/ d = 6
          \/ d = 7 \/ d = 8 \/ d = 9) as Hd by lia.
  repeat (destruct Hd as [->|Hd]; [reflexivity|]). by subst.
Qed.

Lemma decimal_value_snoc ds c :
  decimal_value (ds ++ [c]) = 10 * decimal_value ds + digit_of c.
Proof.
  induction ds as [|d ds IH]; simpl; [lia|].
  rewrite IH, length_app. simpl.
  replace (Z.of_nat (length ds + 1)) with (Z.succ (Z.of_nat (length ds))) by lia.
  rewrite Z.pow_succ_r by lia. ring.
Qed.

Lemma digits_spec fuel :
  forall n rest, (0 < fuel)%nat -> 0 <= n < 2 ^ Z.of_nat fuel ->
  exists ds, PyText.digits fuel n rest = ds ++ rest /\ ds <> []
             /\ Forall (fun c => Py.is_decimal c = true) ds
             /\ decimal_value ds = n.
Proof.
  induction fuel as [|fuel IH]; intros n rest Hfuel Hn; [lia|].
  assert (Hmod : 0 <= n mod 10 <= 9) by (pose proof (Z.mod_pos_bound n 10); lia).
  pose proof (digit_value_digit_char _ Hmod) as Hc.
  assert (Hdec : Py.is_decimal (PyText.digit_char (n mod 10)) = true).
  { unfold Py.is_decimal. by rewrite Hc. }
  cbn [PyText.digits]. destruct (Z.eqb_spec (n / 10) 0) as [Hq|Hq].
  - exists [PyText.digit_char (n mod 10)]. split; [done|]. split; [done|].
    split; [by repeat constructor|]. simpl. unfold digit_of. rewrite Hc.
    simpl. pose proof (Z.div_mod n 10). lia.
  - destruct (IH (n / 10) (PyText.digit_char (n mod 10) :: rest))
      as (ds & E & Hne & Hall & Hval).
    { destruct fuel; [|lia]. simpl in Hn.
      assert (n / 10 = 0) by (apply Z.div_small; lia). done. }
    { split; [apply Z.div_pos; lia|].
      apply Z.div_lt_upper_bound; [lia|].
      rewrite Nat2Z.inj_succ, Z.pow_succ_r in Hn by lia. lia. }
    exists (ds ++ [PyText.digit_char (n mod 10)]). split; [|split; [|split]].
    + by rewrite E, <- app_assoc.
    + by destruct ds.
    + apply Forall_app. split; [done|]. by repeat constructor.
    + rewrite decimal_value_snoc, Hval. unfold digit_of. rewrite Hc. simpl.
      pose proof (Z.div_mod n 10). lia.
Qed.

Lemma str_digits n :
  0 <= n ->
  exists ds, PyText.digits (S (Z.to_nat (Z.log2 n))) n [] = ds /\ ds <> []
             /\ Forall (fun c => Py.is_decimal c = true) ds
             /\ decimal_value ds = n.
Proof.
  intros Hn.
  destruct (digits_spec (S (Z.to_nat (Z.log2 n))) n []) as (ds & E & H).
  - lia.
  - split; [done|]. rewrite Nat2Z.inj_succ, Z2Nat.id by apply Z.log2_nonneg.
    destruct (Z.eq_dec n 0) as [->|Hpos]; [done|].
    apply Z.log2_spec. lia.
  - exists ds. by rewrite app_nil_r in E.
Qed.

Lemma strip_signed c ds :
  Py.literal_space c = false -> ds <> [] ->
  Forall (fun c => Py.is_decimal c = true) ds ->
  Py.strip_literal (c :: ds) = c :: ds.
Proof.
  intros Hc Hne Hds. unfold Py.strip_literal. rewrite lstrip_head by done.
  assert (E : Py.lstrip_literal (rev (c :: ds)) = rev (c :: ds)).
  { simpl. destruct (rev ds) as [|x l] eqn:Er.
    - apply (f_equal (@rev ascii)) in Er. rewrite rev_involutive in Er. done.
    - simpl. rewrite decimal_not_space; [done|].
      assert (Hin : In x (rev ds)) by (rewrite Er; by left).
      apply in_rev in Hin. by apply (proj1 (List.Forall_forall _ _) Hds). }
  rewrite E. apply rev_involutive.
Qed.

Lemma zfill_minus width l :
  PyText.zfill_chars width ("-"%char :: l)
  = "-"%char :: repeat "0"%char (width - S (length l)) ++ l.
Proof. reflexivity. Qed.

Lemma zfill_decimal width d l :
  Py.is_decimal d = true ->
  PyText.zfill_chars width (d :: l)
  = repeat "0"%char (width - S (length l)) ++ d :: l.
Proof.
  intros Hd. unfold PyText.zfill_chars.
  destruct (Ascii.eqb_spec d "+") as [->|_]; [discriminate|].
  destruct (Ascii.eqb_spec d "-") as [->|_]; [discriminate|]. done.
Qed.

(** [int(str(z).zfill(width)) == z], and so [int(str(z)) == z]. *)
Lemma int_zfill_str width z :
  Py.int (PyText.zfill width (PyText.str_int z)) = Some z.
Proof.
  unfold Py.int, PyText.zfill, PyText.str_int. rewrite !chars_str.
  unfold PyText.str_int_chars.
  destruct (str_digits (Z.abs z) (Z.abs_nonneg z)) as (ds & -> & Hne & Hds & Hv).
  assert (Hzeros : forall k, Forall (fun c => Py.is_decimal c = true)
                               (repeat "0"%char k ++ ds)).
  { intros k. apply Forall_app. split; [|done]. by induction k; constructor. }
  assert (Hsome : forall k, repeat "0"%char k ++ ds <> []).
  { intros k E. apply app_eq_nil in E as [_ E]. done. }
  destruct (Z.ltb_spec z 0) as [Hneg|Hpos].
  - rewrite zfill_minus. rewrite strip_signed; [|done|apply Hsome|apply Hzeros].
    unfold Py.int_signed. simpl (Ascii.eqb _ _). cbv iota.
    rewrite int_digits_decimal; [|apply Hzeros|left; apply Hsome].
    rewrite decimal_value_zeros, Hv. simpl. f_equal. lia.
  - destruct ds as [|d ds]; [done|].
    assert (Hd : Py.is_decimal d = true) by (by inversion Hds).
    rewrite zfill_decimal by done.
    rewrite strip_decimals by apply Hzeros.
    rewrite int_signed_decimals; [|apply Hsome|apply Hzeros].
    rewrite decimal_value_zeros, Hv. f_equal. lia.
Qed.

Lemma chars_app s1 s2 : Py.chars (s1 ++ s2)%string = Py.chars s1 ++ Py.chars s2.
Proof. induction s1 as [|c s1 IH]; simpl; [done|]. unfold Py.chars in *. by rewrite IH. Qed.

(** X1. The identifier that [get_poster] and [get_artist] send for a stored
    id parses back to that id under the rule of the loaders, whatever the
    id: the zeros of [zfill] and a minus sign are read as [int] reads
    them. *)
Theorem imdb_id_round_trip prefix id :
  String.length prefix = 2%nat -> parse_id (imdb_id prefix id) = Some id.
Proof.
  intros Hlen. unfold parse_id, imdb_id, Py.slice_from.
  rewrite chars_app.
  destruct prefix as [|a [|b [|c rest]]]; simpl in Hlen; try lia.
  cbn [Py.chars list_ascii_of_string app drop]. rewrite drop_0.
  change (list_ascii_of_string ?s) with (Py.chars s).
  rewrite str_chars. apply int_zfill_str.
Qed.

Lemma imdb_id_round_trip_witness :
  imdb_id "tt" 123 = "tt0000123" /\ parse_id (imdb_id "tt" 123) = Some 123.
Proof.
  split; [reflexivity|]. apply (imdb_id_round_trip "tt" 123). reflexivity.
Defined.

(** ** What the loaders store *)

Ltac db_step H :=
  cbv [mbind DB_bind mret DB_ret fmap DB_fmap or_value_error raise] in H.

Lemma digits_or_null_ret field c r c' :
  digits_or_null field c = (Ret r, c') -> digits_value field = Some r /\ c' = c.
Proof.
  unfold digits_or_null, digits_value. intros H.
  destruct (Py.isdigit field); db_step H;
    [destruct (Py.int field)|]; by simplify_eq/=.
Qed.

Lemma int_or_null_ret field c r c' :
  int_or_null field c = (Ret r, c') -> int_value field = Some r /\ c' = c.
Proof.
  unfold int_or_null, int_value. intros H.
  destruct (String.eqb field sentinel); db_step H;
    [|destruct (Py.int field)]; by simplify_eq/=.
Qed.

Lemma float_or_null_ret field c r c' :
  float_or_null field c = (Ret r, c') -> float_value field = Some r /\ c' = c.
Proof.
  unfold float_or_null, float_value. intros H.
  destruct (String.eqb field sentinel); db_step H;
    [|destruct (PyFloat.float field)]; by simplify_eq/=.
Qed.

Lemma value_error_ret {A} (o : option A) c a c' :
  or_value_error o c = (Ret a, c') -> o = Some a /\ c' = c.
Proof. destruct o; intros H; db_step H; by simplify_eq. Qed.

Lemma execute_update_ret f c u c' :
  execute (update f) c = (Ret u, c') ->
  aborted c = false /\ f (current c) = Ret (current c')
  /\ committed c' = committed c /\ aborted c' = false.
Proof.
  unfold execute, update. intros H.
  destruct (aborted c); [done|]. destruct (f (current c)); by simplify_eq/=.
Qed.

Lemma execute_select_ret {A} (f : tables -> A) c a c' :
  execute (select f) c = (Ret a, c') ->
  aborted c = false /\ a = f (current c) /\ c' = c.
Proof.
  intros H. destruct (aborted c) eqn:Ea.
  - unfold execute in H. by rewrite Ea in H.
  - rewrite execute_select_ok in H by done. by simplify_eq.
Qed.

Lemma commit_batch_ret count c u c' :
  aborted c = false -> commit_batch count c = (Ret u, c') ->
  current c' = current c /\ aborted c' = false.
Proof.
  intros Ea H. unfold commit_batch in H.
  destruct (_ =? _); [unfold commit in H; rewrite Ea in H|db_step H];
    by simplify_eq/=.
Qed.

Lemma bind_ret {A B} (m : DB A) (k : A -> DB B) c b c' :
  (m ≫= k) c = (Ret b, c') ->
  exists a c1, m c = (Ret a, c1) /\ k a c1 = (Ret b, c').
Proof.
  unfold mbind, DB_bind. destruct (m c) as [[a|e] c1]; [eauto|done].
Qed.

Lemma movies_row_ret row count c n c' :
  movies_row row count c = (Ret n, c') ->
  exists id m,
    movie_of_row row = Some (id, m) /\ in_integer id = true
    /\ aborted c = false /\ aborted c' = false
    /\ movies (current c) !! id = None
    /\ current c' = Store (<[id := m]> (movies (current c)))
                      (ratings (current c)) (people (current c))
                      (stars (current c)) (keys (current c)).
Proof.
  unfold movies_row. intros H.
  apply bind_ret in H as (id & c1 & H1 & H).
  apply value_error_ret in H1 as [Hid ->].
  apply bind_ret in H as (y & c1 & H1 & H).
  apply digits_or_null_ret in H1 as [Hy ->].
  apply bind_ret in H as (a & c1 & H1 & H).
  apply digits_or_null_ret in H1 as [Ha ->].
  apply bind_ret in H as (r & c1 & H1 & H).
  apply digits_or_null_ret in H1 as [Hr ->].
  apply bind_ret in H as (u & c1 & H1 & H).
  apply execute_update_ret in H1 as (Ea & Hins & _ & Ea1).
  apply bind_ret in H as (u' & c2 & H2 & H).
  apply (commit_batch_ret _ _ _ _ Ea1) in H2 as [Hcur Ea2].
  db_step H. simplify_eq.
  unfold insert_movie in Hins.
  destruct (negb _) eqn:Erange; [done|].
  destruct (movies (current c) !! id) eqn:Em; [done|]. simplify_eq.
  eexists id, _. unfold movie_of_row. rewrite Hid, Hy, Ha, Hr. cbn.
  split; [reflexivity|].
  apply negb_false_iff in Erange.
  do 3 apply andb_true_iff in Erange as [Erange _].
  split; [done|]. split; [done|]. split; [done|]. split; [done|].
  by rewrite Hcur.
Qed.

Lemma for_rows_nil_ret {R} (body : R -> Z -> DB Z) count c u c' :
  for_rows body [] count c = (Ret u, c') -> c' = c.
Proof. intros H. cbn [for_rows] in H. db_step H. by simplify_eq. Qed.

Lemma commit_ret c u c' :
  aborted c = false -> commit c = (Ret u, c') ->
  c' = Connection (current c) (current c) false.
Proof. intros Ea H. unfold commit in H. rewrite Ea in H. by simplify_eq. Qed.

Lemma movies_rows_ret rows :
  forall count c c',
    aborted c = false ->
    for_rows movies_row rows count c = (Ret tt, c') ->
    aborted c' = false
    /\ ratings (current c') = ratings (current c)
    /\ people (current c') = people (current c)
    /\ stars (current c') = stars (current c)
    /\ (forall id m,
          movies (current c') !! id = Some m <->
          movies (current c) !! id = Some m
          \/ exists row, row ∈ rows /\ movie_of_row row = Some (id, m))
    /\ Forall (fun row => exists id m,
                 movie_of_row row = Some (id, m) /\ in_integer id = true
                 /\ movies (current c) !! id = None) rows
    /\ NoDup (omap (fun row => fst <$> movie_of_row row) rows).
Proof.
  induction rows as [|row rows IH]; intros count c c' Ea H.
  - apply for_rows_nil_ret in H as ->.
    split; [done|]. split; [done|]. split; [done|]. split; [done|].
    split; [|split; constructor].
    intros id m. split; [by left|].
    intros [?|(row & Hin & _)]; [done|]. by apply elem_of_nil in Hin.
  - cbn [for_rows] in H. apply bind_ret in H as (n & c1 & H1 & H).
    apply movies_row_ret in H1 as (id0 & m0 & Hrow & Hrange & _ & Ea1 & Hfresh & Hcur).
    destruct (IH _ _ _ Ea1 H) as (Ea' & Hr & Hp & Hs & Hm & Hall & Hnd).
    rewrite Hcur in Hr, Hp, Hs, Hm, Hall. cbn [ratings people stars movies] in *.
    split; [done|]. split; [done|]. split; [done|]. split; [done|].
    split; [|split].
    + intros id m. rewrite Hm, lookup_insert_Some. split.
      * intros [[[-> ->]|[_ ?]]|(r & Hin & Hr')]; [|by left|].
        -- right. exists row. split; [left|done].
        -- right. exists r. split; [by right|done].
      * intros [Hold|(r & Hin & Hr')].
        -- left. destruct (decide (id0 = id)) as [->|Hne]; [congruence|].
           by right.
        -- apply elem_of_cons in Hin as [->|Hin].
           ++ left. left. rewrite Hrow in Hr'. by simplify_eq.
           ++ right. by exists r.
    + constructor; [by exists id0, m0|].
      eapply Forall_impl; [exact Hall|]. intros r (id & m & Hr' & Hi & Hnone).
      exists id, m. apply lookup_insert_None in Hnone as [? _]. by repeat split.
    + cbn [omap list_omap]. rewrite Hrow. cbn. apply NoDup_cons. split; [|done].
      intros Hin. apply list_elem_of_omap in Hin as (r & Hin & Hr').
      rewrite Forall_forall in Hall.
      destruct (Hall r Hin) as (id & m & Hr'' & _ & Hnone).
      rewrite Hr'' in Hr'. cbn in Hr'. simplify_eq.
      by rewrite lookup_insert_eq in Hnone.
Qed.

(** X2. When [make_movies] returns, [movies] holds the rows of the dump
    and nothing else: whatever the table held before is gone, every row of
    the file is stored under its id with its normalised fields, the ids of
    the file are pairwise distinct and within INTEGER, the other tables
    are untouched and the result is committed. *)
Theorem make_movies_stores file c c' :
  make_movies file c = (Ret tt, c') ->
  committed c' = current c'
  /\ ratings (current c') = ratings (current c)
  /\ people (current c') = people (current c)
  /\ stars (current c') = stars (current c)
  /\ (forall id m,
        movies (current c') !! id = Some m <->
        exists row, row ∈ file /\ movie_of_row row = Some (id, m))
  /\ NoDup (omap (fun row => fst <$> movie_of_row row) file)
  /\ Forall (fun row => exists id m, movie_of_row row = Some (id, m)
                                     /\ in_integer id = true) file.
Proof.
  unfold make_movies. intros H.
  apply bind_ret in H as (u & c1 & H1 & H).
  apply execute_update_ret in H1 as (Ea & Hre & _ & Ea1).
  unfold recreate_movies in Hre. simplify_eq.
  apply bind_ret in H as ([] & c2 & H2 & H).
  destruct (movies_rows_ret _ _ _ _ Ea1 H2) as (Ea2 & Hr & Hp & Hs & Hm & Hall & Hnd).
  apply (commit_ret _ _ _ Ea2) in H as ->. cbn [committed current].
  rewrite <- Hre in Hr, Hp, Hs, Hm. cbn in Hr, Hp, Hs, Hm.
  split; [done|]. split; [done|]. split; [done|]. split; [done|].
  split; [|split; [done|]].
  - intros id m. rewrite Hm, lookup_empty.
    split; [by intros [?|?]|by right].
  - eapply Forall_impl; [exact Hall|]. intros r (id & m & ? & ? & _).
    by exists id, m.
Qed.

Lemma make_movies_stores_witness :
  movies (current (make_movies one_title (fresh untyped_store)).2) !! 10
  = Some (Movie "Ten" (Some 1999) (Some "movie") (Some 0) (Some 90)
            (Some "Drama")).
Proof.
  destruct (make_movies_stores one_title (fresh untyped_store)
              (make_movies one_title (fresh untyped_store)).2)
    as (_ & _ & _ & _ & H & _ & _).
  - vm_compute. reflexivity.
  - apply H. eexists. split; [left|]. reflexivity.
Defined.

Lemma people_row_ret row count c n c' :
  people_row row count c = (Ret n, c') ->
  exists id p,
    person_of_row row = Some (id, p) /\ in_integer id = true
    /\ aborted c = false /\ aborted c' = false
    /\ people (current c) !! id = None
    /\ current c' = Store (movies (current c)) (ratings (current c))
                      (<[id := p]> (people (current c)))
                      (stars (current c)) (keys (current c)).
Proof.
  unfold people_row. intros H.
  apply bind_ret in H as (id & c1 & H1 & H).
  apply value_error_ret in H1 as [Hid ->].
  apply bind_ret in H as (b & c1 & H1 & H).
  apply int_or_null_ret in H1 as [Hb ->].
  apply bind_ret in H as (d & c1 & H1 & H).
  apply int_or_null_ret in H1 as [Hd ->].
  apply bind_ret in H as (u & c1 & H1 & H).
  apply execute_update_ret in H1 as (Ea & Hins & _ & Ea1).
  apply bind_ret in H as (u' & c2 & H2 & H).
  apply (commit_batch_ret _ _ _ _ Ea1) in H2 as [Hcur Ea2].
  db_step H. simplify_eq.
  unfold insert_person in Hins.
  destruct (negb _) eqn:Erange; [done|].
  destruct (people (current c) !! id) eqn:Em; [done|]. simplify_eq.
  eexists id, _. unfold person_of_row. rewrite Hid, Hb, Hd. cbn.
  split; [reflexivity|].
  apply negb_false_iff in Erange.
  do 2 apply andb_true_iff in Erange as [Erange _].
  split; [done|]. split; [done|]. split; [done|]. split; [done|].
  by rewrite Hcur.
Qed.

Lemma people_rows_ret rows :
  forall count c c',
    aborted c = false ->
    for_rows people_row rows count c = (Ret tt, c') ->
    aborted c' = false
    /\ movies (current c') = movies (current c)
    /\ ratings (current c') = ratings (current c)
    /\ stars (current c') = stars (current c)
    /\ (forall id p,
          people (current c') !! id = Some p <->
          people (current c) !! id = Some p
          \/ exists row, row ∈ rows /\ person_of_row row = Some (id, p))
    /\ Forall (fun row => exists id p,
                 person_of_row row = Some (id, p) /\ in_integer id = true
                 /\ people (current c) !! id = None) rows
    /\ NoDup (omap (fun row => fst <$> person_of_row row) rows).
Proof.
  induction rows as [|row rows IH]; intros count c c' Ea H.
  - apply for_rows_nil_ret in H as ->.
    split; [done|]. split; [done|]. split; [done|]. split; [done|].
    split; [|split; constructor].
    intros id m. split; [by left|].
    intros [?|(row & Hin & _)]; [done|]. by apply elem_of_nil in Hin.
  - cbn [for_rows] in H. apply bind_ret in H as (n & c1 & H1 & H).
    apply people_row_ret in H1 as (id0 & m0 & Hrow & Hrange & _ & Ea1 & Hfresh & Hcur).
    destruct (IH _ _ _ Ea1 H) as (Ea' & Hr & Hp & Hs & Hm & Hall & Hnd).
    rewrite Hcur in Hr, Hp, Hs, Hm, Hall. cbn [ratings people stars movies] in *.
    split; [done|]. split; [done|]. split; [done|]. split; [done|].
    split; [|split].
    + intros id m. rewrite Hm, lookup_insert_Some. split.
      * intros [[[-> ->]|[_ ?]]|(r & Hin & Hr')]; [|by left|].
        -- right. exists row. split; [left|done].
        -- right. exists r. split; [by right|done].
      * intros [Hold|(r & Hin & Hr')].
        -- left. destruct (decide (id0 = id)) as [->|Hne]; [congruence|].
           by right.
        -- apply elem_of_cons in Hin as [->|Hin].
           ++ left. left. rewrite Hrow in Hr'. by simplify_eq.
           ++ right. by exists r.
    + constructor; [by exists id0, m0|].
      eapply Forall_impl; [exact Hall|]. intros r (id & m & Hr' & Hi & Hnone).
      exists id, m. apply lookup_insert_None in Hnone as [? _]. by repeat split.
    + cbn [omap list_omap]. rewrite Hrow. cbn. apply NoDup_cons. split; [|done].
      intros Hin. apply list_elem_of_omap in Hin as (r & Hin & Hr').
      rewrite Forall_forall in Hall.
      destruct (Hall r Hin) as (id & m & Hr'' & _ & Hnone).
      rewrite Hr'' in Hr'. cbn in Hr'. simplify_eq.
      by rewrite lookup_insert_eq in Hnone.
Qed.

(** X3. When [make_people] returns, [people] holds the rows of the dump and
    nothing else, the ids of the file are pairwise distinct and within
    INTEGER, the other tables are untouched and the result is committed;
    and [check_for_id] on the digits of a row's identifier returns the
    person of that row. *)
Theorem make_people_stores file c c' :
  make_people file c = (Ret tt, c') ->
  committed c' = current c'
  /\ movies (current c') = movies (current c)
  /\ ratings (current c') = ratings (current c)
  /\ stars (current c') = stars (current c)
  /\ (forall id p,
        people (current c') !! id = Some p <->
        exists row, row ∈ file /\ person_of_row row = Some (id, p))
  /\ NoDup (omap (fun row => fst <$> person_of_row row) file)
  /\ Forall (fun row => exists id p,
               person_of_row row = Some (id, p) /\ in_integer id = true
               /\ check_for_id (current c')
                    (Py.slice_from 2 (NameBasics.nconst row))
                  = Some (id, p)) file.
Proof.
  unfold make_people. intros H.
  apply bind_ret in H as (u & c1 & H1 & H).
  apply execute_update_ret in H1 as (Ea & Hre & _ & Ea1).
  unfold recreate_people in Hre. simplify_eq.
  apply bind_ret in H as ([] & c2 & H2 & H).
  destruct (people_rows_ret _ _ _ _ Ea1 H2) as (Ea2 & Hr & Hp & Hs & Hm & Hall & Hnd).
  apply (commit_ret _ _ _ Ea2) in H as ->. cbn [committed current].
  rewrite <- Hre in Hr, Hp, Hs, Hm. cbn in Hr, Hp, Hs, Hm.
  assert (Hiff : forall id p,
             people (current c2) !! id = Some p <->
             exists row, row ∈ file /\ person_of_row row = Some (id, p)).
  { intros id m. rewrite Hm, lookup_empty.
    split; [by intros [?|?]|by right]. }
  split; [done|]. split; [done|]. split; [done|]. split; [done|].
  split; [done|]. split; [done|].
  apply Forall_forall. intros row Hin. rewrite Forall_forall in Hall.
  destruct (Hall row Hin) as (id & p & Hrow & Hi & _).
  exists id, p. split; [done|]. split; [done|].
  unfold check_for_id.
  assert (Hid : parse_id (NameBasics.nconst row) = Some id).
  { unfold person_of_row in Hrow.
    destruct (parse_id (NameBasics.nconst row)); cbn in Hrow; [|done].
    destruct (int_value (NameBasics.birthYear row)); cbn in Hrow; [|done].
    destruct (int_value (NameBasics.deathYear row)); cbn in Hrow; [|done].
    by simplify_eq. }
  unfold parse_id in Hid. rewrite Hid. cbn.
  assert (Hp' : people (current c2) !! id = Some p).
  { apply Hiff. by exists row. }
  by rewrite Hp'.
Qed.

Lemma make_people_stores_witness :
  check_for_id (current (make_people two_names (fresh untyped_store)).2)
    "0000002"
  = Some (2, Person "Bob" None None None).
Proof.
  destruct (make_people_stores two_names (fresh untyped_store)
              (make_people two_names (fresh untyped_store)).2)
    as (_ & _ & _ & _ & _ & _ & H).
  - vm_compute. reflexivity.
  - rewrite Forall_forall in H.
    destruct (H (NameBasics.Row "nm0000002" "Bob" "\N" "\N" "\N"))
      as (id & p & Hrow & _ & Hlookup).
    + right. left.
    + vm_compute in Hrow. simplify_eq. exact Hlookup.
Defined.

Lemma ret_or_aborts (m : DB unit) c :
  (exists c', m c = (Ret tt, c')) \/ aborts m c.
Proof.
  unfold aborts. destruct (m c) as [[[]|e] c'] eqn:E; [left|right]; eauto.
Qed.

Lemma omap_NoDup_lookup {A B} (f : A -> option B) (l : list A) i j x y b :
  NoDup (omap f l) -> l !! i = Some x -> l !! j = Some y ->
  f x = Some b -> f y = Some b -> i = j.
Proof.
  revert i j. induction l as [|a l IH]; intros i j Hnd Hi Hj Hx Hy;
    [done|].
  assert (Hfresh : forall k z, f a = Some b -> l !! k = Some z ->
                               f z = Some b -> False).
  { intros k z Ha Hk Hz. cbn [omap list_omap] in Hnd. rewrite Ha in Hnd.
    apply NoDup_cons in Hnd as [Hnot _]. apply Hnot.
    apply list_elem_of_omap. exists z. split; [|done].
    by apply list_elem_of_lookup_2 in Hk. }
  assert (Htail : NoDup (omap f l)).
  { cbn [omap list_omap] in Hnd. destruct (f a); [|done].
    by apply NoDup_cons in Hnd as [_ ?]. }
  destruct i as [|i], j as [|j]; simpl in Hi, Hj; simplify_eq.
  - done.
  - destruct (Hfresh j y Hx Hj Hy).
  - destruct (Hfresh i x Hy Hi Hx).
  - f_equal. by apply IH.
Qed.

Lemma movie_of_row_id row id m :
  movie_of_row row = Some (id, m) -> parse_id (TitleBasics.tconst row) = Some id.
Proof.
  unfold movie_of_row. intros H.
  destruct (parse_id (TitleBasics.tconst row)); cbn in H; [|done].
  destruct (digits_value (TitleBasics.startYear row)); cbn in H; [|done].
  destruct (digits_value (TitleBasics.isAdult row)); cbn in H; [|done].
  destruct (digits_value (TitleBasics.runtimeMinutes row)); cbn in H; [|done].
  by simplify_eq.
Qed.

Lemma person_of_row_id row id p :
  person_of_row row = Some (id, p) -> parse_id (NameBasics.nconst row) = Some id.
Proof.
  unfold person_of_row. intros H.
  destruct (parse_id (NameBasics.nconst row)); cbn in H; [|done].
  destruct (int_value (NameBasics.birthYear row)); cbn in H; [|done].
  destruct (int_value (NameBasics.deathYear row)); cbn in H; [|done].
  by simplify_eq.
Qed.

Lemma make_movies_rows file c c' :
  make_movies file c = (Ret tt, c') ->
  exists c1 c2, aborted c1 = false
                /\ for_rows movies_row file 0 c1 = (Ret tt, c2).
Proof.
  unfold make_movies. intros H.
  apply bind_ret in H as (u & c1 & H1 & H).
  apply execute_update_ret in H1 as (_ & _ & _ & Ea1).
  apply bind_ret in H as ([] & c2 & H2 & H). eauto.
Qed.

Lemma make_people_rows file c c' :
  make_people file c = (Ret tt, c') ->
  exists c1 c2, aborted c1 = false
                /\ for_rows people_row file 0 c1 = (Ret tt, c2).
Proof.
  unfold make_people. intros H.
  apply bind_ret in H as (u & c1 & H1 & H).
  apply execute_update_ret in H1 as (_ & _ & _ & Ea1).
  apply bind_ret in H as ([] & c2 & H2 & H). eauto.
Qed.

(** X4. [make_movies] and [make_people] abort on a dump in which two rows
    carry the same id (two spellings of one number count as the same), and
    on a dump with an id outside the range of INTEGER. *)
Theorem primary_key_aborts :
  (forall file c i j r1 r2 id,
      i <> j -> file !! i = Some r1 -> file !! j = Some r2 ->
      parse_id (TitleBasics.tconst r1) = Some id ->
      parse_id (TitleBasics.tconst r2) = Some id ->
      aborts (make_movies file) c)
  /\ (forall file c i j r1 r2 id,
        i <> j -> file !! i = Some r1 -> file !! j = Some r2 ->
        parse_id (NameBasics.nconst r1) = Some id ->
        parse_id (NameBasics.nconst r2) = Some id ->
        aborts (make_people file) c)
  /\ (forall file c row id,
        row ∈ file -> parse_id (TitleBasics.tconst row) = Some id ->
        in_integer id = false -> aborts (make_movies file) c)
  /\ (forall file c row id,
        row ∈ file -> parse_id (NameBasics.nconst row) = Some id ->
        in_integer id = false -> aborts (make_people file) c).
Proof.
  split; [|split; [|split]].
  - intros file c i j r1 r2 id Hij H1 H2 Hid1 Hid2.
    destruct (ret_or_aborts (make_movies file) c) as [[c' E]|?]; [|done].
    apply make_movies_rows in E as (c1 & c2 & Ea & E).
    destruct (movies_rows_ret _ _ _ _ Ea E) as (_ & _ & _ & _ & _ & Hall & Hnd).
    rewrite Forall_forall in Hall.
    destruct (Hall r1 (list_elem_of_lookup_2 _ _ _ H1)) as (a & m1 & Hr1 & _).
    destruct (Hall r2 (list_elem_of_lookup_2 _ _ _ H2)) as (b & m2 & Hr2 & _).
    pose proof (movie_of_row_id _ _ _ Hr1). pose proof (movie_of_row_id _ _ _ Hr2).
    simplify_eq. destruct Hij.
    apply (omap_NoDup_lookup _ _ _ _ _ _ id Hnd H1 H2); [by rewrite Hr1|by rewrite Hr2].
  - intros file c i j r1 r2 id Hij H1 H2 Hid1 Hid2.
    destruct (ret_or_aborts (make_people file) c) as [[c' E]|?]; [|done].
    apply make_people_rows in E as (c1 & c2 & Ea & E).
    destruct (people_rows_ret _ _ _ _ Ea E) as (_ & _ & _ & _ & _ & Hall & Hnd).
    rewrite Forall_forall in Hall.
    destruct (Hall r1 (list_elem_of_lookup_2 _ _ _ H1)) as (a & m1 & Hr1 & _).
    destruct (Hall r2 (list_elem_of_lookup_2 _ _ _ H2)) as (b & m2 & Hr2 & _).
    pose proof (person_of_row_id _ _ _ Hr1). pose proof (person_of_row_id _ _ _ Hr2).
    simplify_eq. destruct Hij.
    apply (omap_NoDup_lookup _ _ _ _ _ _ id Hnd H1 H2); [by rewrite Hr1|by rewrite Hr2].
  - intros file c row id Hin Hid Hwide.
    destruct (ret_or_aborts (make_movies file) c) as [[c' E]|?]; [|done].
    apply make_movies_rows in E as (c1 & c2 & Ea & E).
    destruct (movies_rows_ret _ _ _ _ Ea E) as (_ & _ & _ & _ & _ & Hall & _).
    rewrite Forall_forall in Hall.
    destruct (Hall row Hin) as (a & m & Hr & Hok & _).
    apply movie_of_row_id in Hr. simplify_eq. congruence.
  - intros file c row id Hin Hid Hwide.
    destruct (ret_or_aborts (make_people file) c) as [[c' E]|?]; [|done].
    apply make_people_rows in E as (c1 & c2 & Ea & E).
    destruct (people_rows_ret _ _ _ _ Ea E) as (_ & _ & _ & _ & _ & Hall & _).
    rewrite Forall_forall in Hall.
    destruct (Hall row Hin) as (a & m & Hr & Hok & _).
    apply person_of_row_id in Hr. simplify_eq. congruence.
Qed.

Lemma primary_key_aborts_witness :
  aborts (make_movies
            [TitleBasics.Row "tt0000010" "movie" "Ten" "1999" "0" "90" "Drama";
             TitleBasics.Row "tt10" "short" "Again" "\N" "0" "\N" "\N"])
    (fresh no_tables)
  /\ aborts (make_people [NameBasics.Row "nm3000000000" "Cy" "\N" "\N" "\N"])
       (fresh no_tables).
Proof.
  destruct primary_key_aborts as (Hdup & _ & _ & Hwide). split.
  - eapply (Hdup _ _ 0%nat 1%nat); [discriminate|reflexivity..].
  - apply (Hwide _ _ (NameBasics.Row "nm3000000000" "Cy" "\N" "\N" "\N")
             3000000000); [left|reflexivity|reflexivity].
Defined.

Lemma ratings_row_ret row count c n c' :
  ratings_row row count c = (Ret n, c') ->
  aborted c = false /\ aborted c' = false
  /\ movies (current c') = movies (current c)
  /\ people (current c') = people (current c)
  /\ stars (current c') = stars (current c)
  /\ exists o, rating_of_row (movies (current c)) row = Some o
               /\ ratings (current c') = ratings (current c) ++ option_list o
               /\ (forall r, o = Some r ->
                             is_Some (movies (current c) !! r_movie_id r)).
Proof.
  unfold ratings_row. intros H.
  apply bind_ret in H as (id & c1 & H1 & H).
  apply value_error_ret in H1 as [Hid ->].
  apply bind_ret in H as (found & c1 & H1 & H).
  apply execute_select_ret in H1 as (Ea & -> & ->).
  unfold rating_of_row. rewrite Hid. cbn. unfold select_movie in H.
  destruct (movies (current c) !! id) as [m|] eqn:Em.
  - apply bind_ret in H as (avg & c1 & H1 & H).
    apply float_or_null_ret in H1 as [Havg ->].
    apply bind_ret in H as (votes & c1 & H1 & H).
    apply int_or_null_ret in H1 as [Hvotes ->].
    apply bind_ret in H as (u & c1 & H1 & H).
    apply execute_update_ret in H1 as (_ & Hins & _ & Ea1).
    apply bind_ret in H as (u' & c2 & H2 & H).
    apply (commit_batch_ret _ _ _ _ Ea1) in H2 as [Hcur Ea2].
    db_step H. simplify_eq.
    unfold insert_rating in Hins. destruct (negb _); [done|].
    cbn [r_movie_id] in Hins.
    rewrite bool_decide_eq_true_2, andb_false_r in Hins by by rewrite Em.
    simplify_eq.
    rewrite Hcur, <- Hins. cbn. rewrite Havg, Hvotes. cbn.
    repeat split; try done. eexists. split; [reflexivity|]. split; [done|].
    intros r ?. simplify_eq. cbn. by rewrite Em.
  - db_step H. simplify_eq. repeat split; try done.
    exists None. split; [done|]. split; [by rewrite app_nil_r|done].
Qed.

Lemma ratings_rows_ret rows :
  forall count c c',
    aborted c = false ->
    for_rows ratings_row rows count c = (Ret tt, c') ->
    aborted c' = false
    /\ movies (current c') = movies (current c)
    /\ people (current c') = people (current c)
    /\ stars (current c') = stars (current c)
    /\ exists os,
        Forall2 (fun row o => rating_of_row (movies (current c)) row = Some o)
          rows os
        /\ ratings (current c') = ratings (current c) ++ omap id os
        /\ Forall (fun r => is_Some (movies (current c) !! r_movie_id r))
             (omap id os).
Proof.
  induction rows as [|row rows IH]; intros count c c' Ea H.
  - apply for_rows_nil_ret in H as ->. repeat split; try done.
    exists []. split; [constructor|]. split; [by rewrite app_nil_r|constructor].
  - cbn [for_rows] in H. apply bind_ret in H as (n & c1 & H1 & H).
    apply ratings_row_ret in H1
      as (_ & Ea1 & Hm & Hp & Hs & o & Ho & Hr & Hres).
    destruct (IH _ _ _ Ea1 H) as (Ea' & Hm' & Hp' & Hs' & os & Hos & Hr' & Hall).
    rewrite Hm in *. split; [done|]. split; [done|].
    split; [congruence|]. split; [congruence|].
    exists (o :: os). split; [by constructor|].
    rewrite Hr', Hr, <- app_assoc. destruct o as [r|]; cbn.
    + split; [done|]. constructor; [by apply Hres|done].
    + by split.
Qed.

(** X5. When [make_ratings] returns, [ratings] holds, in the order of the
    dump, the normalised rows whose movie is in [movies], and nothing else:
    a row of an absent movie is dropped without a trace, no row
    references an absent movie, the other tables are untouched and the
    result is committed. *)
Theorem make_ratings_stores file c c' :
  make_ratings file c = (Ret tt, c') ->
  committed c' = current c'
  /\ movies (current c') = movies (current c)
  /\ people (current c') = people (current c)
  /\ stars (current c') = stars (current c)
  /\ exists os,
      Forall2 (fun row o => rating_of_row (movies (current c)) row = Some o)
        file os
      /\ ratings (current c') = omap id os
      /\ Forall (fun r => is_Some (movies (current c') !! r_movie_id r))
           (ratings (current c')).
Proof.
  unfold make_ratings. intros H.
  apply bind_ret in H as (u & c1 & H1 & H).
  apply execute_update_ret in H1 as (Ea & Hre & _ & Ea1).
  unfold recreate_ratings in Hre. simplify_eq.
  apply bind_ret in H as ([] & c2 & H2 & H).
  destruct (ratings_rows_ret _ _ _ _ Ea1 H2)
    as (Ea2 & Hm & Hp & Hs & os & Hos & Hr & Hall).
  apply (commit_ret _ _ _ Ea2) in H as ->. cbn [committed current].
  rewrite <- Hre in Hm, Hp, Hs, Hos, Hr, Hall. cbn in Hm, Hp, Hs, Hos, Hr, Hall.
  split; [done|]. split; [done|]. split; [done|]. split; [done|].
  exists os. split; [done|]. split; [done|]. by rewrite Hr, Hm.
Qed.

Lemma make_ratings_stores_witness :
  ratings (current (make_ratings
                      [TitleRatings.Row "tt0000005" "\N" "250";
                       TitleRatings.Row "tt0000006" "bad" "bad"]
                      (fresh untyped_store)).2)
  = [Rating 5 None (Some 250)].
Proof.
  destruct (make_ratings_stores
              [TitleRatings.Row "tt0000005" "\N" "250";
               TitleRatings.Row "tt0000006" "bad" "bad"]
              (fresh untyped_store)
              (make_ratings
                 [TitleRatings.Row "tt0000005" "\N" "250";
                  TitleRatings.Row "tt0000006" "bad" "bad"]
                 (fresh untyped_store)).2)
    as (_ & _ & _ & _ & os & Hos & -> & _).
  - vm_compute. reflexivity.
  - apply Forall2_cons_inv_l in Hos as (o1 & os1 & H1 & Hos & ->).
    apply Forall2_cons_inv_l in Hos as (o2 & os2 & H2 & Hos & ->).
    apply Forall2_nil_inv_l in Hos as ->.
    vm_compute in H1, H2. by simplify_eq.
Defined.

Lemma same_pair_exists s l :
  existsb (same_pair s) l = true <-> pair_of s ∈ pair_of <$> l.
Proof.
  rewrite existsb_exists, list_elem_of_fmap. unfold same_pair, pair_of.
  split.
  - intros (x & Hin & E). apply andb_true_iff in E as [E1 E2].
    apply Z.eqb_eq in E1, E2. exists x. split; [congruence|].
    by apply list_elem_of_In.
  - intros (x & E & Hin). exists x. split; [by apply list_elem_of_In|].
    injection E as -> ->. by rewrite !Z.eqb_refl.
Qed.

Lemma stars_row_ret row count c n c' :
  stars_row row count c = (Ret n, c') ->
  aborted c = false /\ aborted c' = false
  /\ movies (current c') = movies (current c)
  /\ ratings (current c') = ratings (current c)
  /\ people (current c') = people (current c)
  /\ exists s, star_of_row row = Some s
               /\ stars (current c')
                  = if eligible (current c) s
                       && negb (existsb (same_pair s) (stars (current c)))
                    then stars (current c) ++ [s] else stars (current c).
Proof.
  unfold stars_row. intros H.
  apply bind_ret in H as (pid & c1 & H1 & H).
  apply value_error_ret in H1 as [Hpid ->].
  apply bind_ret in H as (mid & c1 & H1 & H).
  apply value_error_ret in H1 as [Hmid ->].
  apply bind_ret in H as (found & c1 & H1 & H).
  apply execute_select_ret in H1 as (Ea & -> & ->).
  unfold star_of_row. rewrite Hpid, Hmid. cbn. unfold eligible.
  unfold select_person in H.
  destruct (people (current c) !! pid) as [p|] eqn:Ep.
  - apply bind_ret in H as (found & c1 & H1 & H).
    apply execute_select_ret in H1 as (_ & -> & ->).
    unfold select_movie in H.
    destruct (movies (current c) !! mid) as [m|] eqn:Em.
    + apply bind_ret in H as (u & c1 & H1 & H).
      apply execute_update_ret in H1 as (_ & Hins & _ & Ea1).
      apply bind_ret in H as (u' & c2 & H2 & H).
      apply (commit_batch_ret _ _ _ _ Ea1) in H2 as [Hcur Ea2].
      db_step H. simplify_eq. rewrite Hcur.
      unfold insert_star in Hins. cbn [person_id movie_id] in Hins.
      rewrite !bool_decide_eq_true_2, !andb_false_r in Hins
        by (by rewrite ?Ep, ?Em).
      cbn [orb] in Hins.
      assert (Hs : stars (current c1)
                   = if negb (existsb (same_pair
                          (Star pid mid (TitlePrincipals.category row)))
                          (stars (current c)))
                     then stars (current c)
                          ++ [Star pid mid (TitlePrincipals.category row)]
                     else stars (current c)).
      { destruct (existsb _ _); simplify_eq; by rewrite <- Hins. }
      assert (movies (current c1) = movies (current c)
              /\ ratings (current c1) = ratings (current c)
              /\ people (current c1) = people (current c)) as (? & ? & ?).
      { destruct (existsb _ _); simplify_eq; by rewrite <- Hins. }
      do 5 (split; [done|]). eexists. split; [done|]. cbn.
      rewrite bool_decide_eq_true_2; [done|]. rewrite Ep, Em. split; eauto.
    + db_step H. simplify_eq.
      do 5 (split; [done|]). eexists. split; [done|]. cbn.
      rewrite bool_decide_eq_false_2; [done|]. rewrite Em.
      intros [_ [? ?]]; done.
  - db_step H. simplify_eq.
    do 5 (split; [done|]). eexists. split; [done|]. cbn.
    rewrite bool_decide_eq_false_2; [done|]. rewrite Ep.
    intros [[? ?] _]; done.
Qed.

Lemma stars_rows_ret rows :
  forall count c c',
    aborted c = false -> NoDup (pair_of <$> stars (current c)) ->
    for_rows stars_row rows count c = (Ret tt, c') ->
    aborted c' = false
    /\ movies (current c') = movies (current c)
    /\ ratings (current c') = ratings (current c)
    /\ people (current c') = people (current c)
    /\ NoDup (pair_of <$> stars (current c'))
    /\ (forall s, s ∈ stars (current c') ->
          s ∈ stars (current c)
          \/ eligible (current c) s = true
             /\ exists row, row ∈ rows /\ star_of_row row = Some s)
    /\ (forall s, s ∈ stars (current c) -> s ∈ stars (current c'))
    /\ Forall (fun row => exists s,
                 star_of_row row = Some s
                 /\ (eligible (current c) s = true ->
                     pair_of s ∈ pair_of <$> stars (current c'))) rows.
Proof.
  induction rows as [|row rows IH]; intros count c c' Ea Hnd H.
  - apply for_rows_nil_ret in H as ->. do 5 (split; [done|]).
    split; [intros s ?; by left|]. split; [done|]. constructor.
  - cbn [for_rows] in H. apply bind_ret in H as (n & c1 & H1 & H).
    apply stars_row_ret in H1 as (_ & Ea1 & Hm & Hr & Hp & s0 & Hrow & Hs).
    assert (Hel : forall s, eligible (current c1) s = eligible (current c) s).
    { intros s. unfold eligible. by rewrite Hm, Hp. }
    assert (Hnd1 : NoDup (pair_of <$> stars (current c1))).
    { rewrite Hs. destruct (eligible (current c) s0); [|done]. cbn.
      destruct (existsb _ _) eqn:Ex; [done|]. cbn.
      rewrite fmap_app. apply NoDup_app. split; [done|]. split.
      - intros x Hx Hx'. apply list_elem_of_singleton in Hx'. subst.
        apply same_pair_exists in Hx. congruence.
      - apply NoDup_singleton. }
    assert (Hsub : forall s, s ∈ stars (current c) -> s ∈ stars (current c1)).
    { intros s Hin. rewrite Hs. destruct (_ && _); [|done].
      apply elem_of_app. by left. }
    destruct (IH _ _ _ Ea1 Hnd1 H)
      as (Ea' & Hm' & Hr' & Hp' & Hnd' & Hfrom & Hkeep & Hall).
    split; [done|]. split; [congruence|]. split; [congruence|].
    split; [congruence|]. split; [done|]. split; [|split].
    + intros s Hin. destruct (Hfrom s Hin) as [Hin1|[He (r & Hr1 & Hr2)]].
      * rewrite Hs in Hin1.
        destruct (eligible (current c) s0) eqn:Ee; [|by left]. cbn in Hin1.
        destruct (existsb _ _); [by left|]. cbn in Hin1.
        apply elem_of_app in Hin1 as [?|Hin1]; [by left|].
        apply list_elem_of_singleton in Hin1 as ->. right. split; [done|].
        exists row. split; [left|done].
      * right. split; [by rewrite <- Hel|]. exists r. split; [by right|done].
    + intros s Hin. by apply Hkeep, Hsub.
    + constructor.
      * exists s0. split; [done|]. intros He.
        assert (Hin1 : pair_of s0 ∈ pair_of <$> stars (current c1)).
        { rewrite Hs, He. cbn. destruct (existsb _ _) eqn:Ex; cbn.
          - by apply same_pair_exists.
          - rewrite fmap_app. apply elem_of_app. right. left. }
        apply list_elem_of_fmap in Hin1 as (x & E & Hx).
        apply list_elem_of_fmap. exists x. split; [done|]. by apply Hkeep.
      * eapply Forall_impl; [exact Hall|]. intros r (s & Hr1 & Hr2).
        exists s. split; [done|]. intros He. apply Hr2. by rewrite Hel.
Qed.

(** X6. When [make_stars] returns, [stars] holds one row for every pair of
    a person and a movie, every row has both ends in the tables and comes
    from a row of the dump, every row of the dump with both ends in the
    tables has its pair stored, a row with an absent end is dropped
    without a trace, the other tables are untouched and the result is
    committed. *)
Theorem make_stars_stores file c c' :
  make_stars file c = (Ret tt, c') ->
  committed c' = current c'
  /\ movies (current c') = movies (current c)
  /\ ratings (current c') = ratings (current c)
  /\ people (current c') = people (current c)
  /\ NoDup (pair_of <$> stars (current c'))
  /\ (forall s, s ∈ stars (current c') ->
        eligible (current c') s = true
        /\ exists row, row ∈ file /\ star_of_row row = Some s)
  /\ Forall (fun row => exists s,
               star_of_row row = Some s
               /\ (eligible (current c') s = true ->
                   pair_of s ∈ pair_of <$> stars (current c'))) file.
Proof.
  unfold make_stars. intros H.
  apply bind_ret in H as (u & c1 & H1 & H).
  apply execute_update_ret in H1 as (Ea & Hre & _ & Ea1).
  unfold recreate_stars in Hre. simplify_eq.
  apply bind_ret in H as ([] & c2 & H2 & H).
  assert (Hnd1 : NoDup (pair_of <$> stars (current c1))).
  { rewrite <- Hre. cbn. constructor. }
  destruct (stars_rows_ret _ _ _ _ Ea1 Hnd1 H2)
    as (Ea2 & Hm & Hr & Hp & Hnd & Hfrom & _ & Hall).
  apply bind_ret in H as (u' & c3 & H3 & H).
  apply (commit_ret _ _ _ Ea2) in H3 as ->.
  apply commit_ret in H as ->; [|done]. cbn [committed current].
  assert (Hel : forall s, eligible (current c2) s = eligible (current c1) s).
  { intros s. unfold eligible. by rewrite Hm, Hp. }
  rewrite <- Hre in Hm, Hr, Hp. cbn in Hm, Hr, Hp.
  split; [done|]. split; [done|]. split; [done|]. split; [done|].
  split; [done|]. split.
  - intros s Hin. destruct (Hfrom s Hin) as [Hin1|[He ?]].
    + rewrite <- Hre in Hin1. by apply elem_of_nil in Hin1.
    + split; [by rewrite Hel|done].
  - eapply Forall_impl; [exact Hall|]. intros r (s & Hr1 & Hr2).
    exists s. split; [done|]. intros He. apply Hr2. by rewrite <- Hel.
Qed.

Lemma make_stars_stores_witness :
  NoDup (pair_of <$> stars (current
           (make_stars (one_principal ++ one_principal)
              (make_people two_names
                 (make_movies one_title (fresh no_tables)).2).2).2)).
Proof.
  destruct (make_stars_stores (one_principal ++ one_principal)
              (make_people two_names
                 (make_movies one_title (fresh no_tables)).2).2
              (make_stars (one_principal ++ one_principal)
                 (make_people two_names
                    (make_movies one_title (fresh no_tables)).2).2).2)
    as (_ & _ & _ & _ & H & _).
  - vm_compute. reflexivity.
  - exact H.
Defined.

(** ** The cleaning statements, one by one *)

Lemma bool_filter_elem {A} (f : A -> bool) l x :
  x ∈ List.filter f l <-> x ∈ l /\ f x = true.
Proof. rewrite !list_elem_of_In. apply filter_In. Qed.

Lemma bool_filter_all {A} (f : A -> bool) l :
  (forall x, x ∈ l -> f x = true) -> List.filter f l = l.
Proof.
  induction l as [|a l IH]; intros H; [done|]. cbn.
  rewrite (H a) by left. f_equal. apply IH. intros x Hx. apply H. by right.
Qed.

Lemma delete_movies_lookup doomed t id m :
  movies (delete_movies doomed t) !! id = Some m
  <-> movies t !! id = Some m /\ doomed id m = false.
Proof. unfold delete_movies. cbn [movies]. apply map_lookup_filter_Some. Qed.

Lemma delete_movies_none doomed t :
  (forall id m, movies t !! id = Some m -> doomed id m = false) ->
  delete_movies doomed t = t.
Proof.
  intros H. destruct t as [M R P S K]. unfold delete_movies. cbn in *.
  f_equal.
  - apply map_filter_id. intros id m Hm. by apply H.
  - destruct (ratings_movie K); [|done].
    apply bool_filter_all. intros r _.
    destruct (M !! r_movie_id r) eqn:E; [|done]. by rewrite (H _ _ E).
  - destruct (stars_movie K); [|done].
    apply bool_filter_all. intros s _.
    destruct (M !! movie_id s) eqn:E; [|done]. by rewrite (H _ _ E).
Qed.

(** What a DELETE on [movies] does, when [selects] is what its WHERE
    clause is true of. *)
Lemma delete_movies_rule doomed (selects : movie -> Prop) t :
  (forall id m, doomed id m = true <-> selects m) ->
  (forall id m,
      movies (delete_movies doomed t) !! id = Some m
      <-> movies t !! id = Some m /\ ~ selects m)
  /\ people (delete_movies doomed t) = people t
  /\ keys (delete_movies doomed t) = keys t
  /\ (forall r,
        r ∈ ratings (delete_movies doomed t)
        <-> r ∈ ratings t
            /\ (ratings_movie (keys t) = true ->
                forall m, movies t !! r_movie_id r = Some m -> ~ selects m))
  /\ (forall s,
        s ∈ stars (delete_movies doomed t)
        <-> s ∈ stars t
            /\ (stars_movie (keys t) = true ->
                forall m, movies t !! movie_id s = Some m -> ~ selects m))
  /\ delete_movies doomed (delete_movies doomed t) = delete_movies doomed t.
Proof.
  intros Hsel.
  assert (Hnot : forall id m, doomed id m = false <-> ~ selects m).
  { intros id m. rewrite <- (Hsel id m). by destruct (doomed id m). }
  assert (Hgone : forall id,
            match movies t !! id with
            | Some m => doomed id m
            | None => false
            end = false
            <-> forall m, movies t !! id = Some m -> ~ selects m).
  { intros id. destruct (movies t !! id) as [m|].
    - rewrite (Hnot id m). split; [by intros H m' [= <-]|auto].
    - split; [by intros _ m' ?|done]. }
  split; [|split; [done|split; [done|split; [|split]]]].
  - intros id m. rewrite delete_movies_lookup. by rewrite Hnot.
  - intros r. unfold delete_movies. cbn [ratings].
    destruct (ratings_movie (keys t)).
    + rewrite bool_filter_elem, negb_true_iff, Hgone. by split; intros [? H]; auto.
    + split; [by intros ?|by intros [? _]].
  - intros s. unfold delete_movies. cbn [stars].
    destruct (stars_movie (keys t)).
    + rewrite bool_filter_elem, negb_true_iff, Hgone. by split; intros [? H]; auto.
    + split; [by intros ?|by intros [? _]].
  - apply delete_movies_none. intros id m Hm.
    by apply delete_movies_lookup in Hm as [_ ?].
Qed.

Lemma existsb_eqb_elem (s : string) l :
  existsb (String.eqb s) l = true <-> s ∈ l.
Proof.
  rewrite existsb_exists. split.
  - intros (x & Hin & E). apply String.eqb_eq in E as ->.
    by apply list_elem_of_In.
  - intros Hin. exists s. split; [by apply list_elem_of_In|].
    apply String.eqb_refl.
Qed.

Lemma prefix_spec needle text :
  String.prefix needle text = true
  <-> exists after, text = (needle ++ after)%string.
Proof.
  revert text. induction needle as [|a needle IH]; intros text.
  - split; [intros _; by exists text|intros _; by destruct text].
  - destruct text as [|b text]; cbn; [split; [done|by intros [? ?]]|].
    destruct (Ascii.ascii_dec a b) as [->|Hne].
    + rewrite IH. split; intros [after E]; exists after.
      * cbn. by rewrite E.
      * cbn in E. by injection E.
    + split; [done|]. intros [after E]. cbn in E. injection E as E1 E2.
      done.
Qed.

Lemma contains_spec needle text :
  contains needle text = true <-> occurs_in needle text.
Proof.
  unfold occurs_in. induction text as [|b text IH]; cbn [contains].
  - rewrite orb_false_r, prefix_spec. split.
    + intros [after E]. by exists ""%string, after.
    + intros (before & after & E). destruct before as [|c before]; [|done].
      by exists after.
  - rewrite orb_true_iff, prefix_spec, IH. split.
    + intros [[after E]|(before & after & E)].
      * by exists ""%string, after.
      * exists (String b before), after. cbn. by rewrite E.
    + intros (before & after & E). destruct before as [|c before].
      * left. by exists after.
      * right. cbn in E. exists before, after. by injection E.
Qed.

Lemma adult_rule m :
  selected (sql_eq_int (int_val (is_adult m)) 1) = true
  <-> is_adult m = Some 1.
Proof.
  destruct (is_adult m) as [z|]; cbn; [|done].
  destruct (Z.eqb_spec z 1) as [->|Hne]; [done|].
  split; [done|]. intros [= ->]. done.
Qed.

Lemma title_type_rule m :
  selected (sql_not_in (text_val (title_type m)) retained_title_types) = true
  <-> exists type, title_type m = Some type /\ type ∉ retained_title_types.
Proof.
  destruct (title_type m) as [type|]; cbn [text_val sql_not_in selected].
  - destruct (existsb (String.eqb type) retained_title_types) eqn:E; cbn.
    + apply existsb_eqb_elem in E. split; [done|].
      intros (type' & [= <-] & Hout). done.
    + split; [|done]. intros _. exists type. split; [done|].
      intros Hin. apply existsb_eqb_elem in Hin. congruence.
  - split; [done|]. by intros (? & ? & _).
Qed.

Lemma genres_rule m :
  selected
    (sql_or (sql_or (sql_or (sql_like_contains (text_val (genres m)) "News")
                       (sql_like_contains (text_val (genres m)) "Talk-Show"))
               (sql_like_contains (text_val (genres m)) "Reality-TV"))
       (sql_like_contains (text_val (genres m)) "Adult")) = true
  <-> exists text genre, genres m = Some text /\ genre ∈ dropped_genres
                         /\ occurs_in genre text.
Proof.
  destruct (genres m) as [text|]; cbn [text_val sql_like_contains].
  - split.
    + intros H. exists text.
      destruct (contains "News" text) eqn:E1;
        [exists "News"%string; split; [done|];
         split; [set_solver|by apply contains_spec]|].
      destruct (contains "Talk-Show" text) eqn:E2;
        [exists "Talk-Show"%string; split; [done|];
         split; [set_solver|by apply contains_spec]|].
      destruct (contains "Reality-TV" text) eqn:E3;
        [exists "Reality-TV"%string; split; [done|];
         split; [set_solver|by apply contains_spec]|].
      destruct (contains "Adult" text) eqn:E4;
        [exists "Adult"%string; split; [done|];
         split; [set_solver|by apply contains_spec]|].
      done.
    + intros (text' & genre & [= <-] & Hin & Hocc).
      apply contains_spec in Hocc. unfold dropped_genres in Hin.
      repeat (apply elem_of_cons in Hin as [->|Hin];
              [rewrite Hocc; by repeat (destruct (contains _ _))|]).
      by apply elem_of_nil in Hin.
  - split; [done|]. by intros (? & ? & ? & _).
Qed.

(** X7. Each of the three statements of [clean_data] that test columns
    of [movies] returns and deletes exactly the movies its rule names: the
    adult ones, those of a known title type outside the retained ones,
    those with a known genre text in which "News", "Talk-Show",
    "Reality-TV" or "Adult" occurs; a movie for which the tested column
    is NULL stays. [people] and the keys are left alone. A [ratings] or
    [stars] row goes exactly when its key to [movies] is in place and its
    movie is deleted; where [make_movies] has dropped the key the row
    stays, without its movie. Run again, the statement changes nothing. *)
Theorem movie_statements_cascade :
  Forall (fun rule : (tables -> res tables) * (movie -> Prop) =>
            forall t, exists t',
              rule.1 t = Ret t'
              /\ (forall id m,
                    movies t' !! id = Some m
                    <-> movies t !! id = Some m /\ ~ rule.2 m)
              /\ people t' = people t
              /\ keys t' = keys t
              /\ (forall r,
                    r ∈ ratings t'
                    <-> r ∈ ratings t
                        /\ (ratings_movie (keys t) = true ->
                            forall m, movies t !! r_movie_id r = Some m ->
                                      ~ rule.2 m))
              /\ (forall s,
                    s ∈ stars t'
                    <-> s ∈ stars t
                        /\ (stars_movie (keys t) = true ->
                            forall m, movies t !! movie_id s = Some m ->
                                      ~ rule.2 m))
              /\ rule.1 t' = Ret t')
    movie_rules.
Proof.
  assert (H : forall doomed (selects : movie -> Prop),
             (forall (id : Z) m, doomed id m = true <-> selects m) ->
             forall t, exists t',
               Ret (delete_movies doomed t) = Ret t'
               /\ (forall id m,
                     movies t' !! id = Some m
                     <-> movies t !! id = Some m /\ ~ selects m)
               /\ people t' = people t
               /\ keys t' = keys t
               /\ (forall r,
                     r ∈ ratings t'
                     <-> r ∈ ratings t
                         /\ (ratings_movie (keys t) = true ->
                             forall m, movies t !! r_movie_id r = Some m ->
                                       ~ selects m))
               /\ (forall s,
                     s ∈ stars t'
                     <-> s ∈ stars t
                         /\ (stars_movie (keys t) = true ->
                             forall m, movies t !! movie_id s = Some m ->
                                       ~ selects m))
               /\ Ret (delete_movies doomed t') = Ret t').
  { intros doomed selects Hsel t. eexists. split; [reflexivity|].
    destruct (delete_movies_rule doomed selects t Hsel)
      as (? & ? & ? & ? & ? & Hi).
    do 5 (split; [done|]). by rewrite Hi. }
  unfold movie_rules. constructor; [|constructor; [|constructor; [|constructor]]].
  - cbn [fst snd]. apply H. intros _ m. apply adult_rule.
  - cbn [fst snd]. apply H. intros _ m. apply title_type_rule.
  - cbn [fst snd]. apply H. intros _ m. apply genres_rule.
Qed.

(** The adult title with a rating and an edge. After one load the
    statement takes the two rows with the movie. After [make_movies] is
    run once more, its DROP TABLE has taken the keys to [movies] away: the
    statement deletes the movie and leaves the two rows. *)
Example cascade_after_reload :
  let load :=
    make_movies two_titles;;
    make_ratings [TitleRatings.Row "tt0000011" "6.0" "50"];;
    make_people two_names;;
    make_stars [TitlePrincipals.Row "tt0000011" "nm0000001" "actress"] in
  let once := committed (load (fresh no_tables)).2 in
  let twice := committed ((load;; make_movies two_titles)
                            (fresh no_tables)).2 in
  keys once = Keys true true true
  /\ (exists t', delete_adult once = Ret t'
                 /\ movies t' !! 11 = None
                 /\ r_movie_id <$> ratings t' = []
                 /\ movie_id <$> stars t' = [])
  /\ keys twice = Keys false true false
  /\ (exists t', delete_adult twice = Ret t'
                 /\ movies t' !! 11 = None
                 /\ r_movie_id <$> ratings t' = [11]
                 /\ movie_id <$> stars t' = [11]).
Proof.
  cbv zeta. split; [vm_compute; reflexivity|].
  split; [eexists; split; [reflexivity|]; repeat split; vm_compute;
          reflexivity|].
  split; [vm_compute; reflexivity|].
  eexists. split; [reflexivity|]. repeat split; vm_compute; reflexivity.
Qed.

Lemma left_join_unmatched {L R} (on : L -> R -> bool) ls rs l :
  (l, None) ∈ left_join on ls rs
  <-> l ∈ ls /\ forall r, r ∈ rs -> on l r = false.
Proof.
  unfold left_join. rewrite list_elem_of_bind. split.
  - intros (l' & Hin & Hl'). destruct (List.filter (on l') rs) eqn:E.
    + apply list_elem_of_singleton in Hin. injection Hin as <-.
      split; [done|].
      intros r Hr. destruct (on l r) eqn:Eon; [|done].
      assert (r ∈ List.filter (on l) rs) as Hf by by apply bool_filter_elem.
      rewrite E in Hf. by apply elem_of_nil in Hf.
    + apply list_elem_of_fmap in Hin as (? & ? & _). done.
  - intros [Hl Hno]. exists l. split; [|done].
    destruct (List.filter (on l) rs) as [|r rest] eqn:E; [left|].
    assert (r ∈ List.filter (on l) rs) as Hf by (rewrite E; left).
    apply bool_filter_elem in Hf as [Hr Hon]. rewrite (Hno r Hr) in Hon.
    done.
Qed.

Lemma delete_people_none doomed t :
  (forall id p, people t !! id = Some p -> doomed id p = false) ->
  delete_people doomed t = t.
Proof.
  intros H. destruct t as [M R P S K]. unfold delete_people. cbn in *.
  f_equal.
  - apply map_filter_id. intros id p Hp. by apply H.
  - destruct (stars_person K); [|done].
    apply bool_filter_all. intros s _.
    destruct (P !! person_id s) eqn:E; [|done]. by rewrite (H _ _ E).
Qed.

(** The ids the subquery of the last statement selects: the persons
    without a [stars] row. *)
Lemma without_stars_ids t id :
  id ∈ (fun j : Z * person * option star => j.1.1)
       <$> List.filter
             (fun j => match j.2 with Some _ => false | None => true end)
             (left_join (fun ip s => ip.1 =? person_id s)
                (map_to_list (people t)) (stars t))
  <-> is_Some (people t !! id)
      /\ forall s, s ∈ stars t -> person_id s <> id.
Proof.
  rewrite list_elem_of_fmap. split.
  - intros ([[i p] o] & -> & Hj). apply bool_filter_elem in Hj as [Hj Ho].
    destruct o; [done|]. apply left_join_unmatched in Hj as [Hin Hno].
    apply elem_of_map_to_list in Hin. cbn. split; [by exists p|].
    intros s Hs E. specialize (Hno s Hs). cbn in Hno.
    apply Z.eqb_neq in Hno. congruence.
  - intros [[p Hp] Hno]. exists (id, p, None). split; [done|].
    apply bool_filter_elem. split; [|done].
    apply left_join_unmatched. split; [by apply elem_of_map_to_list|].
    intros s Hs. cbn. apply Z.eqb_neq. intros E. by apply (Hno s Hs).
Qed.

(** X8. The last statement of [clean_data], on its own, returns and
    keeps exactly the persons that have a [stars] row; it deletes no
    [stars] row (its cascade never fires), leaves [movies] and [ratings]
    alone, and changes nothing when it is run again. *)
Theorem delete_people_without_stars_exact t :
  exists t',
    delete_people_without_stars t = Ret t'
    /\ movies t' = movies t /\ ratings t' = ratings t /\ stars t' = stars t
    /\ (forall id p,
          people t' !! id = Some p <->
          people t !! id = Some p
          /\ exists s, s ∈ stars t /\ person_id s = id)
    /\ delete_people_without_stars t' = Ret t'.
Proof.
  eexists. split; [reflexivity|].
  assert (Hpeople : forall id p,
    people (delete_people
              (fun i _ => bool_decide
                 (i ∈ (fun j : Z * person * option star => j.1.1)
                      <$> List.filter
                            (fun j => match j.2 with
                                      | Some _ => false
                                      | None => true
                                      end)
                            (left_join (fun ip s => ip.1 =? person_id s)
                               (map_to_list (people t)) (stars t)))) t)
      !! id = Some p
    <-> people t !! id = Some p
        /\ exists s, s ∈ stars t /\ person_id s = id).
  { intros id p. unfold delete_people. cbn [people].
    rewrite map_lookup_filter_Some. cbn.
    rewrite bool_decide_eq_false, without_stars_ids. split.
    - intros [Hp Hno]. split; [done|].
      destruct (decide (Exists (fun s => person_id s = id) (stars t)))
        as [Hex|Hnex].
      + apply Exists_exists in Hex as (s & ? & ?). by exists s.
      + exfalso. apply Hno. split; [by exists p|]. intros s Hs E.
        apply Hnex, Exists_exists. by exists s.
    - intros [Hp (s & Hs & E)]. split; [done|].
      intros [_ Hno]. by apply (Hno s Hs). }
  assert (Hstars : stars (delete_people
              (fun i _ => bool_decide
                 (i ∈ (fun j : Z * person * option star => j.1.1)
                      <$> List.filter
                            (fun j => match j.2 with
                                      | Some _ => false
                                      | None => true
                                      end)
                            (left_join (fun ip s => ip.1 =? person_id s)
                               (map_to_list (people t)) (stars t)))) t)
           = stars t).
  { unfold delete_people. cbn [stars].
    destruct (stars_person (keys t)); [|done].
    apply bool_filter_all. intros s Hs.
    destruct (people t !! person_id s) eqn:E; [|done].
    apply negb_true_iff, bool_decide_eq_false. rewrite without_stars_ids.
    intros [_ Hno]. by apply (Hno s Hs). }
  split; [done|]. split; [done|]. split; [exact Hstars|].
  split; [exact Hpeople|].
  unfold delete_people_without_stars at 1. f_equal.
  apply delete_people_none. intros id p Hp.
  apply bool_decide_eq_false. rewrite without_stars_ids. intros [_ Hno].
  apply Hpeople in Hp as [_ (s & Hs & E)]. rewrite Hstars in Hno.
  by apply (Hno s Hs).
Qed.

(** ** The graph the queries read *)

(** X9. The answers of [find_contacts] make an undirected graph without
    loops: no id is listed twice, a person is never their own contact,
    [y] is a contact of [x] exactly when [x] is a contact of [y], every
    contact has a [stars] row, and a person without a [stars] row has no
    contact. *)
Theorem find_contacts_graph t x :
  NoDup (find_contacts t x)
  /\ (x ∉ find_contacts t x)
  /\ (forall y, y ∈ find_contacts t x <-> x ∈ find_contacts t y)
  /\ (forall y, y ∈ find_contacts t x ->
        exists s, s ∈ stars t /\ person_id s = y)
  /\ ((forall s, s ∈ stars t -> person_id s <> x) -> find_contacts t x = []).
Proof.
  split; [apply NoDup_remove_dups|]. split; [|split; [|split]].
  - intros H. by apply find_contacts_spec in H as [? _].
  - intros y. rewrite !find_contacts_spec. split; apply co_appear_sym.
  - intros y H. apply find_contacts_spec in H
      as (_ & s1 & s2 & _ & H2 & _ & _ & E). by exists s2.
  - intros Hno. destruct (find_contacts t x) as [|y rest] eqn:E; [done|].
    assert (Hy : y ∈ find_contacts t x) by (rewrite E; left).
    apply find_contacts_spec in Hy as (_ & s1 & _ & H1 & _ & _ & E1 & _).
    by destruct (Hno s1 H1).
Qed.

(** ** The description of a path *)

#[local] Instance votes_desc_total : Total votes_desc.
Proof. intros [x|] [y|]; simpl; auto. lia. Qed.

#[local] Instance votes_desc_trans : Transitive votes_desc.
Proof. intros [x|] [y|] [z|]; simpl; auto; try tauto. lia. Qed.

#[local] Instance by_votes_desc_total : Total by_votes_desc.
Proof. intros a b. apply votes_desc_total. Qed.

#[local] Instance by_votes_desc_trans : Transitive by_votes_desc.
Proof. intros a b c. apply votes_desc_trans. Qed.

Lemma info_rows_spec t a b row :
  row ∈ info_rows t a b <->
  exists s1 s2 p1 p2 m r,
    s1 ∈ stars t /\ s2 ∈ stars t /\ movie_id s1 = movie_id s2
    /\ person_id s1 = a /\ person_id s2 = b
    /\ people t !! a = Some p1 /\ people t !! b = Some p2
    /\ movies t !! movie_id s1 = Some m
    /\ r ∈ ratings t /\ r_movie_id r = movie_id s1
    /\ row = InfoRow.Row a (name p1) (category s1) (movie_id s1) (title m)
               (year m) (average r) (num_votes r) b (name p2) (category s2).
Proof.
  unfold info_rows. split.
  - intros Hin. apply list_elem_of_bind in Hin as (s1 & Hin & H1).
    apply list_elem_of_bind in Hin as (s2 & Hin & H2).
    destruct (_ && _) eqn:E; [|by apply elem_of_nil in Hin].
    apply andb_true_iff in E as [E E3]. apply andb_true_iff in E as [E1 E2].
    apply Z.eqb_eq in E1, E2, E3.
    destruct (people t !! person_id s1) as [p1|] eqn:Ep1;
      [|by apply elem_of_nil in Hin].
    destruct (people t !! person_id s2) as [p2|] eqn:Ep2;
      [|by apply elem_of_nil in Hin].
    destruct (movies t !! movie_id s1) as [m|] eqn:Em;
      [|by apply elem_of_nil in Hin].
    apply list_elem_of_fmap in Hin as (r & -> & Hr).
    apply bool_filter_elem in Hr as [Hr Er]. apply Z.eqb_eq in Er.
    exists s1, s2, p1, p2, m, r. subst a b. by repeat split.
  - intros (s1 & s2 & p1 & p2 & m & r & H1 & H2 & Em & Ea & Eb & Hp1 & Hp2
            & Hm & Hr & Er & ->).
    apply list_elem_of_bind. exists s1. split; [|done].
    apply list_elem_of_bind. exists s2. split; [|done].
    rewrite Em, Ea, Eb, !Z.eqb_refl. cbn [andb].
    rewrite Hp1, Hp2. rewrite <- Em, Hm.
    apply list_elem_of_fmap. exists r. split; [done|].
    apply bool_filter_elem. split; [done|]. by apply Z.eqb_eq.
Qed.

Lemma info_fetchone_Some t a b row :
  info_fetchone t a b = Some row ->
  row ∈ info_rows t a b
  /\ forall row', row' ∈ info_rows t a b -> by_votes_desc row row'.
Proof.
  unfold info_fetchone. intros H. apply head_Some in H as [rest Hsort].
  pose proof (merge_sort_Permutation by_votes_desc (info_rows t a b)) as Hp.
  pose proof (StronglySorted_merge_sort by_votes_desc (info_rows t a b))
    as Hs.
  rewrite Hsort in Hp, Hs. split.
  - rewrite <- Hp. left.
  - intros row' Hin. rewrite <- Hp in Hin.
    apply StronglySorted_inv in Hs as [_ Hall].
    apply elem_of_cons in Hin as [->|Hin].
    + destruct (by_votes_desc_total row row); done.
    + rewrite Forall_forall in Hall. by apply Hall.
Qed.

Lemma info_fetchone_None t a b :
  info_fetchone t a b = None <-> info_rows t a b = [].
Proof.
  unfold info_fetchone.
  pose proof (merge_sort_Permutation by_votes_desc (info_rows t a b)) as Hp.
  split.
  - intros H. destruct (merge_sort _ _); [|done].
    by apply Permutation_nil_l in Hp.
  - intros H. by rewrite H.
Qed.

Lemma complete_pair_describes t a b duo :
  complete_pair t a b = Done duo -> describes t a b duo.
Proof.
  unfold complete_pair. intros H.
  destruct (info_fetchone t a b) as [row|] eqn:Erow; [|done].
  destruct (sent_maker_get (InfoRow.s1_category row)) as [ph1|] eqn:E1;
    [|done].
  destruct (sent_maker_get (InfoRow.s2_category row)) as [ph2|] eqn:E2;
    [|done].
  apply info_fetchone_Some in Erow as [Hin Hmax].
  apply info_rows_spec in Hin
    as (s1 & s2 & p1 & p2 & m & r & H1 & H2 & Em & Ea & Eb & Hp1 & Hp2
        & Hm & Hr & Er & ->).
  cbn in H, E1, E2. injection H as <-. cbn.
  exists p1, p2, m, r, ph1, ph2. cbn.
  subst a b. destruct s1 as [a m1 c1], s2 as [b m2 c2]. cbn in *. subst m2.
  do 10 (split; [done|]).
  intros s1' s2' r' H1' H2' Ea' Eb' Em' [m' Hm'] Hr' Er'.
  apply (Hmax (InfoRow.Row a (name p1) (category s1') (movie_id s1')
                 (title m') (year m') (average r') (num_votes r')
                 b (name p2) (category s2'))).
  apply info_rows_spec. by exists s1', s2', p1, p2, m', r'.
Qed.

Lemma get_complete_info_cons t a b rest :
  get_complete_info t (a :: b :: rest)
  = match complete_pair t a b with
    | Failed e => Failed e
    | Done duo =>
        match get_complete_info t (b :: rest) with
        | Failed e => Failed e
        | Done info => Done (duo :: info)
        end
    end.
Proof. reflexivity. Qed.

Lemma get_complete_info_pairs t path :
  forall info,
    get_complete_info t path = Done info ->
    length info = pred (length path)
    /\ forall i duo, info !! i = Some duo ->
         exists a b, path !! i = Some a /\ path !! S i = Some b
                     /\ complete_pair t a b = Done duo.
Proof.
  induction path as [|a [|b rest] IH]; intros info H.
  - cbn in H. injection H as <-. split; [done|].
    intros i duo Hi. by rewrite lookup_nil in Hi.
  - cbn in H. injection H as <-. split; [done|].
    intros i duo Hi. by rewrite lookup_nil in Hi.
  - rewrite get_complete_info_cons in H.
    destruct (complete_pair t a b) as [duo0|] eqn:E0; [|done].
    destruct (get_complete_info t (b :: rest)) as [info0|] eqn:E1; [|done].
    injection H as <-. destruct (IH info0 eq_refl) as [Hlen Hall].
    split; [cbn in *; by rewrite Hlen|].
    intros [|i] duo Hi.
    + cbn in Hi. injection Hi as <-. by exists a, b.
    + cbn in Hi. destruct (Hall i duo Hi) as (x & y & Hx & Hy & Hd).
      by exists x, y.
Qed.

(** X10. When [get_complete_info] returns, it returns one dictionary for
    every two neighbours of the path, in the order of the path; the
    dictionary of a pair holds the two persons' ids and names, a stored and
    rated movie in which both have a [stars] row, their roles there and
    the sentence made of them, and no rated movie the two share has more
    votes than the one told of. *)
Theorem get_complete_info_describes t path info :
  get_complete_info t path = Done info ->
  length info = pred (length path)
  /\ forall i duo, info !! i = Some duo ->
       exists a b, path !! i = Some a /\ path !! S i = Some b
                   /\ describes t a b duo.
Proof.
  intros H. destruct (get_complete_info_pairs t path info H) as [Hlen Hall].
  split; [done|]. intros i duo Hi.
  destruct (Hall i duo Hi) as (a & b & Ha & Hb & Hd).
  exists a, b. split; [done|]. split; [done|].
  by apply complete_pair_describes.
Qed.

Lemma get_complete_info_describes_witness :
  exists duo,
    get_complete_info cast [3; 2; 1] = Done
      [Duo.Make 3 "Cy" "self" 30 "Thirty" (Some 2005) None 2 "Bob" "writer"
         "Cy were themselves in Thirty 2005 where Bob was a writer."; duo]
    /\ describes cast 2 1 duo /\ Duo.movie_title duo = "Twenty".
Proof.
  eexists. split; [vm_compute; reflexivity|].
  destruct (get_complete_info_describes cast [3; 2; 1]
              (default [] match get_complete_info cast [3; 2; 1] with
                          | Done info => Some info
                          | Failed _ => None
                          end)) as [_ H].
  - vm_compute. reflexivity.
  - destruct (H 1%nat
                (Duo.Make 2 "Bob" "actor" 20 "Twenty" None None 1 "Ann"
                   "director"
                   "Bob was an actor in Twenty None where Ann was a director."))
      as (a & b & Ha & Hb & Hd).
    + vm_compute. reflexivity.
    + cbn in Ha, Hb. simplify_eq. by split.
Defined.

Lemma solve_walk t start_node target max_nodes path :
  solve t start_node target max_nodes = Ret (Some path) ->
  exists next rest,
    path = target :: next :: rest
    /\ walk_back (co_appear t) start_node path.
Proof.
  intros E.
  destruct (loop_found (find_contacts t) start_node target _ _ _ _
              (inv_init _ _ _) E) as (p & -> & Hne & Hwalk & _).
  destruct p as [|next rest]; [done|]. exists next, rest.
  split; [done|]. by apply co_walk_contacts.
Qed.

Lemma info_rows_nil t a b :
  (forall row, row ∉ info_rows t a b) -> info_rows t a b = [].
Proof.
  intros H. destruct (info_rows t a b) as [|row rest]; [done|].
  destruct (H row). left.
Qed.

(** X11. A path that [solve] returns makes [get_complete_info] raise
    TypeError, at its first pair, when no movie of the target has a
    [ratings] row: the query joins [ratings], so it has no row for the
    pair and [fetchone] gives [None]. *)
Theorem unrated_target_raises t start_node target max_nodes path :
  solve t start_node target max_nodes = Ret (Some path) ->
  (forall s r, s ∈ stars t -> person_id s = target ->
               r ∈ ratings t -> r_movie_id r <> movie_id s) ->
  get_complete_info t path = Failed TypeError.
Proof.
  intros E Hno. apply solve_walk in E as (next & rest & -> & _).
  rewrite get_complete_info_cons. unfold complete_pair.
  replace (info_fetchone t target next) with (@None InfoRow.row); [done|].
  symmetry. apply info_fetchone_None, info_rows_nil. intros row Hin.
  apply info_rows_spec in Hin
    as (s1 & s2 & p1 & p2 & m & r & H1 & _ & _ & Ea & _ & _ & _ & _ & Hr
        & Er & _).
  by apply (Hno s1 r).
Qed.

Lemma unrated_target_raises_witness :
  solve chain 1 3 default_max_nodes = Ret (Some [3; 2; 1])
  /\ get_complete_info chain [3; 2; 1] = Failed TypeError.
Proof.
  split; [vm_compute; reflexivity|].
  apply (unrated_target_raises chain 1 3 default_max_nodes).
  - vm_compute. reflexivity.
  - intros s r _ _ Hr. by apply elem_of_nil in Hr.
Defined.

Lemma complete_pair_done t a b :
  describable t -> co_appear t a b -> exists duo, complete_pair t a b = Done duo.
Proof.
  intros Hd (_ & s1 & s2 & H1 & H2 & Em & Ea & Eb).
  unfold describable in Hd. rewrite Forall_forall in Hd.
  destruct (Hd s1 H1) as ([p1 Hp1] & [m Hm] & Hr & _).
  destruct (Hd s2 H2) as ([p2 Hp2] & _).
  apply Exists_exists in Hr as (r & Hr & Er).
  assert (Hrow : InfoRow.Row a (name p1) (category s1) (movie_id s1)
                   (title m) (year m) (average r) (num_votes r)
                   b (name p2) (category s2) ∈ info_rows t a b).
  { apply info_rows_spec. exists s1, s2, p1, p2, m, r. subst a b.
    by repeat split. }
  unfold complete_pair.
  destruct (info_fetchone t a b) as [row|] eqn:Erow.
  - apply info_fetchone_Some in Erow as [Hin _].
    apply info_rows_spec in Hin
      as (s1' & s2' & p1' & p2' & m' & r' & H1' & H2' & _ & _ & _ & _ & _
          & _ & _ & _ & ->).
    cbn [InfoRow.s1_category InfoRow.s2_category].
    destruct (Hd s1' H1') as (_ & _ & _ & [ph1 ->]).
    destruct (Hd s2' H2') as (_ & _ & _ & [ph2 ->]). by eexists.
  - apply info_fetchone_None in Erow. rewrite Erow in Hrow.
    by apply elem_of_nil in Hrow.
Qed.

Lemma walk_described t start l :
  describable t -> walk_back (co_appear t) start l ->
  exists info, get_complete_info t l = Done info.
Proof.
  intros Hd. induction 1 as [|v u p Hwalk [info IH] Hadj].
  - by exists [].
  - destruct (complete_pair_done t v u Hd (co_appear_sym _ _ _ Hadj))
      as [duo Hduo].
    exists (duo :: info). by rewrite get_complete_info_cons, Hduo, IH.
Qed.

(** X12. On tables in which every [stars] row names a stored person and a
    stored, rated movie with a role that [sent_maker] has, every path that
    [solve] returns is described by [get_complete_info]: it returns, with
    one dictionary for each hop of the path and at least one. *)
Theorem solve_then_describe t start_node target max_nodes path :
  describable t ->
  solve t start_node target max_nodes = Ret (Some path) ->
  exists info,
    get_complete_info t path = Done info
    /\ length info = pred (length path)
    /\ info <> [].
Proof.
  intros Hd E. apply solve_walk in E as (next & rest & -> & Hwalk).
  destruct (walk_described _ _ _ Hd Hwalk) as [info Hinfo].
  exists info. split; [done|].
  destruct (get_complete_info_pairs _ _ _ Hinfo) as [Hlen _].
  split; [done|]. intros ->. done.
Qed.

Lemma solve_then_describe_witness :
  exists info,
    get_complete_info cast [3; 2; 1] = Done info /\ length info = 2%nat.
Proof.
  destruct (solve_then_describe cast 1 3 default_max_nodes [3; 2; 1])
    as (info & H & Hlen & _).
  - unfold describable. apply (bool_decide_unpack _). vm_compute. exact I.
  - vm_compute. reflexivity.
  - by exists info.
Defined.

(** ** The person resolver, when the name is not ambiguous *)

(** X13. [check_name] raises when PostgreSQL rejects the pattern made of
    the stripped input. With a pattern it accepts, [check_name] returns a
    person exactly when one stored person and no other has a name that
    the pattern matches; it then returns that person's row and prints no
    candidate. With no match it returns [None] and prints no candidate
    either. *)
Theorem check_name_unique regex_imatch t input_name :
  let pattern := ("(?:^|\s)" ++ Py.strip input_name ++ "(?:$|\s)")%string in
  (regex_imatch pattern = None ->
   check_name regex_imatch t input_name = Raise InvalidRegularExpression)
  /\ (forall matches,
        regex_imatch pattern = Some matches ->
        (forall p,
            (exists shown,
                check_name regex_imatch t input_name = Ret (Some p, shown))
            <-> people t !! p.1 = Some p.2
                /\ matches (name p.2) = true
                /\ forall q, people t !! q.1 = Some q.2 ->
                             matches (name q.2) = true -> q = p)
        /\ ((forall q, people t !! q.1 = Some q.2 ->
                       matches (name q.2) = false) ->
            check_name regex_imatch t input_name = Ret (None, [])))
  /\ (forall p shown,
        check_name regex_imatch t input_name = Ret (Some p, shown) ->
        shown = []).
Proof.
  intros pattern. split; [|split].
  - intros Hm. unfold check_name, search_people. fold pattern.
    by rewrite Hm.
  - intros matches Hm.
    destruct (search_people regex_imatch t pattern) as [found|e] eqn:Hs;
      [|unfold search_people in Hs; by rewrite Hm in Hs].
    split.
    + intros p. split.
      * intros [shown H]. apply check_name_found in H as [H _].
        fold pattern in H. rewrite Hs in H. injection H as ->.
        assert (Hp : p ∈ [p]) by left.
        destruct (proj1 (search_people_elem _ _ _ _ _ _ Hm Hs) Hp)
          as [Hp' Hmp].
        split; [done|]. split; [done|]. intros q Hq Hmq.
        assert (Hin : q ∈ [p])
          by (apply (search_people_elem _ _ _ _ _ _ Hm Hs); by split).
        by apply list_elem_of_singleton in Hin.
      * intros (Hp & Hmp & Hall). exists [].
        assert (found = [p]) as ->.
        { apply NoDup_all_equal.
          - by apply (search_people_NoDup _ _ _ _ Hs).
          - apply (search_people_elem _ _ _ _ _ _ Hm Hs). by split.
          - intros q Hq.
            destruct (proj1 (search_people_elem _ _ _ _ _ _ Hm Hs) Hq)
              as [? ?].
            by apply Hall. }
        unfold check_name. fold pattern. by rewrite Hs.
    + intros Hno. unfold check_name. fold pattern. rewrite Hs.
      destruct found as [|a rest]; [done|].
      assert (Ha : a ∈ a :: rest) by left.
      destruct (proj1 (search_people_elem _ _ _ _ _ _ Hm Hs) Ha)
        as [Ha' Hma].
      by rewrite (Hno a Ha') in Hma.
  - intros p shown H. by apply check_name_found in H as [_ ?].
Qed.

(** A line with a parenthesis that is not closed: the pattern is
    rejected and [check_name] raises. *)
Example check_name_rejected_pattern :
  check_name word_match namesakes "lee (" = Raise InvalidRegularExpression.
Proof. vm_compute. reflexivity. Qed.

Lemma get_most_famous_raises t text :
  text <> sentinel -> mapM parse_id (Py.split_comma text) = None ->
  get_most_famous t (Some text) = Raise ValueError.
Proof.
  intros Hs Hbad. unfold get_most_famous.
  destruct (String.eqb_spec text sentinel); [done|]. by rewrite Hbad.
Qed.

Lemma get_most_famous_value_error t o e :
  get_most_famous t o = Raise e -> e = ValueError.
Proof.
  unfold get_most_famous. destruct o as [text|]; [|done].
  destruct (String.eqb text sentinel); [done|].
  destruct (mapM parse_id _); [done|]. congruence.
Qed.

Lemma list_candidates_raises t result p text :
  p ∈ result -> famous_movies p.2 = Some text -> text <> sentinel ->
  mapM parse_id (Py.split_comma text) = None ->
  list_candidates t result = Raise ValueError.
Proof.
  intros Hin Hp Hs Hbad. induction result as [|a rest IH].
  - by apply elem_of_nil in Hin.
  - cbn [list_candidates].
    destruct (get_most_famous t (famous_movies a.2)) as [fl|e] eqn:E.
    + apply elem_of_cons in Hin as [->|Hin].
      * rewrite Hp, (get_most_famous_raises t text Hs Hbad) in E. done.
      * by rewrite (IH Hin).
    + apply get_most_famous_value_error in E as ->. done.
Qed.

(** X14. When the name query has several rows and one of them has a
    known-for text with a token that is no id (an empty text is one),
    [check_name] raises ValueError: it prints the titles of every row,
    and [get_most_famous] converts every token. *)
Theorem check_name_raises regex_imatch t input_name result p text :
  search_people regex_imatch t
    ("(?:^|\s)" ++ Py.strip input_name ++ "(?:$|\s)")%string = Ret result ->
  (1 < length result)%nat ->
  p ∈ result -> famous_movies p.2 = Some text -> text <> sentinel ->
  mapM parse_id (Py.split_comma text) = None ->
  check_name regex_imatch t input_name = Raise ValueError.
Proof.
  intros Hres Hlen Hin Hp Hs Hbad. unfold check_name. rewrite Hres.
  cbn [mbind res_bind].
  destruct result as [|a [|b rest]] eqn:E; simpl in Hlen; [lia|lia|].
  by rewrite (list_candidates_raises t _ p text Hin Hp Hs Hbad).
Qed.

Lemma check_name_raises_witness :
  check_name word_match
    (Tables ∅ []
       (list_to_map [(1, Person "Ann Lee" None None (Some "tt10"));
                     (2, Person "Bo Lee" None None (Some ""))]) [])
    "lee"
  = Raise ValueError.
Proof.
  apply (check_name_raises word_match _ "lee"
           [(2, Person "Bo Lee" None None (Some ""));
            (1, Person "Ann Lee" None None (Some "tt10"))]
           (2, Person "Bo Lee" None None (Some "")) "").
  - vm_compute. reflexivity.
  - cbn. lia.
  - left.
  - reflexivity.
  - discriminate.
  - reflexivity.
Defined.

(** ** A loader that fails *)

Lemma quiet_bind {A B} (P : A -> Prop) (Q : B -> Prop) (m : DB A)
  (k : A -> DB B) :
  quiet P m -> (forall a, P a -> quiet Q (k a)) -> quiet Q (m ≫= k).
Proof.
  intros Hm Hk c r c' E. unfold mbind, DB_bind in E.
  destruct (m c) as [[a|e] c1] eqn:E1.
  - destruct (Hm c _ c1 E1) as [Hc Ha].
    destruct (Hk a (Ha a eq_refl) c1 r c' E) as [Hc' Hr].
    split; [congruence|done].
  - simplify_eq. destruct (Hm c _ c' E1) as [Hc _]. split; [done|].
    by intros a ?.
Qed.

Lemma quiet_weaken {A} (P Q : A -> Prop) (m : DB A) :
  (forall a, P a -> Q a) -> quiet P m -> quiet Q m.
Proof.
  intros HPQ Hm c r c' E. destruct (Hm c r c' E) as [Hc Ha].
  split; [done|]. intros a Hr. by apply HPQ, Ha.
Qed.

Lemma quiet_ret {A} (P : A -> Prop) (a : A) : P a -> quiet P (mret a).
Proof. intros Ha c r c' E. cbv in E. simplify_eq. split; [done|]. by intros ? [= <-]. Qed.

Lemma quiet_pure {A} (m : DB A) :
  (forall c, (m c).2 = c) -> quiet (fun _ => True) m.
Proof.
  intros Hm c r c' E. specialize (Hm c). rewrite E in Hm. cbn in Hm.
  by subst.
Qed.

Lemma quiet_value_error {A} (o : option A) :
  quiet (fun _ => True) (or_value_error o).
Proof. apply quiet_pure. intros c. by destruct o. Qed.

Lemma quiet_digits_or_null field : quiet (fun _ => True) (digits_or_null field).
Proof.
  apply quiet_pure. intros c. unfold digits_or_null.
  destruct (Py.isdigit field); [|done]. by destruct (Py.int field).
Qed.

Lemma quiet_int_or_null field : quiet (fun _ => True) (int_or_null field).
Proof.
  apply quiet_pure. intros c. unfold int_or_null.
  destruct (String.eqb field sentinel); [done|]. by destruct (Py.int field).
Qed.

Lemma quiet_float_or_null field : quiet (fun _ => True) (float_or_null field).
Proof.
  apply quiet_pure. intros c. unfold float_or_null.
  destruct (String.eqb field sentinel); [done|].
  by destruct (PyFloat.float field).
Qed.

Lemma quiet_execute {A} (statement : tables -> res (A * tables)) :
  quiet (fun _ => True) (execute statement).
Proof.
  intros c r c' E. unfold execute in E. destruct (aborted c).
  - by simplify_eq.
  - destruct (statement (current c)) as [[a t]|e]; by simplify_eq.
Qed.

Lemma quiet_commit_batch count :
  count mod 100000 <> 0 -> quiet (fun _ => True) (commit_batch count).
Proof.
  intros H. unfold commit_batch. apply Z.eqb_neq in H. rewrite H.
  by apply quiet_ret.
Qed.

(** After an insertion the counter is one more, with no commit below the
    batch size. *)
Lemma quiet_counted {A} (statement : tables -> res (A * tables)) count :
  0 <= count < 99999 ->
  quiet (fun n => count <= n <= count + 1)
    (execute statement;; commit_batch (count + 1);; mret (count + 1)).
Proof.
  intros Hc. eapply quiet_bind; [apply quiet_execute|]. intros _ _.
  eapply quiet_bind.
  - apply quiet_commit_batch. rewrite Z.mod_small; lia.
  - intros _ _. apply quiet_ret. lia.
Qed.

Lemma quiet_movies_row row count :
  0 <= count < 99999 ->
  quiet (fun n => count <= n <= count + 1) (movies_row row count).
Proof.
  intros Hc. unfold movies_row.
  eapply quiet_bind; [apply quiet_value_error|]. intros id _.
  eapply quiet_bind; [apply quiet_digits_or_null|]. intros year _.
  eapply quiet_bind; [apply quiet_digits_or_null|]. intros is_adult _.
  eapply quiet_bind; [apply quiet_digits_or_null|]. intros runtime _.
  by apply quiet_counted.
Qed.

Lemma quiet_people_row row count :
  0 <= count < 99999 ->
  quiet (fun n => count <= n <= count + 1) (people_row row count).
Proof.
  intros Hc. unfold people_row.
  eapply quiet_bind; [apply quiet_value_error|]. intros id _.
  eapply quiet_bind; [apply quiet_int_or_null|]. intros birth _.
  eapply quiet_bind; [apply quiet_int_or_null|]. intros death _.
  by apply quiet_counted.
Qed.

Lemma quiet_ratings_row row count :
  0 <= count < 99999 ->
  quiet (fun n => count <= n <= count + 1) (ratings_row row count).
Proof.
  intros Hc. unfold ratings_row.
  eapply quiet_bind; [apply quiet_value_error|]. intros id _.
  eapply quiet_bind; [apply quiet_execute|]. intros [found|] _.
  - eapply quiet_bind; [apply quiet_float_or_null|]. intros average _.
    eapply quiet_bind; [apply quiet_int_or_null|]. intros num_votes _.
    by apply quiet_counted.
  - apply quiet_ret. lia.
Qed.

Lemma quiet_stars_row row count :
  0 <= count < 99999 ->
  quiet (fun n => count <= n <= count + 1) (stars_row row count).
Proof.
  intros Hc. unfold stars_row.
  eapply quiet_bind; [apply quiet_value_error|]. intros pid _.
  eapply quiet_bind; [apply quiet_value_error|]. intros mid _.
  eapply quiet_bind; [apply quiet_execute|]. intros [found|] _.
  - eapply quiet_bind; [apply quiet_execute|]. intros [found'|] _.
    + by apply quiet_counted.
    + apply quiet_ret. lia.
  - apply quiet_ret. lia.
Qed.

Lemma quiet_for_rows {R} (body : R -> Z -> DB Z) rows :
  (forall row count, 0 <= count < 99999 ->
     quiet (fun n => count <= n <= count + 1) (body row count)) ->
  forall count,
    0 <= count -> count + Z.of_nat (length rows) < 100000 ->
    quiet (fun _ => True) (for_rows body rows count).
Proof.
  intros Hbody. induction rows as [|row rows IH]; intros count H0 Hlen.
  - by apply quiet_ret.
  - cbn [for_rows]. cbn [length] in Hlen.
    eapply quiet_bind; [apply Hbody; lia|].
    intros n Hn. cbn beta in Hn. apply IH; lia.
Qed.

(** A run that raises has not reached the final commit. *)
Lemma loader_raise_quiet {R} (body : R -> Z -> DB Z)
  (recreate : tables -> res tables) (rest : DB unit) file c e c' :
  (forall row count, 0 <= count < 99999 ->
     quiet (fun n => count <= n <= count + 1) (body row count)) ->
  Z.of_nat (length file) < 100000 ->
  (forall c1 e1 c2, rest c1 <> (Raise e1, c2)) ->
  (execute (update recreate);; for_rows body file 0;; rest) c
  = (Raise e, c') ->
  committed c' = committed c.
Proof.
  intros Hbody Hlen Hrest E. unfold mbind, DB_bind in E.
  destruct (execute (update recreate) c) as [[u|e1] c1] eqn:E1.
  - destruct (quiet_execute _ _ _ _ E1) as [Hc1 _].
    destruct (for_rows body file 0 c1) as [[u2|e2] c2] eqn:E2.
    + by destruct (Hrest _ _ _ E).
    + simplify_eq.
      destruct (quiet_for_rows body file Hbody 0 (Z.le_refl 0)
                  ltac:(lia) _ _ _ E2) as [Hc2 _].
      congruence.
  - simplify_eq. by destruct (quiet_execute _ _ _ _ E1) as [Hc1 _].
Qed.

Lemma commit_returns c e c' : commit c <> (Raise e, c').
Proof. unfold commit. by destruct (aborted c). Qed.

(** X15. A loader that raises on a dump of fewer than 100,000 rows has
    committed nothing: a new session still sees the tables as they were
    before the run, the dropped table included. *)
Theorem short_dump_atomic c e c' :
  (forall file, Z.of_nat (length file) < 100000 ->
                make_movies file c = (Raise e, c') ->
                committed c' = committed c)
  /\ (forall file, Z.of_nat (length file) < 100000 ->
                   make_ratings file c = (Raise e, c') ->
                   committed c' = committed c)
  /\ (forall file, Z.of_nat (length file) < 100000 ->
                   make_people file c = (Raise e, c') ->
                   committed c' = committed c)
  /\ (forall file, Z.of_nat (length file) < 100000 ->
                   make_stars file c = (Raise e, c') ->
                   committed c' = committed c).
Proof.
  split; [|split; [|split]]; intros file Hlen E.
  - eapply (loader_raise_quiet movies_row); [|done| |exact E].
    + apply quiet_movies_row.
    + apply commit_returns.
  - eapply (loader_raise_quiet ratings_row); [|done| |exact E].
    + apply quiet_ratings_row.
    + apply commit_returns.
  - eapply (loader_raise_quiet people_row); [|done| |exact E].
    + apply quiet_people_row.
    + apply commit_returns.
  - eapply (loader_raise_quiet stars_row _ (commit;; commit));
      [|done| |exact E].
    + apply quiet_stars_row.
    + intros c1 e1 c2. unfold mbind, DB_bind, commit.
      by destruct (aborted c1).
Qed.

Lemma short_dump_atomic_witness :
  (make_movies (one_title ++ one_title) (fresh untyped_store)).1
  = Raise (UniqueViolation "movies")
  /\ committed (make_movies (one_title ++ one_title) (fresh untyped_store)).2
     = untyped_store.
Proof.
  split; [vm_compute; reflexivity|].
  destruct (short_dump_atomic (fresh untyped_store)
              (UniqueViolation "movies")
              (make_movies (one_title ++ one_title) (fresh untyped_store)).2)
    as (H & _).
  apply (H (one_title ++ one_title)).
  - reflexivity.
  - vm_compute. reflexivity.
Defined.

(** ** No person twice on a path *)

Lemma walk_back_suffix (R : Z -> Z -> Prop) start l1 v l3 :
  walk_back R start (l1 ++ v :: l3) -> walk_back R start (v :: l3).
Proof.
  induction l1 as [|x l1 IH]; [done|]. cbn. intros H. apply IH.
  inversion H as [E|x' u p Hw Hadj [E1 E2]].
  - by destruct l1.
  - done.
Qed.

(** A walk that passes twice through a node has a shorter walk between
    the same ends. *)
Lemma walk_back_shortcut (R : Z -> Z -> Prop) start l :
  walk_back R start l -> ~ NoDup l ->
  exists v q, head l = Some v /\ walk_back R start (v :: q)
              /\ (S (length q) < length l)%nat.
Proof.
  induction 1 as [|v u p Hw IH Hadj]; intros Hdup.
  - destruct Hdup. apply NoDup_singleton.
  - destruct (decide (v ∈ u :: p)) as [Hin|Hout].
    + apply list_elem_of_split in Hin as (l2 & l3 & E).
      exists v, l3. split; [done|]. split.
      * apply (walk_back_suffix R start l2). by rewrite <- E.
      * change (length (v :: u :: p)) with (S (length (u :: p))).
        rewrite E, length_app. cbn [length]. lia.
    + destruct IH as (u' & q & Hhead & Hq & Hlen).
      { intros Hnd. apply Hdup. by apply NoDup_cons. }
      cbn in Hhead. injection Hhead as <-.
      exists v, (u :: q). split; [done|]. split.
      * by constructor.
      * cbn [length] in *. lia.
Qed.

Lemma walk_back_Forall (R : Z -> Z -> Prop) (P : Z -> Prop) start l :
  (forall x y, R x y -> P x /\ P y) ->
  walk_back R start l -> l = [start] \/ Forall P l.
Proof.
  intros HR. induction 1 as [|v u p Hw IH Hadj]; [by left|]. right.
  destruct (HR u v Hadj) as [Hu Hv]. constructor; [done|].
  destruct IH as [IH|IH]; [|done]. injection IH as -> ->.
  by repeat constructor.
Qed.

Lemma contacts_have_stars t x y :
  y ∈ find_contacts t x ->
  (exists s, s ∈ stars t /\ person_id s = x)
  /\ (exists s, s ∈ stars t /\ person_id s = y).
Proof.
  intros H.
  apply find_contacts_spec in H as (_ & s1 & s2 & H1 & H2 & _ & E1 & E2).
  split; [by exists s1|by exists s2].
Qed.

(** X16. Between two different persons, the path that [solve] returns
    holds no person twice, and every person on it has a [stars] row. *)
Theorem solve_simple_path t start_node target max_nodes path :
  start_node <> target ->
  solve t start_node target max_nodes = Ret (Some path) ->
  NoDup path
  /\ Forall (fun v => exists s, s ∈ stars t /\ person_id s = v) path.
Proof.
  intros Hne E.
  destruct (loop_found (find_contacts t) start_node target _ _ _ _
              (inv_init _ _ _) E) as (p & -> & Hp & Hwalk & Hmin).
  split.
  - destruct (decide (NoDup (target :: p))) as [?|Hdup]; [done|].
    destruct (walk_back_shortcut _ _ _ Hwalk Hdup)
      as (v & q & Hhead & Hq & Hlen).
    cbn in Hhead. injection Hhead as <-. destruct q as [|u q].
    + inversion Hq. by destruct Hne.
    + pose proof (walk_back_reach _ _ _ Hq target (u :: q) eq_refl) as Hr.
      cbn [length] in Hr, Hlen. specialize (Hmin _ Hr). lia.
  - destruct (walk_back_Forall _
                (fun v => exists s, s ∈ stars t /\ person_id s = v)
                _ _ (contacts_have_stars t) Hwalk) as [Hl|Hl]; [|done].
    injection Hl as -> ->. done.
Qed.

Lemma solve_simple_path_witness :
  NoDup [3; 2; 1]
  /\ Forall (fun v => exists s, s ∈ stars cast /\ person_id s = v) [3; 2; 1].
Proof.
  apply (solve_simple_path cast 1 3 default_max_nodes).
  - discriminate.
  - vm_compute. reflexivity.
Defined.

(** ** The prompts and the main block *)

Lemma chosen_returned t person_info rest id unread :
  chosen t person_info rest = Returned id unread ->
  id = person_info.1 /\ unread = rest.
Proof.
  unfold chosen. destruct (famous_movies person_info.2).
  - destruct (get_most_famous t _); intros H; by simplify_eq.
  - intros H. by simplify_eq.
Qed.

Lemma check_for_id_person t line id p :
  check_for_id t line = Some (id, p) -> people t !! id = Some p.
Proof.
  unfold check_for_id. destruct (Py.int line) as [i|]; [|done]. cbn.
  destruct (people t !! i) as [q|] eqn:E; [|done]. cbn.
  intros H. by simplify_eq.
Qed.

Lemma check_name_person regex_imatch t line p shown :
  check_name regex_imatch t line = Ret (Some p, shown) ->
  people t !! p.1 = Some p.2.
Proof.
  intros [H _]%check_name_found.
  apply (search_people_rows _ _ _ _ _ H). left.
Qed.

(** X17. When [get_input] returns an id, that id is of a stored person;
    the person is the one that the first line to resolve resolves to, by
    id if the line is the id of a stored person and else by name; every
    line before it resolved to nobody, and the lines after it are left
    unread. *)
Theorem get_input_chooses regex_imatch t inputs id unread :
  get_input regex_imatch t inputs = Returned id unread ->
  exists skipped line p,
    inputs = skipped ++ line :: unread
    /\ Forall (unresolved regex_imatch t) skipped
    /\ line <> quit_line
    /\ resolves_to regex_imatch t line (id, p)
    /\ people t !! id = Some p.
Proof.
  induction inputs as [|u inputs IH]; [done|]. cbn [get_input].
  destruct (String.eqb_spec u quit_line) as [|Hq]; [done|].
  destruct (check_for_id t u) as [[i p]|] eqn:Eid.
  - intros H. apply chosen_returned in H as [-> ->].
    exists [], u, p. split; [done|]. split; [constructor|].
    split; [done|]. split; [by left|]. by apply check_for_id_person in Eid.
  - destruct (check_name regex_imatch t u) as [[[[i p]|] shown]|e] eqn:En;
      [| |done].
    + intros H. apply chosen_returned in H as [-> ->].
      exists [], u, p. split; [done|]. split; [constructor|].
      split; [done|]. split; [right; split; [done|by exists shown]|].
      by apply check_name_person in En.
    + intros H. destruct (IH H) as (skipped & line & p & -> & Hsk & Hl & Hr
                                     & Hp).
      exists (u :: skipped), line, p. split; [done|].
      split; [|done]. constructor; [|done].
      split; [done|]. split; [done|]. by exists shown.
Qed.

Lemma get_input_chooses_witness :
  get_input word_match namesakes ["lee"; "zed"; "3"; "1"] = Returned 3 ["1"]
  /\ exists skipped line p,
       ["lee"; "zed"; "3"; "1"] = skipped ++ line :: ["1"]
       /\ Forall (unresolved word_match namesakes) skipped
       /\ line <> quit_line
       /\ resolves_to word_match namesakes line (3, p)
       /\ people namesakes !! 3 = Some p.
Proof.
  split; [vm_compute; reflexivity|].
  apply get_input_chooses. vm_compute. reflexivity.
Defined.

(** A line that makes a pattern PostgreSQL rejects ends the prompt with the
    error of the query. *)
Example get_input_rejected_pattern :
  get_input word_match namesakes ["lee ("; "3"]
  = Raised InvalidRegularExpression.
Proof. vm_compute. reflexivity. Qed.

(** X18. When the two chosen persons are not connected and the default
    ceiling is at least [budget], the main block ends with TypeError:
    [solve] returns [None], and [get_complete_info] takes its length. *)
Theorem main_unconnected regex_imatch t inputs id_1 id_2 rest unread :
  get_input regex_imatch t inputs = Returned id_1 rest ->
  get_input regex_imatch t rest = Returned id_2 unread ->
  (forall q, q <> [] -> ~ walk_back (co_appear t) id_1 (id_2 :: q)) ->
  budget t id_1 <= default_max_nodes ->
  main regex_imatch t inputs = RaisedInfo TypeError.
Proof.
  intros E1 E2 Hno Hfuel. unfold main. rewrite E1, E2.
  replace (solve t id_1 id_2 default_max_nodes)
    with (@Ret (option (list Z)) None); [done|].
  symmetry.
  apply (solve_from_no_path (find_contacts t) id_1 id_2 (id_1 :: persons t)).
  - intros x c. apply universe_closed.
  - left.
  - by apply budget_enough.
  - by apply out_of_reach.
Qed.

Lemma main_unconnected_witness :
  main word_match apart ["1"; "4"] = RaisedInfo TypeError.
Proof.
  apply (main_unconnected word_match apart ["1"; "4"] 1 4 ["4"] []).
  - vm_compute. reflexivity.
  - vm_compute. reflexivity.
  - intros q. apply (no_path_out_of_reach apart 1 4 default_max_nodes).
    vm_compute. reflexivity.
  - vm_compute. discriminate.
Defined.

Lemma solve_ends t start_node target max_nodes path :
  solve t start_node target max_nodes = Ret (Some path) ->
  exists next rest,
    path = target :: next :: rest /\ last path = Some start_node.
Proof.
  intros E.
  destruct (loop_found (find_contacts t) start_node target _ _ _ _
              (inv_init _ _ _) E) as (p & -> & Hne & Hwalk & _).
  destruct p as [|next rest]; [done|]. exists next, rest.
  split; [done|]. by apply (walk_back_last (find_contacts t) start_node).
Qed.

Lemma complete_pair_ids t a b duo :
  complete_pair t a b = Done duo ->
  Duo.person_1_id duo = a /\ Duo.person_2_id duo = b.
Proof.
  intros H. apply complete_pair_describes in H
    as (p1 & p2 & m & r & ph1 & ph2 & _ & _ & _ & _ & _ & _ & _ & _ & _ & E
        & _).
  by rewrite E.
Qed.

(** X19. When the main block comes to a description, its dictionaries run
    from the person of the second prompt to the person of the first: the
    first dictionary starts with the second person, the last one ends with
    the first person, and every dictionary ends with the person the next
    one starts with. *)
Theorem main_described regex_imatch t inputs info unread :
  main regex_imatch t inputs = Returned info unread ->
  exists id_1 id_2 rest,
    get_input regex_imatch t inputs = Returned id_1 rest
    /\ get_input regex_imatch t rest = Returned id_2 unread
    /\ Duo.person_1_id <$> head info = Some id_2
    /\ Duo.person_2_id <$> last info = Some id_1
    /\ forall i d1 d2,
         info !! i = Some d1 -> info !! S i = Some d2 ->
         Duo.person_2_id d1 = Duo.person_1_id d2.
Proof.
  unfold main. intros H.
  destruct (get_input regex_imatch t inputs) as [id_1 rest| | | |] eqn:E1;
    try done.
  destruct (get_input regex_imatch t rest) as [id_2 rest'| | | |] eqn:E2;
    try done.
  destruct (solve t id_1 id_2 default_max_nodes) as [[path|]|e] eqn:Es;
    try done.
  destruct (get_complete_info t path) as [info'|e] eqn:Ei; [|done].
  injection H as -> ->. exists id_1, id_2, rest.
  split; [done|]. split; [done|].
  destruct (solve_ends _ _ _ _ _ Es) as (next & p & -> & Hlast).
  destruct (get_complete_info_pairs _ _ _ Ei) as [Hlen Hall].
  cbn [length pred] in Hlen.
  split; [|split].
  - destruct info as [|d0 info]; [done|]. cbn.
    destruct (Hall 0%nat d0 eq_refl) as (a & b & Ha & _ & Hd).
    cbn in Ha. apply complete_pair_ids in Hd as [Hd _]. congruence.
  - rewrite last_lookup, Hlen. cbn [pred].
    destruct (info !! length p) as [d|] eqn:Ed.
    + destruct (Hall _ d Ed) as (a & b & _ & Hb & Hd).
      apply complete_pair_ids in Hd as [_ Hd].
      rewrite last_lookup in Hlast. cbn [length pred] in Hlast.
      cbn. congruence.
    + apply lookup_ge_None in Ed. lia.
  - intros i d1 d2 H1 H2.
    destruct (Hall _ _ H1) as (a & b & _ & Hb & Hd1).
    destruct (Hall _ _ H2) as (a' & b' & Ha' & _ & Hd2).
    apply complete_pair_ids in Hd1 as [_ Hd1].
    apply complete_pair_ids in Hd2 as [Hd2 _]. congruence.
Qed.

Lemma main_described_witness :
  exists info,
    main word_match cast ["1"; "3"] = Returned info []
    /\ Duo.person_1_id <$> head info = Some 3
    /\ Duo.person_2_id <$> last info = Some 1.
Proof.
  destruct (main_described word_match cast ["1"; "3"]
              (default [] match main word_match cast ["1"; "3"] with
                          | Returned info _ => Some info
                          | _ => None
                          end) [])
    as (id_1 & id_2 & rest & E1 & E2 & Hh & Hl & _).
  - vm_compute. reflexivity.
  - vm_compute in E1. injection E1 as <- <-.
    vm_compute in E2. injection E2 as <-.
    eexists. split; [vm_compute; reflexivity|]. by split.
Defined.

(** ** The strip of collages *)

(** The loop after [k] rounds: the image is as wide as the first [k + 1]
    collages together and as high as the highest of them. *)
Lemma merge_loop_strip info :
  forall rest k img,
    (k + length rest = length info)%nat -> rest <> [] ->
    img.1 = total_width (take (S k) info) ->
    (forall size, size ∈ take (S k) info -> size.2 <= img.2) ->
    (exists size, size ∈ take (S k) info /\ size.2 = img.2) ->
    exists strip,
      merge_loop info rest (Z.of_nat k) img = Saved strip
      /\ strip.1 = total_width info
      /\ (forall size, size ∈ info -> size.2 <= strip.2)
      /\ exists size, size ∈ info /\ size.2 = strip.2.
Proof.
  induction rest as [|duo rest IH]; intros k img Hlen Hne Hw Hle Hex;
    [done|].
  cbn [merge_loop]. cbn [length] in Hlen.
  destruct (Z.eqb_spec (Z.of_nat k + 1) (Z.of_nat (length info))) as [E|E].
  - assert (length info = S k) as El by lia.
    rewrite <- El, firstn_all in Hw, Hle, Hex. by exists img.
  - replace (Z.to_nat (Z.of_nat k + 1)) with (S k) by lia.
    destruct (info !! S k) as [img2|] eqn:E2;
      [|apply lookup_ge_None in E2; lia].
    assert (Htake : take (S (S k)) info = take (S k) info ++ [img2])
      by by apply take_S_r.
    replace (Z.of_nat k + 1) with (Z.of_nat (S k)) by lia.
    apply IH.
    + lia.
    + destruct rest; [|done]. cbn in Hlen. lia.
    + cbn [fst]. rewrite Htake, Hw. clear.
      induction (take (S k) info) as [|a l IHl]; cbn; lia.
    + intros size Hin. cbn [snd]. rewrite Htake in Hin.
      apply elem_of_app in Hin as [Hin|Hin].
      * specialize (Hle size Hin). lia.
      * apply list_elem_of_singleton in Hin as ->. lia.
    + cbn [snd]. rewrite Htake. destruct Hex as (size & Hin & Hs).
      destruct (Z.max_spec img.2 img2.2) as [[_ ->]|[_ ->]].
      * exists img2. split; [|done]. apply elem_of_app. right. left.
      * exists size. split; [|done]. apply elem_of_app. by left.
Qed.

(** X20. [merge_images] never returns. On a list with a collage it saves
    a strip as wide as all the collages together and as high as the
    highest of them, and leaves through [sys.exit()]; on an empty list it
    raises IndexError. *)
Theorem merge_images_strip info :
  merge_images info <> Finished
  /\ (info = [] -> merge_images info = IndexError)
  /\ (info <> [] ->
      exists strip,
        merge_images info = Saved strip
        /\ strip.1 = total_width info
        /\ (forall size, size ∈ info -> size.2 <= strip.2)
        /\ exists size, size ∈ info /\ size.2 = strip.2).
Proof.
  assert (H : info <> [] ->
              exists strip,
                merge_images info = Saved strip
                /\ strip.1 = total_width info
                /\ (forall size, size ∈ info -> size.2 <= strip.2)
                /\ exists size, size ∈ info /\ size.2 = strip.2).
  { intros Hne. destruct info as [|img tl] eqn:E; [done|]. rewrite <- E.
    assert (H0 : info !! 0%nat = Some img) by by rewrite E.
    assert (Ht : take 1 info = [img]) by (rewrite E; cbn; by rewrite take_0).
    unfold merge_images. rewrite H0.
    apply (merge_loop_strip info info 0 img).
    - done.
    - by rewrite E.
    - rewrite Ht. cbn. lia.
    - intros size Hin. rewrite Ht in Hin.
      apply list_elem_of_singleton in Hin as ->. lia.
    - exists img. split; [|done]. rewrite Ht. left. }
  split; [|split; [|done]].
  - destruct info as [|img tl]; [done|].
    destruct H as (strip & -> & _); done.
  - by intros ->.
Qed.
